(** * script.js: sequential script loading with captured document.write

    A shallow embedding of [src/script.js] (the [script] loader, version
    0.6-SNAPSHOT).  The module-level variables of the source ([writes],
    [docWrite], [docWriteln], [scripts], [DOMContentLoaded], [uid]) and the
    part of the host page the loader touches (the two write entry points of
    [document], the element tree, the load handlers of script elements) are
    the fields of one [state] record; every source function is a state
    transformer that either completes or throws.  Host callbacks (the
    DOMContentLoaded event, a script's load signal, a [document.write] of the
    script being loaded) are the events of a small machine.

    Left out: the calls of the debugging helper [log] (they have no effect
    on the loader).  Of the life-cycle gate, the [addEventListener] branch is
    the one the machine runs; the listener and the scroll check of the
    [attachEvent] branch are functions of their own.  A page function is a
    transformer of the capture buffer and the element tree; the loop of
    [moveChildren] has a budget of one step per child, and running out of it
    is a result of its own ([Gas]), never a normal completion. *)

From stdpp Require Import gmap strings list pretty.
From Stdlib Require Import ZArith Ascii.

Local Open Scope string_scope.
Local Open Scope Z_scope.
Local Open Scope list_scope.

Set Warnings "-register-all".

(** ** JavaScript values *)

(** Primitive values (and objects that are only ever tested for truthiness or
    converted to a string: [PObj] carries the result of that conversion). *)
Inductive prim :=
| PUndef
| PNull
| PBool (b : bool)
| PNum (z : Z)
| PNaN
| PStr (s : string)
| PObj (repr : string).

(** ToBoolean. *)
Definition truthy (p : prim) : bool :=
  match p with
  | PUndef | PNull | PNaN => false
  | PBool b => b
  | PNum z => negb (z =? 0)
  | PStr s => negb (String.eqb s "")
  | PObj _ => true
  end.

(** ToString, as used by [+] with a string operand. *)
Definition toString (p : prim) : string :=
  match p with
  | PUndef => "undefined"
  | PNull => "null"
  | PBool true => "true"
  | PBool false => "false"
  | PNum z => pretty z
  | PNaN => "NaN"
  | PStr s => s
  | PObj r => r
  end.

(** [x == null]: true of [null] and [undefined] only. *)
Definition is_nullish (p : prim) : bool :=
  match p with PUndef | PNull => true | _ => false end.

(** An element of [Array.prototype.join]: [null] and [undefined] give the
    empty string. *)
Definition join_item (p : prim) : string :=
  if is_nullish p then "" else toString p.

(** [a.join('')]. *)
Definition join (a : list prim) : string :=
  foldr (fun p acc => join_item p +:+ acc) "" a.

(** ** The element tree of the host document *)

(** Node handles. *)
Abbreviation nid := nat.

(** The shape of the tree: node handles only; the properties of a node live
    in a store, so that a node keeps its identity when it is moved. *)
Inductive tree := Node (h : nid) (kids : list tree).

Definition root (t : tree) : nid := match t with Node h _ => h end.
Definition children (t : tree) : list tree := match t with Node _ ks => ks end.

(** What [innerHTML] parsing produces: elements with a tag and an optional id,
    and text. *)
Inductive html :=
| HElem (tag : string) (hid : option string) (body : list html)
| HText (s : string).

Record dom := {
  document : tree;                       (* the attached tree *)
  detached : list tree;                  (* created or removed subtrees *)
  props : gmap nid (gmap string prim)    (* properties of each node *)
}.

Definition set_document t (d : dom) :=
  {| document := t; detached := detached d; props := props d |}.
Definition set_detached l (d : dom) :=
  {| document := document d; detached := l; props := props d |}.
Definition set_props p (d : dom) :=
  {| document := document d; detached := detached d; props := p |}.

(** [node.name], [undefined] when never assigned. *)
Definition get_prop (n : nid) (name : string) (d : dom) : prim :=
  default PUndef (default ∅ (props d !! n) !! name).

(** [node.name = v]. *)
Definition set_prop (n : nid) (name : string) (v : prim) (d : dom) : dom :=
  set_props (<[n := <[name := v]> (default ∅ (props d !! n))]> (props d)) d.

(** First node in document order (preorder) satisfying [P]. *)
Fixpoint find_node (P : nid -> bool) (t : tree) : option nid :=
  match t with
  | Node h ks =>
      if P h then Some h
      else (fix go (l : list tree) : option nid :=
              match l with
              | [] => None
              | k :: l' =>
                  match find_node P k with
                  | Some r => Some r
                  | None => go l'
                  end
              end) ks
  end.

Definition find_forest (P : nid -> bool) (l : list tree) : option nid :=
  (fix go (l : list tree) : option nid :=
     match l with
     | [] => None
     | k :: l' =>
         match find_node P k with
         | Some r => Some r
         | None => go l'
         end
     end) l.

Definition prim_eqb (a b : prim) : bool :=
  match a, b with
  | PUndef, PUndef | PNull, PNull | PNaN, PNaN => true
  | PBool x, PBool y => Bool.eqb x y
  | PNum x, PNum y => (x =? y)
  | PStr x, PStr y => String.eqb x y
  | PObj x, PObj y => String.eqb x y
  | _, _ => false
  end.

(** [document.getElementById(key)]: the first attached element whose id is
    the string [key]. *)
Definition getElementById (key : string) (d : dom) : option nid :=
  find_forest (fun h => prim_eqb (get_prop h "id" d) (PStr key))
              (children (document d)).

(** [document.getElementsByTagName(name)[0]]. *)
Definition firstByTagName (name : string) (d : dom) : option nid :=
  find_forest (fun h => prim_eqb (get_prop h "tagName" d) (PStr name))
              (children (document d)).

(** The handle of the node whose child list contains [h]. *)
Fixpoint parent_in (h : nid) (t : tree) : option nid :=
  match t with
  | Node p ks =>
      if existsb (fun k => Nat.eqb (root k) h) ks then Some p
      else (fix go (l : list tree) : option nid :=
              match l with
              | [] => None
              | k :: l' =>
                  match parent_in h k with
                  | Some r => Some r
                  | None => go l'
                  end
              end) ks
  end.

(** [node.parentNode]. *)
Definition parentNode (h : nid) (d : dom) : option nid :=
  match parent_in h (document d) with
  | Some p => Some p
  | None =>
      (fix go (l : list tree) : option nid :=
         match l with
         | [] => None
         | k :: l' =>
             match parent_in h k with
             | Some r => Some r
             | None => go l'
             end
         end) (detached d)
  end.

(** The subtree rooted at [h]. *)
Fixpoint subtree (h : nid) (t : tree) : option tree :=
  match t with
  | Node p ks =>
      if Nat.eqb p h then Some t
      else (fix go (l : list tree) : option tree :=
              match l with
              | [] => None
              | k :: l' =>
                  match subtree h k with
                  | Some r => Some r
                  | None => go l'
                  end
              end) ks
  end.

Definition subtree_dom (h : nid) (d : dom) : tree :=
  match subtree h (document d) with
  | Some t => t
  | None =>
      default (Node h [])
        ((fix go (l : list tree) : option tree :=
            match l with
            | [] => None
            | k :: l' =>
                match subtree h k with
                | Some r => Some r
                | None => go l'
                end
            end) (detached d))
  end.

(** Cut the subtree rooted at [h] out of every child list. *)
Fixpoint prune (h : nid) (t : tree) : tree :=
  match t with
  | Node p ks =>
      Node p ((fix go (l : list tree) : list tree :=
                 match l with
                 | [] => []
                 | k :: l' =>
                     if Nat.eqb (root k) h then go l'
                     else prune h k :: go l'
                 end) ks)
  end.

Definition prune_forest (h : nid) (l : list tree) : list tree :=
  map (prune h) (filter (fun k => root k ≠ h) l).

(** Put [new] immediately after the child [a]. *)
Fixpoint insert_after (a : nid) (new : tree) (t : tree) : tree :=
  match t with
  | Node p ks =>
      Node p ((fix go (l : list tree) : list tree :=
                 match l with
                 | [] => []
                 | k :: l' =>
                     if Nat.eqb (root k) a then k :: new :: l'
                     else insert_after a new k :: go l'
                 end) ks)
  end.

(** Put [new] immediately before the child [a]. *)
Fixpoint insert_before (a : nid) (new : tree) (t : tree) : tree :=
  match t with
  | Node p ks =>
      Node p ((fix go (l : list tree) : list tree :=
                 match l with
                 | [] => []
                 | k :: l' =>
                     if Nat.eqb (root k) a then new :: k :: l'
                     else insert_before a new k :: go l'
                 end) ks)
  end.

(** Make [new] the last child of [p]. *)
Fixpoint append_kid (p : nid) (new : tree) (t : tree) : tree :=
  match t with
  | Node q ks =>
      if Nat.eqb q p then Node q (ks ++ [new])
      else Node q (map (append_kid p new) ks)
  end.

(** Replace the children of [p]. *)
Fixpoint replace_kids (p : nid) (new : list tree) (t : tree) : tree :=
  match t with
  | Node q ks =>
      if Nat.eqb q p then Node q new
      else Node q (map (replace_kids p new) ks)
  end.

Definition map_trees (f : tree -> tree) (d : dom) : dom :=
  set_detached (map f (detached d)) (set_document (f (document d)) d).

(** Take the subtree of [h] out of wherever it is; the result has it nowhere.
    The subtree itself is returned so that it can be put elsewhere. *)
Definition take_out (h : nid) (d : dom) : tree * dom :=
  let t := subtree_dom h d in
  (t, set_detached (prune_forest h (detached d))
        (set_document (prune h (document d)) d)).

(** [parent.removeChild(h)]: the subtree becomes detached. *)
Definition removeChild (h : nid) (d : dom) : dom :=
  let '(t, d') := take_out h d in
  set_detached (detached d' ++ [t]) d'.

(** [parent.appendChild(h)]. *)
Definition appendChild (p h : nid) (d : dom) : dom :=
  let '(t, d') := take_out h d in
  map_trees (append_kid p t) d'.

(** [parent.insertBefore(h, ref)] with [ref] a child of [parent]. *)
Definition insertBefore (h ref : nid) (d : dom) : dom :=
  let '(t, d') := take_out h d in
  map_trees (insert_before ref t) d'.

(** [h] placed as the next sibling of [a]. *)
Definition insertAfter (h a : nid) (d : dom) : dom :=
  let '(t, d') := take_out h d in
  map_trees (insert_after a t) d'.

(** [document.createElement(tag)]: a detached node with the new handle
    [h]. *)
Definition createElement (tag : string) (h : nid) (d : dom) : dom :=
  set_prop h "tagName" (PStr tag) (set_detached (detached d ++ [Node h []]) d).

(** [node.childNodes[0]]. *)
Definition firstChild (h : nid) (d : dom) : option nid :=
  match children (subtree_dom h d) with
  | [] => None
  | k :: _ => Some (root k)
  end.

(** Allocate the nodes of a parsed fragment, with handles from [h] on;
    the next unused handle is returned. *)
Fixpoint install (x : html) (h : nid) (d : dom) : tree * nid * dom :=
  match x with
  | HText s =>
      (Node h [], S h,
       set_prop h "data" (PStr s) (set_prop h "tagName" (PStr "#text") d))
  | HElem tag hid body =>
      let d1 := set_prop h "tagName" (PStr tag) d in
      let d2 := match hid with
                | Some i => set_prop h "id" (PStr i) d1
                | None => d1
                end in
      let '(ks, h', d3) :=
        (fix go (l : list html) (h : nid) (d : dom) : list tree * nid * dom :=
           match l with
           | [] => ([], h, d)
           | y :: l' =>
               let '(t, h', d') := install y h d in
               let '(ts, h'', d'') := go l' h' d' in
               (t :: ts, h'', d'')
           end) body (S h) d2 in
      (Node h ks, h', d3)
  end.

Definition install_all (l : list html) (h : nid) (d : dom) : list tree * nid * dom :=
  (fix go (l : list html) (h : nid) (d : dom) : list tree * nid * dom :=
     match l with
     | [] => ([], h, d)
     | y :: l' =>
         let '(t, h', d') := install y h d in
         let '(ts, h'', d'') := go l' h' d' in
         (t :: ts, h'', d'')
     end) l h d.

(** ** Functions and option records *)

(** How a call ends. *)
Inductive completion := Returned (v : prim) | Thrown (e : prim).

(** The argument a page function is called with. *)
Inductive carg := CNone | CWrites (w : list prim) | CNode (n : nid).

(** What the code of the page can change when the loader calls it: the
    capture buffer (the array is handed to [loaded], and [document.write] is
    intercepted while a load is in progress) and the element tree, whose
    nodes it may edit and move. *)
Record world := { w_writes : option (list prim); w_dom : dom }.

(** A function of the page: [this] (when it is a node), the argument, and
    the effect. *)
Definition jsfun := option nid -> carg -> world -> world * completion.

Inductive value :=
| VPrim (p : prim)
| VNode (n : nid)
| VFun (f : jsfun).

Definition truthyV (v : value) : bool :=
  match v with VPrim p => truthy p | _ => true end.

(** The primitive a value is stored or concatenated as. *)
Definition prim_of (v : value) : prim :=
  match v with
  | VPrim p => p
  | VNode _ => PObj "[object HTMLElement]"
  | VFun _ => PObj "function () { [code] }"
  end.

Definition toStringV (v : value) : string := toString (prim_of v).

Definition is_nullishV (v : value) : bool :=
  match v with VPrim p => is_nullish p | _ => false end.

(** [o.name] on an options object. *)
Definition prop (o : gmap string value) (name : string) : value :=
  default (VPrim PUndef) (o !! name).

Definition TypeError : prim := PObj "TypeError".

(** ** State of the module and of the page *)

(** The functions that can be bound to [document.write]/[writeln]. *)
Inductive writer :=
| Native (ln : bool)       (* the host's own write (false) or writeln (true) *)
| TempDocWrite
| TempDocWriteln.

(** The continuation [loadScript] is given. *)
Inductive endfn :=
| EndDrain       (* the one of loadAndYieldNext *)
| EndImmediate.  (* the one of script() after the document is ready *)

(** The closure installed as [onload] and [onreadystatechange] of a created
    script element. *)
Record closure := {
  c_opts : gmap string value;
  c_end : option endfn;
  c_done : bool;
  c_onload : bool;                (* $script.onload still is the closure *)
  c_onreadystatechange : bool     (* $script.onreadystatechange still is *)
}.

(** Ghost record of what the loader did. *)
Inductive event :=
| EvLoadScript (o : gmap string value) (endF : option endfn)
    (* loadScript(o, endF) entered *)
| EvHandler (n : nid)
    (* the body of the load handler of element n entered *)
| EvLoaded (o : gmap string value) (a : option (list prim))
    (* o.loaded called with the fragments a *)
| EvComplete (o : gmap string value)
    (* o.complete called *)
| EvEnd (o : gmap string value) (k : endfn).
    (* loadScript(o, k) called its endFunction k *)

Record state := {
  writes : option (list prim);  (* the capture buffer; None is null *)
  docWrite : option writer;  (* saved document.write; None is null *)
  docWriteln : option writer;  (* saved document.writeln *)
  scripts : option (list (gmap string value));  (* the worklist variable; None once drained *)
  _scripts : list (gmap string value);  (* the array captured by loadAllScripts *)
  next : nat;  (* the next property of that array *)
  DOMContentLoaded : bool;  (* true while the variable holds the ready handler *)
  uid : nat;  (* counter of _generateId *)
  defaults : gmap string value;  (* script.defaults *)
  doc_write : writer;  (* document.write *)
  doc_writeln : writer;  (* document.writeln *)
  page : dom;  (* the element tree *)
  fresh : nid;  (* the handle the next created node gets *)
  output : list string;  (* what the native write entry points received *)
  listening : bool;  (* the DOMContentLoaded listener is registered *)
  handlers : gmap nid closure;  (* load handlers of the created script elements *)
  trace : list event  (* ghost: what the loader did, in order *)
}.

Definition set_writes (v : option (list prim)) (s : state) : state :=
  {| writes := v; docWrite := docWrite s; docWriteln := docWriteln s;
     scripts := scripts s; _scripts := _scripts s; next := next s;
     DOMContentLoaded := DOMContentLoaded s; uid := uid s;
     defaults := defaults s; doc_write := doc_write s;
     doc_writeln := doc_writeln s; page := page s; fresh := fresh s;
     output := output s; listening := listening s; handlers := handlers s;
     trace := trace s |}.
Definition set_docWrite (v : option writer) (s : state) : state :=
  {| writes := writes s; docWrite := v; docWriteln := docWriteln s;
     scripts := scripts s; _scripts := _scripts s; next := next s;
     DOMContentLoaded := DOMContentLoaded s; uid := uid s;
     defaults := defaults s; doc_write := doc_write s;
     doc_writeln := doc_writeln s; page := page s; fresh := fresh s;
     output := output s; listening := listening s; handlers := handlers s;
     trace := trace s |}.
Definition set_docWriteln (v : option writer) (s : state) : state :=
  {| writes := writes s; docWrite := docWrite s; docWriteln := v;
     scripts := scripts s; _scripts := _scripts s; next := next s;
     DOMContentLoaded := DOMContentLoaded s; uid := uid s;
     defaults := defaults s; doc_write := doc_write s;
     doc_writeln := doc_writeln s; page := page s; fresh := fresh s;
     output := output s; listening := listening s; handlers := handlers s;
     trace := trace s |}.
Definition set_scripts (v : option (list (gmap string value))) (s : state) : state :=
  {| writes := writes s; docWrite := docWrite s; docWriteln := docWriteln s;
     scripts := v; _scripts := _scripts s; next := next s;
     DOMContentLoaded := DOMContentLoaded s; uid := uid s;
     defaults := defaults s; doc_write := doc_write s;
     doc_writeln := doc_writeln s; page := page s; fresh := fresh s;
     output := output s; listening := listening s; handlers := handlers s;
     trace := trace s |}.
Definition set_array (v : list (gmap string value)) (s : state) : state :=
  {| writes := writes s; docWrite := docWrite s; docWriteln := docWriteln s;
     scripts := scripts s; _scripts := v; next := next s;
     DOMContentLoaded := DOMContentLoaded s; uid := uid s;
     defaults := defaults s; doc_write := doc_write s;
     doc_writeln := doc_writeln s; page := page s; fresh := fresh s;
     output := output s; listening := listening s; handlers := handlers s;
     trace := trace s |}.
Definition set_next (v : nat) (s : state) : state :=
  {| writes := writes s; docWrite := docWrite s; docWriteln := docWriteln s;
     scripts := scripts s; _scripts := _scripts s; next := v;
     DOMContentLoaded := DOMContentLoaded s; uid := uid s;
     defaults := defaults s; doc_write := doc_write s;
     doc_writeln := doc_writeln s; page := page s; fresh := fresh s;
     output := output s; listening := listening s; handlers := handlers s;
     trace := trace s |}.
Definition set_DOMContentLoaded (v : bool) (s : state) : state :=
  {| writes := writes s; docWrite := docWrite s; docWriteln := docWriteln s;
     scripts := scripts s; _scripts := _scripts s; next := next s;
     DOMContentLoaded := v; uid := uid s; defaults := defaults s;
     doc_write := doc_write s; doc_writeln := doc_writeln s; page := page s;
     fresh := fresh s; output := output s; listening := listening s;
     handlers := handlers s; trace := trace s |}.
Definition set_uid (v : nat) (s : state) : state :=
  {| writes := writes s; docWrite := docWrite s; docWriteln := docWriteln s;
     scripts := scripts s; _scripts := _scripts s; next := next s;
     DOMContentLoaded := DOMContentLoaded s; uid := v;
     defaults := defaults s; doc_write := doc_write s;
     doc_writeln := doc_writeln s; page := page s; fresh := fresh s;
     output := output s; listening := listening s; handlers := handlers s;
     trace := trace s |}.
Definition set_defaults (v : gmap string value) (s : state) : state :=
  {| writes := writes s; docWrite := docWrite s; docWriteln := docWriteln s;
     scripts := scripts s; _scripts := _scripts s; next := next s;
     DOMContentLoaded := DOMContentLoaded s; uid := uid s; defaults := v;
     doc_write := doc_write s; doc_writeln := doc_writeln s; page := page s;
     fresh := fresh s; output := output s; listening := listening s;
     handlers := handlers s; trace := trace s |}.
Definition set_doc_write (v : writer) (s : state) : state :=
  {| writes := writes s; docWrite := docWrite s; docWriteln := docWriteln s;
     scripts := scripts s; _scripts := _scripts s; next := next s;
     DOMContentLoaded := DOMContentLoaded s; uid := uid s;
     defaults := defaults s; doc_write := v; doc_writeln := doc_writeln s;
     page := page s; fresh := fresh s; output := output s;
     listening := listening s; handlers := handlers s; trace := trace s |}.
Definition set_doc_writeln (v : writer) (s : state) : state :=
  {| writes := writes s; docWrite := docWrite s; docWriteln := docWriteln s;
     scripts := scripts s; _scripts := _scripts s; next := next s;
     DOMContentLoaded := DOMContentLoaded s; uid := uid s;
     defaults := defaults s; doc_write := doc_write s; doc_writeln := v;
     page := page s; fresh := fresh s; output := output s;
     listening := listening s; handlers := handlers s; trace := trace s |}.
Definition set_page (v : dom) (s : state) : state :=
  {| writes := writes s; docWrite := docWrite s; docWriteln := docWriteln s;
     scripts := scripts s; _scripts := _scripts s; next := next s;
     DOMContentLoaded := DOMContentLoaded s; uid := uid s;
     defaults := defaults s; doc_write := doc_write s;
     doc_writeln := doc_writeln s; page := v; fresh := fresh s;
     output := output s; listening := listening s; handlers := handlers s;
     trace := trace s |}.
Definition set_fresh (v : nid) (s : state) : state :=
  {| writes := writes s; docWrite := docWrite s; docWriteln := docWriteln s;
     scripts := scripts s; _scripts := _scripts s; next := next s;
     DOMContentLoaded := DOMContentLoaded s; uid := uid s;
     defaults := defaults s; doc_write := doc_write s;
     doc_writeln := doc_writeln s; page := page s; fresh := v;
     output := output s; listening := listening s; handlers := handlers s;
     trace := trace s |}.
Definition set_output (v : list string) (s : state) : state :=
  {| writes := writes s; docWrite := docWrite s; docWriteln := docWriteln s;
     scripts := scripts s; _scripts := _scripts s; next := next s;
     DOMContentLoaded := DOMContentLoaded s; uid := uid s;
     defaults := defaults s; doc_write := doc_write s;
     doc_writeln := doc_writeln s; page := page s; fresh := fresh s;
     output := v; listening := listening s; handlers := handlers s;
     trace := trace s |}.
Definition set_listening (v : bool) (s : state) : state :=
  {| writes := writes s; docWrite := docWrite s; docWriteln := docWriteln s;
     scripts := scripts s; _scripts := _scripts s; next := next s;
     DOMContentLoaded := DOMContentLoaded s; uid := uid s;
     defaults := defaults s; doc_write := doc_write s;
     doc_writeln := doc_writeln s; page := page s; fresh := fresh s;
     output := output s; listening := v; handlers := handlers s;
     trace := trace s |}.
Definition set_handlers (v : gmap nid closure) (s : state) : state :=
  {| writes := writes s; docWrite := docWrite s; docWriteln := docWriteln s;
     scripts := scripts s; _scripts := _scripts s; next := next s;
     DOMContentLoaded := DOMContentLoaded s; uid := uid s;
     defaults := defaults s; doc_write := doc_write s;
     doc_writeln := doc_writeln s; page := page s; fresh := fresh s;
     output := output s; listening := listening s; handlers := v;
     trace := trace s |}.
Definition set_trace (v : list event) (s : state) : state :=
  {| writes := writes s; docWrite := docWrite s; docWriteln := docWriteln s;
     scripts := scripts s; _scripts := _scripts s; next := next s;
     DOMContentLoaded := DOMContentLoaded s; uid := uid s;
     defaults := defaults s; doc_write := doc_write s;
     doc_writeln := doc_writeln s; page := page s; fresh := fresh s;
     output := output s; listening := listening s; handlers := handlers s;
     trace := v |}.

(** ** Completions *)

(** The result of running a piece of the loader: normal completion with a
    value, a thrown exception, or a computation that used up its iteration
    budget ([Gas]: it is still running, in the state given).  The budgets of
    the model are chosen so that [Gas] stands for a loop of the source that
    does not end. *)
Inductive res (A : Type) :=
| Ok (a : A) (s : state)
| Err (e : prim) (s : state)
| Gas (s : state).
Arguments Ok {A} a s.
Arguments Err {A} e s.
Arguments Gas {A} s.

(** The state a run ends in. *)
Definition final {A} (r : res A) : state :=
  match r with Ok _ s | Err _ s | Gas s => s end.

Definition M (A : Type) := state -> res A.

Definition ret {A} (a : A) : M A := fun s => Ok a s.
Definition throw {A} (e : prim) : M A := fun s => Err e s.
Definition bind {A B} (c : M A) (k : A -> M B) : M B :=
  fun s => match c s with
           | Ok a s' => k a s'
           | Err e s' => Err e s'
           | Gas s' => Gas s'
           end.
Definition gets {A} (f : state -> A) : M A := fun s => Ok (f s) s.
Definition modify (f : state -> state) : M unit := fun s => Ok tt (f s).

Notation "'do' x <- c 'in' k" := (bind c (fun x => k))
  (at level 10, x name, c at level 100, k at level 200).
Notation "c >> k" := (bind c (fun _ => k))
  (at level 100, k at level 200, right associativity).

(** [try { body } finally { fin }]: [fin] runs on both exits; an exception
    of [fin] replaces the completion of [body]. *)
Definition try_finally {A} (body : M A) (fin : M unit) : M A :=
  fun s => match body s with
           | Ok a s1 =>
               match fin s1 with
               | Ok _ s2 => Ok a s2
               | Err e s2 => Err e s2
               | Gas s2 => Gas s2
               end
           | Err e s1 =>
               match fin s1 with
               | Ok _ s2 => Err e s2
               | Err e' s2 => Err e' s2
               | Gas s2 => Gas s2
               end
           | Gas s1 => Gas s1
           end.

Definition when (b : bool) (c : M unit) : M unit := if b then c else ret tt.

Definition log (e : event) : M unit :=
  modify (fun s => set_trace (trace s ++ [e]) s).

Definition on_page (f : dom -> dom) : M unit :=
  modify (fun s => set_page (f (page s)) s).

(** ** The write interceptor (lines 85-110) *)

Definition newline : string := String "010"%char "".

(** [tempDocWrite]: [arguments[0]] is pushed when it is truthy. *)
Definition tempDocWrite (args : list prim) : M unit :=
  let a0 := default PUndef (args !! 0%nat) in
  if truthy a0 then
    modify (fun s => set_writes (Some (default [] (writes s) ++ [a0])) s)
  else ret tt.

(** [tempDocWriteln(str)]: [tempDocWrite(str + '\n')]. *)
Definition tempDocWriteln (args : list prim) : M unit :=
  let str := default PUndef (args !! 0%nat) in
  tempDocWrite [PStr (toString str +:+ newline)].

Definition overrideDocWrites : M unit :=
  modify (fun s =>
    let s := match docWrite s with
             | Some _ => s
             | None => set_docWrite (Some (doc_write s)) s
             end in
    let s := match docWriteln s with
             | Some _ => s
             | None => set_docWriteln (Some (doc_writeln s)) s
             end in
    set_doc_writeln TempDocWriteln (set_doc_write TempDocWrite s)).

Definition restoreDocWrites : M unit :=
  modify (fun s =>
    let s := match docWrite s with Some w => set_doc_write w s | None => s end in
    let s := match docWriteln s with Some w => set_doc_writeln w s | None => s end in
    set_docWriteln None (set_docWrite None s)).

(** Calling whatever is bound to a write entry point.  The host's own
    functions send the concatenated arguments to the parser. *)
Definition call_writer (w : writer) (args : list prim) : M unit :=
  match w with
  | Native ln =>
      modify (fun s =>
        set_output (output s ++
          [foldr (fun p acc => toString p +:+ acc) (if ln then newline else "") args]) s)
  | TempDocWrite => tempDocWrite args
  | TempDocWriteln => tempDocWriteln args
  end.

(** ** The single-load executor (lines 113-191) *)

(** Call a value as a function. *)
Definition call_value (f : value) (this : option nid) (a : carg) : M prim :=
  fun s =>
    match f with
    | VFun g =>
        let '(w, c) := g this a {| w_writes := writes s; w_dom := page s |} in
        let s' := set_page (w_dom w) (set_writes (w_writes w) s) in
        match c with
        | Returned v => Ok v s'
        | Thrown e => Err e s'
        end
    | _ => Err TypeError s
    end.

(** [document.createElement(tag)] with the next handle. *)
Definition new_element (tag : string) : M nid := fun s =>
  let h := fresh s in
  Ok h (set_fresh (S h) (set_page (createElement tag h (page s)) s)).

Section Host.

(** The host's HTML parser, used by the [innerHTML] setter. *)
Variable parseHTML : string -> list html.

(** The host's conversion of a string to an integer ([ToIntegerOrInfinity]
    of a string, as [splice] applies it). *)
Variable stringToInteger : string -> Z.

(** [div.innerHTML = text]: the old children are dropped, the parsed nodes
    become the children. *)
Definition set_innerHTML (h : nid) (text : string) : M unit := fun s =>
  let d := page s in
  let old := children (subtree_dom h d) in
  let '(ks, h', d1) := install_all (parseHTML text) (fresh s) d in
  let d2 := map_trees (replace_kids h ks) d1 in
  Ok tt (set_fresh h' (set_page (set_detached (detached d2 ++ old) d2) s)).

(** [appendNode] of [handleScriptLoaded]: the node goes right after the
    script element; [$script.parentNode] must exist. *)
Definition appendNode (script node : nid) : M unit :=
  do p <- gets (fun s => parentNode script (page s)) in
  match p with
  | None => throw TypeError
  | Some _ => on_page (insertAfter node script)
  end.

(** The [while ($divNode)] loop: the first child is re-read after each
    move.  [budget] bounds the iterations: every iteration takes one child
    out of [div], so the number of children is enough in a tree where the
    script element is not below [div]. *)
Fixpoint moveChildren (budget : nat) (script div : nid) : M unit :=
  do k <- gets (fun s => firstChild div (page s)) in
  match k with
  | None => ret tt
  | Some node =>
      match budget with
      | O => Gas
      | S b =>
          on_page (removeChild node) >>
          appendNode script node >>
          moveChildren b script div
      end
  end.

Definition handleScriptLoaded (opts : gmap string value) (script : nid) : M unit :=
  let loadedCallback := prop opts "loaded" in
  let completeCallback := prop opts "complete" in
  do veto <-
    (if truthyV loadedCallback then
       do w <- gets writes in
       log (EvLoaded opts w) >>
       do loadedReturn <-
         call_value loadedCallback (Some script)
           (match w with Some l => CWrites l | None => CNone end) in
       ret (prim_eqb loadedReturn (PBool false))
     else ret false) in
  if veto : bool then ret tt
  else
    do div0 <- gets (fun s => getElementById (toStringV (prop opts "id")) (page s)) in
    do w <- gets writes in
    do div <-
      match w with
      | Some l =>
          do div <-
            match div0 with
            | Some d => ret d
            | None =>
                do d <- new_element "div" in
                appendNode script d >>
                ret d
            end in
          on_page (set_prop div "style.display" (PStr "none")) >>
          set_innerHTML div (join l) >>
          do n <- gets (fun s => length (children (subtree_dom div (page s)))) in
          moveChildren n script div >>
          ret (Some div)
      | None => ret div0
      end in
    match div with
    | Some d =>
        do p <- gets (fun s => parentNode d (page s)) in
        match p with
        | None => throw TypeError
        | Some _ => on_page (removeChild d)
        end
    | None => ret tt
    end >>
    when (truthyV completeCallback)
      (log (EvComplete opts) >>
       do _ <- call_value completeCallback (Some script) CNone in ret tt).


(** [endFunction && endFunction()], as [loadScript] does for [opts]. *)
Definition call_end (run : endfn -> M unit) (opts : gmap string value)
    (endFunction : option endfn) : M unit :=
  match endFunction with
  | Some k => log (EvEnd opts k) >> run k
  | None => ret tt
  end.

(** The two continuations [loadScript] is called with (lines 216-219 and
    345-348).  [yn] is [_scripts.yieldNext(loadAndYieldNext)]. *)
Definition endFunction (yn : M bool) (k : endfn) : M unit :=
  restoreDocWrites >>
  modify (set_writes None) >>
  match k with
  | EndDrain => do _ <- yn in ret tt
  | EndImmediate => ret tt
  end.

Definition set_done (c : closure) : closure :=
  {| c_opts := c_opts c; c_end := c_end c; c_done := true;
     c_onload := false; c_onreadystatechange := false |}.

(** [this.readyState] lets the handler through. *)
Definition ready (readyState : prim) : bool :=
  negb (truthy readyState)
  || prim_eqb readyState (PStr "loaded")
  || prim_eqb readyState (PStr "complete").

(** The function bound to [$script.onload] and [$script.onreadystatechange]
    (lines 163-175), called on element [n] whose [readyState] is as given. *)
Definition loadHandler (yn : M bool) (n : nid) (readyState : prim) : M unit :=
  do c <- gets (fun s => handlers s !! n) in
  match c with
  | None => ret tt
  | Some c =>
      if negb (c_done c) && ready readyState then
        modify (fun s => set_handlers (<[n := set_done c]> (handlers s)) s) >>
        log (EvHandler n) >>
        try_finally (handleScriptLoaded (c_opts c) n)
                    (call_end (endFunction yn) (c_opts c) (c_end c))
      else ret tt
  end.

(** Lines 182-184: both callbacks, on the element the page already has. *)
Definition callbacks (opts : gmap string value) (script : option nid) : M unit :=
  let loadedCallback := prop opts "loaded" in
  let completeCallback := prop opts "complete" in
  when (truthyV loadedCallback)
    (log (EvLoaded opts None) >>
     do _ <- call_value loadedCallback script CNone in ret tt) >>
  when (truthyV completeCallback)
    (log (EvComplete opts) >>
     do _ <- call_value completeCallback script CNone in ret tt).

(** Lines 187-188: [$script.id = null; endFunction && endFunction()]. *)
Definition cleanup (yn : M bool) (opts : gmap string value)
    (endF : option endfn) (script : option nid) : M unit :=
  match script with
  | Some n => on_page (set_prop n "id" PNull)
  | None => throw TypeError
  end >>
  call_end (endFunction yn) opts endF.

Definition loadScript (yn : M bool) (opts : gmap string value)
    (endF : option endfn) : M unit :=
  log (EvLoadScript opts endF) >>
  if truthyV (prop opts "defer") then
    do script <- new_element "script" in
    on_page (set_prop script "src" (prim_of (prop opts "src"))) >>
    when (truthyV (prop opts "type"))
      (on_page (set_prop script "type" (prim_of (prop opts "type")))) >>
    when (truthyV (prop opts "charset"))
      (on_page (set_prop script "charset" (prim_of (prop opts "charset")))) >>
    modify (fun s => set_handlers
      (<[script := {| c_opts := opts; c_end := endF; c_done := false;
                      c_onload := true; c_onreadystatechange := true |}]>
         (handlers s)) s) >>
    do _ <- call_value (prop opts "append") None (CNode script) in
    ret tt
  else
    do script <- gets (fun s => getElementById (toStringV (prop opts "id")) (page s)) in
    try_finally (callbacks opts script) (cleanup yn opts endF script).

(** ** The sequential scheduler (lines 194-222) *)

Definition loadAndYieldNext (yn : M bool) (opts : gmap string value) : M unit :=
  overrideDocWrites >>
  loadScript yn opts (Some EndDrain).

(** [_scripts.yieldNext(loadAndYieldNext)].  The recursion goes through the
    continuation of a synchronous load; [fuel] bounds its depth, and one more
    than the number of requests left is enough: all such budgets give the
    same run ([yieldNext_fuel]). *)
Fixpoint yieldNext (fuel : nat) : M bool :=
  match fuel with
  | O => Gas
  | S fuel' =>
      do n <- gets next in
      modify (set_next (S n)) >>
      do nextElem <- gets (fun s => _scripts s !! n) in
      match nextElem with
      | Some opts => loadAndYieldNext (yieldNext fuel') opts >> ret true
      | None => ret false
      end
  end.

(** The recursion budget that is always enough. *)
Definition depth (s : state) : nat := S (length (_scripts s)).

Definition loadAllScripts : M unit :=
  do l <- gets scripts in
  match l with
  | None => ret tt
  | Some l =>
      modify (fun s => set_scripts None (set_array l s)) >>
      do _ <- yieldNext (S (length l)) in
      ret tt
  end.

(** ** Life-cycle gate (lines 224-234, the [addEventListener] branch) *)

(** The [DOMContentLoaded] listener. *)
Definition onDOMContentLoaded : M unit :=
  modify (set_listening false) >>
  modify (set_DOMContentLoaded false) >>
  loadAllScripts.

(** [load], the [window.onload] fallback. *)
Definition load : M unit :=
  do armed <- gets DOMContentLoaded in
  if armed : bool then modify (set_DOMContentLoaded false) >> loadAllScripts
  else ret tt.

(** ** The request builder: [script(args)] (lines 264-352) *)

(** What [script] can be called with: nothing or a primitive (a string in
    particular), or an options object. *)
Inductive argument :=
| ArgPrim (p : prim)
| ArgObj (o : gmap string value).

Definition dquote : string := String "034"%char EmptyString.

Definition no_arguments : prim := PStr "script : no arguments given".
Definition src_required : prim := PStr "script : 'src' is required".

(** Lines 265-269: the argument check; gives the options object. *)
Definition checkArgs (args : argument) : M (gmap string value) :=
  match args with
  | ArgPrim p =>
      if negb (truthy p) then throw no_arguments
      else match p with
           | PStr s => ret {[ "src" := VPrim (PStr s) ]}
           | _ => throw src_required
           end
  | ArgObj o =>
      if negb (truthyV (prop o "src")) then throw src_required
      else ret o
  end.

(** [base[last] == '/' ? base.substring(0, last) : base] *)
Definition stripSlash (base : string) : string :=
  let last := (String.length base - 1)%nat in
  match String.get last base with
  | Some "/"%char => String.substring 0 last base
  | _ => base
  end.

(** Lines 275-279: a relative [src] is completed with [base]. *)
Definition completeSrc (opts : gmap string value) : M (gmap string value) :=
  if truthyV (prop opts "base") then
    match prop opts "src" with
    | VPrim (PStr src) =>
        if negb (String.eqb (String.substring 0 4 src) "http") then
          let base := match prop opts "base" with
                      | VPrim (PStr b) => stripSlash b
                      | v => toStringV v
                      end in
          ret (<["src" := VPrim (PStr (base +:+ "/" +:+ src))]> opts)
        else ret opts
    | _ => throw TypeError     (* no [substring] on a non-string *)
    end
  else ret opts.

(** Lines 284-295: the deprecated [onload] option. *)
Definition normalizeOnload (args opts : gmap string value) : gmap string value :=
  if negb (is_nullishV (prop opts "onload")) then
    let onLoad :=
      if negb (is_nullishV (prop opts "onLoad")) then
        if negb (is_nullishV (prop args "onload")) then prop args "onload"
        else if negb (is_nullishV (prop args "onLoad")) then prop args "onLoad"
        else prop opts "onload"
      else prop opts "onload" in
    delete "onload" (<["onLoad" := onLoad]> opts)
  else opts.

(** Line 296. *)
Definition defaultDefer (opts : gmap string value) : gmap string value :=
  match prop opts "defer" with
  | VPrim PUndef => <["defer" := prop opts "onLoad"]> opts
  | _ => opts
  end.

(** [script._generateId] (lines 354-357). *)
Definition _generateId : M value :=
  do n <- gets uid in
  modify (set_uid (S n)) >>
  ret (VPrim (PStr ("_script-" +:+ pretty n))).

Definition keep (w : world) (d : dom) : world :=
  {| w_writes := w_writes w; w_dom := d |}.

(** Line 302-305: append into the element with the given id. *)
Definition appendById (a : string) : jsfun := fun _ arg w =>
  match arg, getElementById a (w_dom w) with
  | CNode script, Some p => (keep w (appendChild p script (w_dom w)), Returned PUndef)
  | _, _ => (w, Thrown TypeError)
  end.

(** Lines 308-310: append into the given node. *)
Definition appendTo (p : nid) : jsfun := fun _ arg w =>
  match arg with
  | CNode script => (keep w (appendChild p script (w_dom w)), Returned PUndef)
  | _ => (w, Thrown TypeError)
  end.

(** Lines 322-325: put the script element before the placeholder. *)
Definition beforePlaceholder (id : value) : jsfun := fun _ arg w =>
  match arg, getElementById (toStringV id) (w_dom w) with
  | CNode script, Some div =>
      match parentNode div (w_dom w) with
      | Some _ => (keep w (insertBefore script div (w_dom w)), Returned PUndef)
      | None => (w, Thrown TypeError)
      end
  | _, _ => (w, Thrown TypeError)
  end.

(** Lines 339-342: append to the body. *)
Definition appendToBody : jsfun := fun _ arg w =>
  match arg, firstByTagName "body" (w_dom w) with
  | CNode script, Some body => (keep w (appendChild body script (w_dom w)), Returned PUndef)
  | _, _ => (w, Thrown TypeError)
  end.

(** Lines 300-311. *)
Definition normalizeAppend (opts : gmap string value) : gmap string value :=
  match prop opts "append" with
  | VPrim (PStr a) => <["append" := VFun (appendById a)]> opts
  | VNode p => <["append" := VFun (appendTo p)]> opts
  | _ => opts
  end.

(** The markup written in place of a request made while the document is
    being built (lines 315-330). *)
Definition placeholderMarkup (opts : gmap string value) : string :=
  if truthyV (prop opts "defer") then
    "<div id=" +:+ dquote +:+ toStringV (prop opts "id") +:+ dquote +:+
    (if truthyV (prop opts "loadingHTML")
     then ">" +:+ toStringV (prop opts "loadingHTML")
     else " style=" +:+ dquote +:+ "diplay: none;" +:+ dquote +:+ ">") +:+
    "</div>"
  else
    "<script id=" +:+ dquote +:+ toStringV (prop opts "id") +:+ dquote +:+
    " src=" +:+ dquote +:+ toStringV (prop opts "src") +:+ dquote +:+
    "></script>".

(** [ToIntegerOrInfinity], as [splice] applies it to its first argument. *)
Definition toInteger (v : value) : Z :=
  match v with
  | VPrim (PNum z) => z
  | VPrim (PBool true) => 1
  | VPrim (PStr s) => stringToInteger s
  | _ => 0
  end.

(** [a.splice(start, 0, x)]. *)
Definition splice_in {A} (start : Z) (x : A) (a : list A) : list A :=
  let len := Z.of_nat (length a) in
  let k := Z.to_nat (if start <? 0 then Z.max (len + start) 0 else Z.min start len) in
  take k a ++ x :: drop k a.

(** Lines 332-334. *)
Definition enqueue (opts : gmap string value) (a : list (gmap string value)) :
    list (gmap string value) :=
  let order := prop opts "order" in
  if is_nullishV order then a ++ [opts]
  else splice_in (toInteger order) opts a.

(** Lines 321-326: a deferred request with no [append] gets the one that
    puts the script element before the placeholder. *)
Definition placeholderAppend (opts : gmap string value) : gmap string value :=
  if truthyV (prop opts "defer") && negb (truthyV (prop opts "append"))
  then <["append" := VFun (beforePlaceholder (prop opts "id"))]> opts
  else opts.

(** Lines 265-311: from the argument to the options of the request. *)
Definition prepare (args : argument) : M (gmap string value) :=
  do args <- checkArgs args in
  do defs <- gets defaults in
  let opts := args ∪ defs in
  do opts <- completeSrc opts in
  let opts := normalizeOnload args opts in
  let opts := defaultDefer opts in
  do opts <- (if truthyV (prop opts "id") then ret opts
              else do i <- _generateId in ret (<["id" := i]> opts)) in
  ret (normalizeAppend opts).

(** Lines 314-349: the request is queued while the document is being built
    and loaded at once afterwards. *)
Definition submit (yn : M bool) (opts : gmap string value) : M unit :=
  do building <- gets DOMContentLoaded in
  if building : bool then
    let content := placeholderMarkup opts in
    let opts := placeholderAppend opts in
    do w <- gets doc_write in
    call_writer w [PStr content] >>
    do l <- gets scripts in
    match l with
    | None => throw TypeError
    | Some l => modify (set_scripts (Some (enqueue opts l)))
    end
  else
    let opts := <["defer" := VPrim (PBool true)]> opts in
    let opts :=
      if negb (truthyV (prop opts "append"))
      then <["append" := VFun appendToBody]> opts
      else opts in
    overrideDocWrites >>
    loadScript yn opts (Some EndImmediate).

Definition script (yn : M bool) (args : argument) : M unit :=
  do opts <- prepare args in
  submit yn opts.

(** ** The page as a machine *)

Inductive signal := OnLoad | OnReadyStateChange.

(** What the host does to the loader. *)
Inductive host_event :=
| Call (a : argument)                              (* the page calls script(a) *)
| DocumentReady                                    (* DOMContentLoaded fires *)
| WindowLoad                                       (* the load event of window *)
| Signal (n : nid) (via : signal) (readyState : prim) (* a script element reports *)
| DocWrite (args : list prim)                      (* document.write(...) is called *)
| DocWriteln (args : list prim).                   (* document.writeln(...) *)

Definition bound (via : signal) (c : closure) : bool :=
  match via with
  | OnLoad => c_onload c
  | OnReadyStateChange => c_onreadystatechange c
  end.

Definition dispatch (e : host_event) : M unit := fun s =>
  match e with
  | Call a => script (yieldNext (depth s)) a s
  | DocumentReady => if listening s then onDOMContentLoaded s else Ok tt s
  | WindowLoad => load s
  | Signal n via readyState =>
      match handlers s !! n with
      | Some c =>
          if bound via c then loadHandler (yieldNext (depth s)) n readyState s
          else Ok tt s
      | None => Ok tt s
      end
  | DocWrite args => call_writer (doc_write s) args s
  | DocWriteln args => call_writer (doc_writeln s) args s
  end.

(** The events in turn.  An exception that reaches the host is reported and
    the page goes on; a handler that does not return hangs the page. *)
Fixpoint run (evs : list host_event) (s : state) : res unit :=
  match evs with
  | [] => Ok tt s
  | e :: evs' =>
      match dispatch e s with
      | Ok _ s' => run evs' s'
      | Err _ s' => run evs' s'
      | Gas s' => Gas s'
      end
  end.

End Host.

(** The module just evaluated, in a page whose write entry points are [w]
    and [wl], whose tree is [d] and whose next node handle is [h]. *)
Definition init (w wl : writer) (d : dom) (h : nid) : state :=
  {| writes := None; docWrite := None; docWriteln := None;
     scripts := Some []; _scripts := []; next := 0;
     DOMContentLoaded := true; uid := 0;
     defaults := {[ "type" := VPrim (PStr "text/javascript") ]};
     doc_write := w; doc_writeln := wl; page := d; fresh := h; output := [];
     listening := true; handlers := ∅; trace := [] |}.

(** ** Reading the ghost record *)

(** The events of the loads the scheduler makes. *)
Definition is_drain (e : event) : bool :=
  match e with
  | EvLoadScript _ (Some EndDrain) | EvEnd _ EndDrain => true
  | _ => false
  end.

Definition drain_events (t : list event) : list event := List.filter is_drain t.

(** What the scheduler does for a worklist when every load completes: each
    request is loaded, and ends, before the next is loaded. *)
Definition in_turn (ws : list (gmap string value)) : list event :=
  flat_map (fun o => [EvLoadScript o (Some EndDrain); EvEnd o EndDrain]) ws.

(** Every load of the scheduler but the first comes right after the end of
    another one. *)
Definition chained (t : list event) : Prop :=
  forall pre post o,
    t = pre ++ EvLoadScript o (Some EndDrain) :: post ->
    drain_events pre = [] \/ exists pre' o', pre = pre' ++ [EvEnd o' EndDrain].

Definition is_run (n : nid) (e : event) : bool :=
  match e with
  | EvHandler m => Nat.eqb m n
  | _ => false
  end.

(** How often the body of the load handler of element [n] ran. *)
Definition runs (n : nid) (t : list event) : nat :=
  length (List.filter (is_run n) t).

Definition is_end (e : event) : bool :=
  match e with
  | EvEnd _ _ => true
  | _ => false
  end.

(** ** Assertions on runs of the loader *)

Definition is_drain_load (e : event) : bool :=
  match e with
  | EvLoadScript _ (Some EndDrain) => true
  | _ => false
  end.

(** The events that neither the scheduler nor a load handler leaves. *)
Definition quiet (e : event) : bool :=
  match e with
  | EvHandler _ => false
  | _ => negb (is_drain e)
  end.

(** [s'] is [s] after steps that leave the worklist and the handlers as
    they are. *)
Record agree (s s' : state) : Prop := {
  agree_array : _scripts s' = _scripts s;
  agree_next : next s' = next s;
  agree_scripts : scripts s' = scripts s;
  agree_handlers : handlers s' = handlers s;
  agree_fresh : (fresh s <= fresh s')%nat;
  agree_trace : exists t, trace s' = trace s ++ t /\ Forall (fun e => quiet e = true) t
}.

Definition framed {A} (c : M A) : Prop := forall s, agree s (final (c s)).

Definition same_queue (s s' : state) : Prop :=
  _scripts s' = _scripts s /\ next s' = next s /\ scripts s' = scripts s.

(** The closure [loadScript] installs. *)
Definition fresh_closure (o : gmap string value) (endF : option endfn) : closure :=
  {| c_opts := o; c_end := endF; c_done := false;
     c_onload := true; c_onreadystatechange := true |}.

(** The state in which the body of the handler of [n] begins. *)
Definition entered (n : nid) (c : closure) (s : state) : state :=
  set_trace (trace s ++ [EvHandler n])
    (set_handlers (<[n := set_done c]> (handlers s)) s).

(** The page after [restoreDocWrites(); writes = null]. *)
Definition restored (s : state) : state :=
  set_writes None (final (restoreDocWrites s)).

(** [c] leaves a worklist that has been handed to the scheduler as it is. *)
Definition still {A} (c : M A) : Prop :=
  forall s, scripts s = None ->
    scripts (final (c s)) = None /\ _scripts (final (c s)) = _scripts s.

(** [fuel] is enough for [yieldNext] in [s]. *)
Definition enough (fuel : nat) (s : state) : Prop :=
  (length (_scripts s) - next s < fuel)%nat.

(** The originals the interceptor keeps. *)
Definition saved (s : state) : option writer * option writer :=
  (docWrite s, docWriteln s).

Definition keeps_saved {A} (c : M A) : Prop :=
  forall s, saved (final (c s)) = saved s.

(** What a continuation does once the write entry points are restored. *)
Definition resume (yn : M bool) (k : endfn) : M unit :=
  match k with
  | EndDrain => do _ <- yn in ret tt
  | EndImmediate => ret tt
  end.

(** The completion of [try { throw e } finally { ... }] from the one of the
    [finally] block. *)
Definition after_throw (e : prim) (r : res unit) : res unit :=
  match r with
  | Ok _ s => Err e s
  | _ => r
  end.

Definition is_write (e : host_event) : bool :=
  match e with
  | DocWrite _ | DocWriteln _ => true
  | _ => false
  end.

Definition event_name (e : event) : string :=
  match e with
  | EvLoadScript _ _ => "loadScript"
  | EvHandler _ => "handler"
  | EvLoaded _ _ => "loaded"
  | EvComplete _ => "complete"
  | EvEnd _ _ => "endFunction"
  end.

(** Element [n] has a handler of the scheduler that has not run. *)
Definition live_drain (s : state) (n : nid) (c : closure) : Prop :=
  handlers s !! n = Some c /\ c_done c = false /\ c_end c = Some EndDrain.

(** Every load the scheduler began has ended, and the next request to load
    is the one at [next]. *)
Definition settled (s : state) : Prop :=
  drain_events (trace s) = in_turn (take (next s) (_scripts s))
  /\ (forall n c, ~ live_drain s n c).

(** The load of the request at [next - 1] has begun and not ended. *)
Definition in_flight (s : state) : Prop :=
  exists k o m,
    _scripts s !! k = Some o
    /\ next s = S k
    /\ drain_events (trace s)
       = in_turn (take k (_scripts s)) ++ [EvLoadScript o (Some EndDrain)]
    /\ (forall n c, live_drain s n c -> n = m /\ c_opts c = o).

Definition scheduled (s : state) : Prop :=
  (scripts s <> None -> _scripts s = [] /\ next s = 0%nat)
  /\ chained (trace s)
  /\ (settled s \/ in_flight s).

(** The handlers agree with the record of their runs, and sit on handles
    that have been given out. *)
Definition counted (s : state) : Prop :=
  (forall n, (fresh s <= n)%nat -> handlers s !! n = None)
  /\ (forall n,
        match handlers s !! n with
        | None => runs n (trace s) = 0%nat
        | Some c =>
            runs n (trace s) = (if c_done c then 1%nat else 0%nat)
            /\ (c_done c = false ->
                c_onload c = true /\ c_onreadystatechange c = true)
        end).

Definition extends (t0 : list event) (s : state) : Prop :=
  exists t, trace s = t0 ++ t.

(** The invariant of the page. *)
Definition Inv (t0 : list event) (s : state) : Prop :=
  counted s /\ scheduled s /\ extends t0 s.

(** The last event lets the scheduler load the next request. *)
Definition chain_ready (t : list event) : Prop :=
  drain_events t = [] \/ exists pre o, t = pre ++ [EvEnd o EndDrain].

(** Where [yieldNext] is called. *)
Definition Ready (t0 : list event) (s : state) : Prop :=
  counted s /\ scripts s = None /\ chained (trace s) /\ settled s
  /\ chain_ready (trace s) /\ extends t0 s.

(** Where the scheduler calls [loadScript] for the request at [n]. *)
Definition about_to_load (n : nat) (o : gmap string value) (s : state) : Prop :=
  _scripts s !! n = Some o
  /\ next s = S n
  /\ drain_events (trace s) = in_turn (take n (_scripts s))
  /\ (forall m c, ~ live_drain s m c)
  /\ chained (trace s)
  /\ chain_ready (trace s)
  /\ scripts s = None.

(** [yn] can stand for [yieldNext]. *)
Definition keeps_Inv (t0 : list event) (yn : M bool) : Prop :=
  forall s, Ready t0 s -> Inv t0 (final (yn s)).

(** ** What the specification calls a rejected call *)

(** No argument is supplied: [script()] and every call with a falsy value. *)
Definition not_supplied (a : argument) : bool :=
  match a with
  | ArgPrim p => negb (truthy p)
  | ArgObj _ => false
  end.

(** The argument is not a string and has no [src] to speak of. *)
Definition lacks_src (a : argument) : bool :=
  match a with
  | ArgPrim (PStr _) => false
  | ArgPrim _ => true
  | ArgObj o => negb (truthyV (prop o "src"))
  end.

Definition rejected (a : argument) : bool := not_supplied a || lacks_src a.

(** ** A small page, for examples *)

(** A parser that finds one text node in every non-empty text. *)
Definition parse_text (text : string) : list html :=
  if String.eqb text "" then [] else [HText text].

(** A host whose string-to-integer conversion gives 0. *)
Definition integer_zero (text : string) : Z := 0.

(** [<html><body></body></html>] *)
Definition page0 : dom :=
  {| document := Node 0%nat [Node 1%nat [Node 2%nat []]];
     detached := [];
     props := {[ 1%nat := {[ "tagName" := PStr "html" ]};
                 2%nat := {[ "tagName" := PStr "body" ]} ]} |}.

Definition start : state := init (Native false) (Native true) page0 3%nat.

(** The page once a load has begun: the write entry points are the
    capturing ones. *)
Definition intercepted : state :=
  set_doc_writeln TempDocWriteln (set_doc_write TempDocWrite
    (set_docWriteln (Some (Native true)) (set_docWrite (Some (Native false)) start))).

(** [<html><body><div id="_script-0"></div><div id="_script-1"></div></body></html>] *)
Definition page_placeholders : dom :=
  {| document := Node 0%nat [Node 1%nat [Node 2%nat [Node 3%nat []; Node 4%nat []]]];
     detached := [];
     props := {[ 1%nat := {[ "tagName" := PStr "html" ]};
                 2%nat := {[ "tagName" := PStr "body" ]};
                 3%nat := {[ "tagName" := PStr "div"; "id" := PStr "_script-0" ]};
                 4%nat := {[ "tagName" := PStr "div"; "id" := PStr "_script-1" ]} ]} |}.

Definition request_a : gmap string value :=
  {[ "src" := VPrim (PStr "a.js"); "defer" := VPrim (PBool true);
     "order" := VPrim (PNum 1) ]}.

Definition request_b : gmap string value :=
  {[ "src" := VPrim (PStr "b.js"); "defer" := VPrim (PBool true);
     "order" := VPrim (PNum 0) ]}.

Definition prepared (a : argument) (s : state) : gmap string value * state :=
  match prepare a s with
  | Ok o s' => (o, s')
  | _ => (∅, s)
  end.

Definition src_of (e : event) : string :=
  match e with
  | EvLoadScript o _ | EvLoaded o _ | EvComplete o | EvEnd o _ => toStringV (prop o "src")
  | EvHandler _ => ""
  end.

Definition begin_a : state := init (Native false) (Native true) page_placeholders 5%nat.

Definition after_a : state := final (run parse_text integer_zero [Call (ArgObj request_a)] begin_a).

(** A page function that returns [v] and touches nothing. *)
Definition returning (v : prim) : jsfun := fun _ _ w => (w, Returned v).

(** A page function that throws [e]. *)
Definition throwing (e : prim) : jsfun := fun _ _ w => (w, Thrown e).

(** A request whose [loaded] vetoes the replay. *)
Definition request_veto : gmap string value :=
  {[ "src" := VPrim (PStr "v.js");
     "loaded" := VFun (returning (PBool false));
     "complete" := VFun (returning PUndef) ]}.

(** The same request with a [loaded] that lets the replay go on. *)
Definition request_plain : gmap string value :=
  {[ "src" := VPrim (PStr "v.js");
     "loaded" := VFun (returning PUndef);
     "complete" := VFun (returning PUndef) ]}.

(** The page is ready, then the request is made, the script writes, and its
    element (handle 3) reports. *)
Definition veto_run (request : gmap string value) : list host_event :=
  [DocumentReady; Call (ArgObj request); DocWrite [PStr "<b>x</b>"];
   Signal 3%nat OnLoad PUndef].

Definition request_early : gmap string value :=
  {[ "src" := VPrim (PStr "e.js"); "defer" := VPrim (PBool true);
     "id" := VPrim (PStr "e"); "append" := VFun appendToBody ]}.



(** The page when the element of [request_veto] (handle 3) is about to
    report. *)
Definition veto_state : state :=
  final (run parse_text integer_zero
           [DocumentReady; Call (ArgObj request_veto); DocWrite [PStr "<b>x</b>"]]
           start).

(** The handler that element has. *)
Definition veto_closure : closure :=
  default (fresh_closure ∅ None) (handlers veto_state !! 3%nat).

(** A key is none of the listed ones. *)
Ltac not_listed :=
  repeat (apply not_elem_of_cons; split; [done|]); apply not_elem_of_nil.

(** ** More assertions on the page *)

(** [c] keeps the assertion [P]. *)
Definition keeps (P : state -> Prop) {A} (c : M A) : Prop :=
  forall s, P s -> P (final (c s)).

(** What the interceptor collects from one call of a write entry point. *)
Definition fragment (e : host_event) : list prim :=
  match e with
  | DocWrite args =>
      let a0 := default PUndef (args !! 0%nat) in
      if truthy a0 then [a0] else []
  | DocWriteln args =>
      [PStr (toString (default PUndef (args !! 0%nat)) +:+ newline)]
  | _ => []
  end.

(** What it collects from a sequence of calls. *)
Definition captured (ws : list host_event) : list prim := flat_map fragment ws.

(** The capture buffer with the fragments [c] pushed. *)
Definition pushed (c : list prim) (s : state) : state :=
  match c with
  | [] => s
  | _ => set_writes (Some (default [] (writes s) ++ c)) s
  end.

(** The page when [loadScript] calls [opts.append]: the script element is
    created and set up, and its load handler is in place. *)
Definition appending (o : gmap string value) (endF : option endfn) (s : state) : state :=
  let n := fresh s in
  let d0 := set_prop n "src" (prim_of (prop o "src"))
              (createElement "script" n (page s)) in
  let d1 := if truthyV (prop o "type")
            then set_prop n "type" (prim_of (prop o "type")) d0 else d0 in
  let d2 := if truthyV (prop o "charset")
            then set_prop n "charset" (prim_of (prop o "charset")) d1 else d1 in
  set_handlers (<[n := fresh_closure o endF]> (handlers s))
    (set_page d2 (set_fresh (S n) (set_trace (trace s ++ [EvLoadScript o endF]) s))).

(** Calling [v] with the element [n] ends in the exception [e]. *)
Definition fails (v : value) (n : nid) (e : prim) : Prop :=
  match v with
  | VFun f => forall w, snd (f None (CNode n) w) = Thrown e
  | _ => e = TypeError
  end.

(** The four bindings of the write entry points. *)
Definition bindings (s : state) : writer * writer * option writer * option writer :=
  (doc_write s, doc_writeln s, docWrite s, docWriteln s).

(** The ends of loads in a record. *)
Definition ends (t : list event) : list event := List.filter is_end t.

(** A deferred request whose [append] throws. *)
Definition request_nowhere : gmap string value :=
  {[ "src" := VPrim (PStr "n.js"); "defer" := VPrim (PBool true);
     "append" := VFun (throwing (PStr "nowhere")) ]}.

(** A request in synchronous mode whose element the page does not have. *)
Definition request_lost : gmap string value :=
  {[ "src" := VPrim (PStr "l.js"); "id" := VPrim (PStr "lost");
     "loaded" := VFun (throwing (PStr "oops")) ]}.

(** A request whose [loaded] throws. *)
Definition request_throwing : gmap string value :=
  {[ "src" := VPrim (PStr "t.js");
     "loaded" := VFun (throwing (PStr "oops"));
     "complete" := VFun (returning PUndef) ]}.

(** The page when the element of [request_throwing] (handle 3) is about to
    report. *)
Definition throwing_state : state :=
  final (run parse_text integer_zero
           [DocumentReady; Call (ArgObj request_throwing); DocWrite [PStr "<b>x</b>"]]
           start).

Definition throwing_closure : closure :=
  default (fresh_closure ∅ None) (handlers throwing_state !! 3%nat).



(** The write entry points are the page's own, or the capturing ones with
    the page's own saved. *)
Definition guarded (w wl : writer) (s : state) : Prop :=
  bindings s = (w, wl, None, None)
  \/ bindings s = (TempDocWrite, TempDocWriteln, Some w, Some wl).

(** The options object an accepted argument stands for. *)
Definition given (a : argument) : gmap string value :=
  match a with
  | ArgObj o => o
  | ArgPrim (PStr s) => {[ "src" := VPrim (PStr s) ]}
  | ArgPrim _ => ∅
  end.

(** The small page once it is ready. *)
Definition ready_page : state :=
  final (run parse_text integer_zero [DocumentReady] start).

(** A request that asks not to be deferred. *)
Definition request_now : gmap string value :=
  {[ "src" := VPrim (PStr "a.js"); "defer" := VPrim (PBool false) ]}.

(** ** Life-cycle gate, the [attachEvent] branch (lines 235-259) *)

(** The [onreadystatechange] listener of the document: it waits for the
    [readyState] "complete". *)
Definition onreadystatechange (readyState : prim) : M unit :=
  if prim_eqb readyState (PStr "complete") then
    modify (set_listening false) >>
    modify (set_DOMContentLoaded false) >>
    loadAllScripts
  else ret tt.

(** [doScrollCheck]: [scrolls] tells whether [doScroll("left")] returns;
    the result tells whether the check is scheduled again. *)
Definition doScrollCheck (scrolls : bool) : M bool :=
  do armed <- gets DOMContentLoaded in
  if negb armed then ret false
  else if scrolls then loadAllScripts >> ret false
  else ret true.

(** The record [t] continues [t0]. *)
Definition continues (t0 : list event) (s : state) : Prop :=
  exists more, trace s = t0 ++ more.

(** The page with two placeholders when the first of two deferred requests
    is being loaded (its script element has handle 5). *)
Definition waiting_state : state :=
  final (run parse_text integer_zero
           [Call (ArgObj request_b); Call (ArgObj request_a); DocumentReady] begin_a).

Definition waiting_closure : closure :=
  default (fresh_closure ∅ None) (handlers waiting_state !! 5%nat).

(** [s'] is [s] but for the gate: nothing was loaded, recorded, written or
    created between them. *)
Definition only_gate (s s' : state) : Prop :=
  trace s' = trace s /\ handlers s' = handlers s /\ bindings s' = bindings s
  /\ same_queue s s' /\ page s' = page s /\ writes s' = writes s
  /\ output s' = output s /\ fresh s' = fresh s.

(** ** Reading the element tree *)

(** The handles of a tree, in document order. *)
Fixpoint handles (t : tree) : list nid :=
  match t with
  | Node h ks =>
      h :: (fix go (l : list tree) : list nid :=
              match l with
              | [] => []
              | k :: l' => handles k ++ go l'
              end) ks
  end.

Definition handles_forest (l : list tree) : list nid :=
  (fix go (l : list tree) : list nid :=
     match l with
     | [] => []
     | k :: l' => handles k ++ go l'
     end) l.

(** The loops over child lists, by name. *)
Definition subtree_forest (h : nid) (l : list tree) : option tree :=
  (fix go (l : list tree) : option tree :=
     match l with
     | [] => None
     | k :: l' =>
         match subtree h k with
         | Some r => Some r
         | None => go l'
         end
     end) l.

Definition parent_forest (h : nid) (l : list tree) : option nid :=
  (fix go (l : list tree) : option nid :=
     match l with
     | [] => None
     | k :: l' =>
         match parent_in h k with
         | Some r => Some r
         | None => go l'
         end
     end) l.

Definition prune_kids (h : nid) (l : list tree) : list tree :=
  (fix go (l : list tree) : list tree :=
     match l with
     | [] => []
     | k :: l' =>
         if Nat.eqb (root k) h then go l'
         else prune h k :: go l'
     end) l.

Definition insert_after_kids (a : nid) (new : tree) (l : list tree) : list tree :=
  (fix go (l : list tree) : list tree :=
     match l with
     | [] => []
     | k :: l' =>
         if Nat.eqb (root k) a then k :: new :: l'
         else insert_after a new k :: go l'
     end) l.

Definition insert_before_kids (a : nid) (new : tree) (l : list tree) : list tree :=
  (fix go (l : list tree) : list tree :=
     match l with
     | [] => []
     | k :: l' =>
         if Nat.eqb (root k) a then new :: k :: l'
         else insert_before a new k :: go l'
     end) l.

(** Put the trees [new], in this order, immediately after the child [a]. *)
Fixpoint insert_all_after (a : nid) (new : list tree) (t : tree) : tree :=
  match t with
  | Node p ks =>
      Node p ((fix go (l : list tree) : list tree :=
                 match l with
                 | [] => []
                 | k :: l' =>
                     if Nat.eqb (root k) a then k :: new ++ l'
                     else insert_all_after a new k :: go l'
                 end) ks)
  end.

Definition insert_all_after_kids (a : nid) (new : list tree) (l : list tree) : list tree :=
  (fix go (l : list tree) : list tree :=
     match l with
     | [] => []
     | k :: l' =>
         if Nat.eqb (root k) a then k :: new ++ l'
         else insert_all_after a new k :: go l'
     end) l.

(** Every node of the page has a handle below [b], and no handle is used
    twice. *)
Definition well_formed (b : nid) (d : dom) : Prop :=
  NoDup (handles (document d) ++ handles_forest (detached d))
  /\ Forall (fun h => (h < b)%nat) (handles (document d) ++ handles_forest (detached d)).

(** Lines 337-343: the options of a request made after the ready event. *)
Definition late_options (o : gmap string value) : gmap string value :=
  let o1 := <["defer" := VPrim (PBool true)]> o in
  if negb (truthyV (prop o1 "append"))
  then <["append" := VFun appendToBody]> o1
  else o1.

(** A parser that finds two elements in every non-empty text. *)
Definition parse_pair (text : string) : list html :=
  if String.eqb text "" then [] else [HElem "b" None []; HElem "i" None []].

(** A deferred request with nothing else. *)
Definition request_deferred : gmap string value :=
  {[ "src" := VPrim (PStr "d.js"); "defer" := VPrim (PBool true) ]}.

(** The page with two placeholders, when the script element of
    [request_deferred] (handle 5, before the first placeholder) has written
    twice and is about to report. *)
Definition written_state : state :=
  final (run parse_pair integer_zero
           [Call (ArgObj request_deferred); DocumentReady;
            DocWrite [PStr "<b></b>"]; DocWrite [PStr "<i></i>"]]
           begin_a).

Definition written_options : gmap string value :=
  c_opts (default (fresh_closure ∅ None) (handlers written_state !! 5%nat)).

(** The small page, when a script element requested after the ready event
    (handle 3, at the end of the body) has written twice. *)
Definition late_written_state : state :=
  final (run parse_pair integer_zero
           [DocumentReady; Call (ArgPrim (PStr "d.js"));
            DocWrite [PStr "<b></b>"]; DocWrite [PStr "<i></i>"]]
           start).

Definition late_written_options : gmap string value :=
  c_opts (default (fresh_closure ∅ None) (handlers late_written_state !! 3%nat)).

(** A request in synchronous mode with no callbacks. *)
Definition plain (o : gmap string value) : Prop :=
  truthyV (prop o "defer") = false
  /\ truthyV (prop o "loaded") = false
  /\ truthyV (prop o "complete") = false.

(** The elements of the requests [l] are found in [d] one after the other,
    each once the id of the one before it has been cleared. *)
Fixpoint lined_up (l : list (gmap string value)) (d : dom) : Prop :=
  match l with
  | [] => True
  | o :: l' =>
      exists n, getElementById (toStringV (prop o "id")) d = Some n
                /\ lined_up l' (set_prop n "id" PNull d)
  end.

(** [lined_up], computed. *)
Fixpoint lined_upb (l : list (gmap string value)) (d : dom) : bool :=
  match l with
  | [] => true
  | o :: l' =>
      match getElementById (toStringV (prop o "id")) d with
      | Some n => lined_upb l' (set_prop n "id" PNull d)
      | None => false
      end
  end.

(** [<html><body><script id="_script-0"></script><script id="_script-1"></script></body></html>] *)
Definition page_scripts : dom :=
  {| document := Node 0%nat [Node 1%nat [Node 2%nat [Node 3%nat []; Node 4%nat []]]];
     detached := [];
     props := {[ 1%nat := {[ "tagName" := PStr "html" ]};
                 2%nat := {[ "tagName" := PStr "body" ]};
                 3%nat := {[ "tagName" := PStr "script"; "id" := PStr "_script-0" ]};
                 4%nat := {[ "tagName" := PStr "script"; "id" := PStr "_script-1" ]} ]} |}.

(** That page when two requests in synchronous mode have been made and the
    scheduler has just taken the worklist. *)
Definition taken_state : state :=
  let s := final (run parse_text integer_zero
                    [Call (ArgPrim (PStr "a.js")); Call (ArgPrim (PStr "b.js"))]
                    (init (Native false) (Native true) page_scripts 5%nat)) in
  set_scripts None (set_array (default [] (scripts s)) s).

(** A request with an [append] given by id. *)
Definition request_into : gmap string value :=
  {[ "src" := VPrim (PStr "i.js"); "defer" := VPrim (PBool true);
     "append" := VPrim (PStr "_script-1") ]}.

(** The small page when two requests made after the ready event are both
    being loaded (their script elements have the handles 3 and 4). *)
Definition overlapping_state : state :=
  final (run parse_text integer_zero
           [DocumentReady; Call (ArgPrim (PStr "a.js")); Call (ArgPrim (PStr "b.js"))]
           start).

Definition overlapping_closure (n : nid) : closure :=
  default (fresh_closure ∅ None) (handlers overlapping_state !! n).

(** * Properties *)

(** *** Strings *)

Lemma substring_0_0 (s : string) : String.substring 0 0 s = "".
Proof. by destruct s. Qed.

Lemma prefix_http (src : string) :
  String.eqb (String.substring 0 4 src) "http" = true <-> exists rest, src = "http" +:+ rest.
Proof.
  split.
  - intros H. apply String.eqb_eq in H.
    destruct src as [|a [|b [|c [|d rest]]]]; simpl in H; try discriminate.
    rewrite substring_0_0 in H. exists rest.
    injection H as -> -> -> ->. reflexivity.
  - intros [rest ->]. simpl. by rewrite substring_0_0.
Qed.

Lemma get_last_snoc (b : string) (c : ascii) :
  String.get (String.length (b +:+ String c "") - 1) (b +:+ String c "") = Some c.
Proof.
  induction b as [|a b IH]; [reflexivity|].
  simpl. rewrite Nat.sub_0_r.
  destruct b as [|a' b']; [reflexivity|].
  simpl in IH |- *. rewrite Nat.sub_0_r in IH. exact IH.
Qed.

Lemma substring_snoc (b : string) (c : ascii) :
  String.substring 0 (String.length (b +:+ String c "") - 1) (b +:+ String c "") = b.
Proof.
  induction b as [|a b IH]; [reflexivity|].
  simpl. rewrite Nat.sub_0_r.
  destruct b as [|a' b']; [reflexivity|].
  simpl in IH |- *. rewrite Nat.sub_0_r in IH. by rewrite IH.
Qed.

Lemma string_snoc (b : string) :
  b <> "" -> exists b' c, b = b' +:+ String c "".
Proof.
  induction b as [|a b IH]; [done|]. intros _.
  destruct b as [|a' b'].
  - by exists "", a.
  - destruct IH as (b0 & c & E); [done|]. exists (String a b0), c. simpl. by rewrite E.
Qed.

Lemma snoc_inj (b1 b2 : string) (c1 c2 : ascii) :
  b1 +:+ String c1 "" = b2 +:+ String c2 "" -> b1 = b2 /\ c1 = c2.
Proof.
  revert b2. induction b1 as [|a b1 IH]; intros [|a2 b2] H; simpl in H.
  - by injection H.
  - injection H as -> H. by destruct b2.
  - injection H as -> H. by destruct b1.
  - injection H as -> H. apply IH in H as [-> ->]. done.
Qed.

Lemma stripSlash_slash (b' : string) : stripSlash (b' +:+ "/") = b'.
Proof.
  unfold stripSlash. rewrite (get_last_snoc b' "/"). apply substring_snoc.
Qed.

Lemma stripSlash_other (b : string) :
  (forall b', b <> b' +:+ "/") -> stripSlash b = b.
Proof.
  intros H. unfold stripSlash.
  destruct (decide (b = "")) as [->|Hne]; [reflexivity|].
  destruct (string_snoc b Hne) as (b' & c & ->).
  rewrite get_last_snoc.
  destruct (decide (c = "/"%char)) as [->|Hc]; [by destruct (H b')|].
  destruct c as [[] [] [] [] [] [] [] []]; try reflexivity. by destruct Hc.
Qed.

Lemma append_newline_nonempty (s : string) : String.eqb (s +:+ newline) "" = false.
Proof. destruct s; reflexivity. Qed.

Lemma truthy_line (v : prim) : truthy (PStr (toString v +:+ newline)) = true.
Proof. simpl. by rewrite append_newline_nonempty. Qed.

Lemma truthy_PStr (b : string) : b <> "" -> truthy (PStr b) = true.
Proof. intros H. simpl. destruct (String.eqb_spec b ""); done. Qed.

(** *** Option records *)


Lemma prop_insert_eq (o : gmap string value) (k : string) (v : value) :
  prop (<[k := v]> o) k = v.
Proof. unfold prop. by rewrite lookup_insert_eq. Qed.

Lemma prop_insert_ne (o : gmap string value) (k k' : string) (v : value) :
  k <> k' -> prop (<[k := v]> o) k' = prop o k'.
Proof. intros H. unfold prop. by rewrite lookup_insert_ne. Qed.

Lemma prop_delete_ne (o : gmap string value) (k k' : string) :
  k <> k' -> prop (delete k o) k' = prop o k'.
Proof. intros H. unfold prop. by rewrite lookup_delete_ne. Qed.

Lemma prop_union_l (a d : gmap string value) (k : string) :
  truthyV (prop a k) = true -> prop (a ∪ d) k = prop a k.
Proof.
  unfold prop. intros H. destruct (a !! k) as [v|] eqn:E; [|done].
  by rewrite (lookup_union_Some_l a d k v E).
Qed.

Lemma prop_union_nonnull (a d : gmap string value) (k : string) :
  is_nullishV (prop a k) = false -> prop (a ∪ d) k = prop a k.
Proof.
  unfold prop. intros H. destruct (a !! k) as [v|] eqn:E; [|done].
  by rewrite (lookup_union_Some_l a d k v E).
Qed.

Lemma normalizeOnload_other (args o : gmap string value) (k : string) :
  k <> "onLoad" -> k <> "onload" -> prop (normalizeOnload args o) k = prop o k.
Proof.
  intros H1 H2. unfold normalizeOnload.
  destruct (negb (is_nullishV (prop o "onload"))); [|done].
  rewrite prop_delete_ne, prop_insert_ne; done.
Qed.

Lemma defaultDefer_other (o : gmap string value) (k : string) :
  k <> "defer" -> prop (defaultDefer o) k = prop o k.
Proof.
  intros H. unfold defaultDefer.
  destruct (prop o "defer") as [[]| |]; try done. by rewrite prop_insert_ne.
Qed.

Lemma normalizeAppend_other (o : gmap string value) (k : string) :
  k <> "append" -> prop (normalizeAppend o) k = prop o k.
Proof.
  intros H. unfold normalizeAppend.
  destruct (prop o "append") as [[]| |]; try done; by rewrite prop_insert_ne.
Qed.

Lemma completeSrc_other (o o' : gmap string value) (s s' : state) (k : string) :
  completeSrc o s = Ok o' s' -> k <> "src" -> prop o' k = prop o k.
Proof.
  unfold completeSrc. intros H Hk.
  destruct (truthyV (prop o "base")); [|by injection H as <- _].
  destruct (prop o "src") as [[]| |]; try discriminate.
  destruct (negb _); injection H as <- _; [|done].
  by rewrite prop_insert_ne.
Qed.

Lemma completeSrc_state (o o' : gmap string value) (s s' : state) :
  completeSrc o s = Ok o' s' -> s' = s.
Proof.
  unfold completeSrc. intros H.
  destruct (truthyV (prop o "base")); [|by injection H as _ <-].
  destruct (prop o "src") as [[]| |]; try discriminate.
  by destruct (negb _); injection H as _ <-.
Qed.

(** [prepare], step by step: the argument check, the merge with the
    defaults, and the normalisation, which leaves every other option as the
    merge gave it. *)
Lemma prepare_ok (args : argument) (a o1 : gmap string value) (s : state) :
  checkArgs args s = Ok a s ->
  completeSrc (a ∪ defaults s) s = Ok o1 s ->
  exists o s',
    prepare args s = Ok o s'
    /\ (forall k, k ∉ ["onLoad"; "onload"; "defer"; "id"; "append"] ->
          prop o k = prop o1 k)
    /\ truthyV (prop o "id") = true
    /\ (truthyV (prop o "defer") =
        truthyV (prop (defaultDefer (normalizeOnload a o1)) "defer"))
    /\ (s' = s \/ s' = set_uid (S (uid s)) s).
Proof.
  intros Hc Hs. unfold prepare, bind. rewrite Hc. simpl. rewrite Hs.
  set (o2 := defaultDefer (normalizeOnload a o1)).
  assert (Hk : forall (o : gmap string value) k,
             k ∉ ["onLoad"; "onload"; "defer"; "id"; "append"] ->
             (k <> "id" -> prop o k = prop o2 k) ->
             prop (normalizeAppend o) k = prop o1 k).
  { intros o k Hk Ho. rewrite normalizeAppend_other by set_solver.
    rewrite Ho by set_solver. subst o2.
    rewrite defaultDefer_other, normalizeOnload_other; set_solver. }
  destruct (truthyV (prop o2 "id")) eqn:Hid.
  - eexists _, _. split; [reflexivity|]. repeat split.
    + intros k Hin. by apply Hk.
    + by rewrite normalizeAppend_other.
    + by rewrite normalizeAppend_other.
    + by left.
  - eexists _, _. split; [reflexivity|]. repeat split.
    + intros k Hin. apply Hk; [done|]. intros. by rewrite prop_insert_ne.
    + rewrite normalizeAppend_other by done. by rewrite prop_insert_eq.
    + rewrite normalizeAppend_other by done. by rewrite prop_insert_ne.
    + by right.
Qed.

(** ** The write interceptor *)

(** C9: while the capturing functions are bound, [document.write] with no
    argument or with a falsy first argument (the empty string, for one)
    changes nothing: the capture buffer stays as it is, and the page goes on
    exactly as if the call had not been made; [document.writeln(v)] appends
    the string of [v] followed by a newline to the buffer. *)
Theorem capture_discards_falsy (parseHTML : string -> list html)
    (s2i : string -> Z) (s : state) (args : list prim) (v : prim)
    (rest : list prim) (evs : list host_event) :
  doc_write s = TempDocWrite ->
  doc_writeln s = TempDocWriteln ->
  truthy (default PUndef (args !! 0%nat)) = false ->
  dispatch parseHTML s2i (DocWrite args) s = Ok tt s
  /\ dispatch parseHTML s2i (DocWrite []) s = Ok tt s
  /\ dispatch parseHTML s2i (DocWrite (PStr "" :: rest)) s = Ok tt s
  /\ run parseHTML s2i (DocWrite args :: evs) s = run parseHTML s2i evs s
  /\ dispatch parseHTML s2i (DocWriteln (v :: rest)) s =
       Ok tt (set_writes (Some (default [] (writes s) ++ [PStr (toString v +:+ newline)])) s).
Proof.
  intros Hw Hwl Hf.
  assert (H1 : dispatch parseHTML s2i (DocWrite args) s = Ok tt s).
  { unfold dispatch. rewrite Hw. simpl. unfold tempDocWrite. by rewrite Hf. }
  repeat split.
  - exact H1.
  - unfold dispatch. by rewrite Hw.
  - unfold dispatch. by rewrite Hw.
  - cbn [run]. by rewrite H1.
  - unfold dispatch. rewrite Hwl. simpl. unfold tempDocWriteln, tempDocWrite.
    simpl (default PUndef _). rewrite truthy_line. reflexivity.
Qed.

(** ** The request builder *)

Lemma completeSrc_resolves (opts : gmap string value) (b src : string) (s : state) :
  prop opts "base" = VPrim (PStr b) ->
  b <> "" ->
  prop opts "src" = VPrim (PStr src) ->
  exists opts',
    completeSrc opts s = Ok opts' s
    /\ ((exists rest, src = "http" +:+ rest) -> opts' = opts)
    /\ ((forall rest, src <> "http" +:+ rest) ->
        (forall b', b = b' +:+ "/" ->
           opts' = <["src" := VPrim (PStr (b' +:+ "/" +:+ src))]> opts)
        /\ ((forall b', b <> b' +:+ "/") ->
           opts' = <["src" := VPrim (PStr (b +:+ "/" +:+ src))]> opts)).
Proof.
  intros Hb Hne Hs. unfold completeSrc at 1. rewrite Hb, Hs.
  unfold truthyV. rewrite (truthy_PStr b Hne).
  destruct (String.eqb (String.substring 0 4 src) "http") eqn:E; simpl negb; cbv iota.
  - eexists; split; [reflexivity|]. split; [done|].
    intros H. apply prefix_http in E as [rest ->]. by destruct (H rest).
  - eexists; split; [reflexivity|]. split.
    + intros H. apply prefix_http in H. congruence.
    + intros _. split.
      * intros b' ->. by rewrite stripSlash_slash.
      * intros H. by rewrite stripSlash_other.
Qed.

Lemma checkArgs_state (args : argument) (a : gmap string value) (s s' : state) :
  checkArgs args s = Ok a s' -> s' = s.
Proof.
  unfold checkArgs. destruct args as [p|o].
  - destruct (negb (truthy p)); [discriminate|].
    destruct p; try discriminate. by injection 1.
  - destruct (negb _); [discriminate|]. by injection 1.
Qed.

Lemma prepare_inv (args : argument) (o : gmap string value) (s s' : state) :
  prepare args s = Ok o s' ->
  exists a o1, checkArgs args s = Ok a s
               /\ completeSrc (a ∪ defaults s) s = Ok o1 s.
Proof.
  unfold prepare, bind. intros H.
  destruct (checkArgs args s) as [a sa| |] eqn:Hc; try discriminate.
  apply checkArgs_state in Hc as Hsa. subst sa. simpl in H.
  destruct (completeSrc (a ∪ defaults s) s) as [o1 s1| |] eqn:Hs; try discriminate.
  apply completeSrc_state in Hs as Hs1. subst s1. by exists a, o1.
Qed.

Lemma checkArgs_object (a : gmap string value) (s : state) :
  truthyV (prop a "src") = true -> checkArgs (ArgObj a) s = Ok a s.
Proof. intros H. unfold checkArgs. by rewrite H. Qed.

(** C7, amended: for a request whose [base] (its own or the default one) is
    a non-empty string and whose [src] is a string, the source the request
    is given is [src] itself when [src] begins with "http", and otherwise
    [base], without its last character when that is '/', then '/', then
    [src]. *)
Theorem relative_source_resolution (a : gmap string value) (b src : string)
    (s : state) :
  prop a "src" = VPrim (PStr src) ->
  src <> "" ->
  prop (a ∪ defaults s) "base" = VPrim (PStr b) ->
  b <> "" ->
  exists o s',
    prepare (ArgObj a) s = Ok o s'
    /\ ((exists rest, src = "http" +:+ rest) -> prop o "src" = VPrim (PStr src))
    /\ ((forall rest, src <> "http" +:+ rest) ->
        (forall b', b = b' +:+ "/" ->
           prop o "src" = VPrim (PStr (b' +:+ "/" +:+ src)))
        /\ ((forall b', b <> b' +:+ "/") ->
           prop o "src" = VPrim (PStr (b +:+ "/" +:+ src)))).
Proof.
  intros Hsrc Hne Hb Hbne.
  assert (Ht : truthyV (prop a "src") = true).
  { rewrite Hsrc. by apply truthy_PStr. }
  assert (Hm : prop (a ∪ defaults s) "src" = VPrim (PStr src)).
  { by rewrite prop_union_l. }
  destruct (completeSrc_resolves _ b src s Hb Hbne Hm) as (o1 & Hc & Habs & Hrel).
  destruct (prepare_ok (ArgObj a) a o1 s (checkArgs_object a s Ht) Hc)
    as (o & s' & Hp & Hk & _).
  exists o, s'. split; [exact Hp|].
  assert (Hsame : prop o "src" = prop o1 "src") by (apply Hk; not_listed).
  rewrite Hsame. split.
  - intros H. by rewrite (Habs H).
  - intros H. destruct (Hrel H) as [H1 H2]. split.
    + intros b' E. rewrite (H1 b' E). by rewrite prop_insert_eq.
    + intros E. rewrite (H2 E). by rewrite prop_insert_eq.
Qed.

Lemma relative_source_resolution_witness :
  exists o s',
    prepare (ArgObj {[ "base" := VPrim (PStr "http://example.com/lib/");
                       "src" := VPrim (PStr "a.js") ]}) start = Ok o s'
    /\ prop o "src" = VPrim (PStr "http://example.com/lib/a.js").
Proof.
  destruct (relative_source_resolution
              {[ "base" := VPrim (PStr "http://example.com/lib/");
                 "src" := VPrim (PStr "a.js") ]}
              "http://example.com/lib/" "a.js" start)
    as (o & s' & Hp & _ & Hrel); [reflexivity|done|reflexivity|done|].
  exists o, s'. split; [exact Hp|].
  apply Hrel with (b' := "http://example.com/lib"); [|reflexivity].
  intros rest. discriminate.
Defined.

(** The claim as the specification has it, at an empty [base]: the source
    stays "a.js", where [base + '/' + src] would be "/a.js". *)
Lemma empty_base_is_ignored :
  exists o s',
    prepare (ArgObj {[ "base" := VPrim (PStr "");
                       "src" := VPrim (PStr "a.js") ]}) start = Ok o s'
    /\ prop o "src" = VPrim (PStr "a.js")
    /\ prop o "src" <> VPrim (PStr ("" +:+ "/" +:+ "a.js")).
Proof.
  set (a := {[ "base" := VPrim (PStr ""); "src" := VPrim (PStr "a.js") ]}).
  assert (Hc : completeSrc (a ∪ defaults start) start = Ok (a ∪ defaults start) start)
    by (by vm_compute).
  destruct (prepare_ok (ArgObj a) a _ start (checkArgs_object a start eq_refl) Hc)
    as (o & s' & Hp & Hk & _).
  exists o, s'. split; [exact Hp|].
  assert (Hsrc : prop o "src" = VPrim (PStr "a.js")).
  { rewrite Hk by not_listed. by vm_compute. }
  rewrite Hsrc. split; [reflexivity|discriminate].
Qed.

(** C6, amended: the argument check of [script] throws, at once and leaving
    everything as it was, exactly when the argument is falsy (none, [null],
    the empty string, ...) or is no string and has no truthy [src]; a
    non-empty string behaves as the options object whose [src] it is, and
    passes the check. *)
Theorem argument_check (stringToInteger : string -> Z) (yn : M bool)
    (a : argument) (str : string) (s : state) :
  str <> "" ->
  (rejected a = true ->
     exists e, script stringToInteger yn a s = Err e s
               /\ (e = no_arguments \/ e = src_required))
  /\ (rejected a = false -> exists o, checkArgs a s = Ok o s)
  /\ rejected (ArgPrim (PStr str)) = false
  /\ script stringToInteger yn (ArgPrim (PStr str)) s
     = script stringToInteger yn (ArgObj {[ "src" := VPrim (PStr str) ]}) s.
Proof.
  intros Hne. repeat split.
  - intros Hr. unfold script, prepare, bind, checkArgs, rejected in *.
    destruct a as [p|o]; simpl in Hr.
    + destruct (truthy p) eqn:Ht; simpl in *.
      * destruct p; try discriminate; eexists; split; eauto.
      * eexists; split; eauto.
    + rewrite Hr. eexists; split; eauto.
  - intros Hr. unfold checkArgs, rejected in *.
    destruct a as [p|o]; simpl in Hr.
    + destruct (truthy p) eqn:Ht; simpl in *; [|discriminate].
      destruct p; try discriminate. by eexists.
    + rewrite Hr. by eexists.
  - unfold rejected. simpl. destruct (String.eqb_spec str ""); done.
  - unfold script, prepare, bind, checkArgs.
    change (prop {[ "src" := VPrim (PStr str) ]} "src") with (VPrim (PStr str)).
    unfold truthyV. by rewrite (truthy_PStr str Hne).
Qed.

Lemma argument_check_witness :
  script integer_zero (ret false) (ArgPrim (PStr "a.js")) start
  = script integer_zero (ret false)
      (ArgObj {[ "src" := VPrim (PStr "a.js") ]}) start.
Proof.
  apply (argument_check integer_zero (ret false)
           (ArgPrim PUndef) "a.js" start).
  discriminate.
Defined.

(** The claim as the specification has it, at the empty string: a bare
    string that is rejected. *)
Lemma empty_string_is_rejected :
  script integer_zero (ret false) (ArgPrim (PStr "")) start
  = Err no_arguments start.
Proof. reflexivity. Qed.

Lemma capture_discards_falsy_witness :
  dispatch parse_text integer_zero (DocWrite [PStr ""]) intercepted = Ok tt intercepted
  /\ dispatch parse_text integer_zero (DocWriteln [PStr "x"]) intercepted
     = Ok tt (set_writes (Some [PStr ("x" +:+ newline)]) intercepted).
Proof.
  pose proof (capture_discards_falsy parse_text integer_zero intercepted
                [PStr ""] (PStr "x") [] [] eq_refl eq_refl eq_refl) as H.
  split; [apply H|apply H].
Defined.

(** *** Requests made while the document is being built *)


Lemma call_writer_ok (w : writer) (args : list prim) (s : state) :
  call_writer w args s = Ok tt (final (call_writer w args s)).
Proof.
  destruct w; simpl; try done.
  - unfold tempDocWrite. by destruct (truthy _).
  - unfold tempDocWriteln, tempDocWrite. by destruct (truthy _).
Qed.

Lemma call_writer_scripts (w : writer) (args : list prim) (s : state) :
  scripts (final (call_writer w args s)) = scripts s.
Proof.
  destruct w; simpl; try done.
  - unfold tempDocWrite. by destruct (truthy _).
  - unfold tempDocWriteln, tempDocWrite. by destruct (truthy _).
Qed.

Lemma placeholderAppend_other (o : gmap string value) (k : string) :
  k <> "append" -> prop (placeholderAppend o) k = prop o k.
Proof.
  intros H. unfold placeholderAppend. destruct (_ && _); [|done].
  by rewrite prop_insert_ne.
Qed.

Lemma submit_building (stringToInteger : string -> Z) (yn : M bool)
    (opts : gmap string value) (s : state) (l : list (gmap string value)) :
  DOMContentLoaded s = true ->
  scripts s = Some l ->
  submit stringToInteger yn opts s
  = Ok tt (set_scripts (Some (enqueue stringToInteger (placeholderAppend opts) l))
             (final (call_writer (doc_write s) [PStr (placeholderMarkup opts)] s))).
Proof.
  intros Hb Hl. unfold submit, bind, gets. rewrite Hb.
  rewrite call_writer_ok. by rewrite call_writer_scripts, Hl.
Qed.

Lemma prepare_state (args : argument) (o : gmap string value) (s s' : state) :
  prepare args s = Ok o s' -> s' = s \/ s' = set_uid (S (uid s)) s.
Proof.
  intros H. destruct (prepare_inv _ _ _ _ H) as (a & o1 & Hc & Hs).
  destruct (prepare_ok _ _ _ _ Hc Hs) as (o' & s'' & Hp & _ & _ & _ & Hst).
  rewrite H in Hp. by injection Hp as -> ->.
Qed.



(** * The invariant of the page *)

(** ** Steps that leave the scheduler alone *)

Lemma agree_refl (s : state) : agree s s.
Proof.
  split; try done. exists []. by rewrite app_nil_r.
Qed.

Lemma agree_trans (s1 s2 s3 : state) : agree s1 s2 -> agree s2 s3 -> agree s1 s3.
Proof.
  intros [a1 n1 s1' h1 f1 (t1 & e1 & q1)] [a2 n2 s2' h2 f2 (t2 & e2 & q2)].
  split; try congruence; [lia|].
  exists (t1 ++ t2). split; [by rewrite e2, e1, app_assoc|by apply Forall_app].
Qed.

Lemma framed_ret {A} (a : A) : framed (ret a).
Proof. intros s. apply agree_refl. Qed.

Lemma framed_throw {A} (e : prim) : framed (@throw A e).
Proof. intros s. apply agree_refl. Qed.

Lemma framed_gets {A} (f : state -> A) : framed (gets f).
Proof. intros s. apply agree_refl. Qed.

Lemma framed_bind {A B} (c : M A) (k : A -> M B) :
  framed c -> (forall a, framed (k a)) -> framed (bind c k).
Proof.
  intros Hc Hk s. unfold bind. specialize (Hc s).
  destruct (c s) as [a s'|e s'|s']; try done.
  eapply agree_trans; [exact Hc|apply Hk].
Qed.

Lemma framed_when (b : bool) (c : M unit) : framed c -> framed (when b c).
Proof. destruct b; [done|]. intros _. apply framed_ret. Qed.

Lemma framed_on_page (f : dom -> dom) : framed (on_page f).
Proof. intros s. split; try done. exists []. by rewrite app_nil_r. Qed.

Lemma framed_log (e : event) : quiet e = true -> framed (log e).
Proof.
  intros H s. split; try done. exists [e]. split; [done|]. by constructor.
Qed.

Lemma framed_new_element (tag : string) : framed (new_element tag).
Proof.
  intros s. split; try done; [simpl; lia|]. exists []. by rewrite app_nil_r.
Qed.

Lemma framed_call_value (f : value) (this : option nid) (a : carg) :
  framed (call_value f this a).
Proof.
  intros s. unfold call_value. destruct f as [p|n|g]; try apply agree_refl.
  destruct (g this a _) as [w [v|e]]; (split; try done; exists []; by rewrite app_nil_r).
Qed.

Lemma framed_appendNode (script node : nid) : framed (appendNode script node).
Proof.
  unfold appendNode. apply framed_bind; [apply framed_gets|].
  intros [p|]; [apply framed_on_page|apply framed_throw].
Qed.

Lemma framed_moveChildren (budget : nat) (script div : nid) :
  framed (moveChildren budget script div).
Proof.
  induction budget as [|b IH]; simpl.
  - apply framed_bind; [apply framed_gets|]. intros [k|]; [|apply framed_ret].
    intros s. apply agree_refl.
  - apply framed_bind; [apply framed_gets|]. intros [k|]; [|apply framed_ret].
    apply framed_bind; [apply framed_on_page|]. intros _.
    apply framed_bind; [apply framed_appendNode|]. intros _. exact IH.
Qed.

Lemma install_fresh (x : html) :
  forall (h : nid) (d : dom), (h < snd (fst (install x h d)))%nat.
Proof.
  revert x. fix IH 1. intros [tag hid body|text] h d; [|simpl; lia].
  cbn [install].
  set (d2 := match hid with Some i => _ | None => _ end). clearbody d2.
  assert (Hgo : forall h d, (h <= snd (fst (install_all body h d)))%nat).
  { clear h d d2. induction body as [|y body' IHb]; intros h d; [simpl; lia|].
    cbn [install_all]. pose proof (IH y h d) as Hy.
    destruct (install y h d) as [[t h'] d']. simpl in Hy.
    specialize (IHb h' d'). unfold install_all in IHb.
    destruct ((fix go (l : list html) (h : nid) (d : dom) {struct l} :
                 list tree * nid * dom := _) body' h' d') as [[ts h''] d''].
    simpl in *. lia. }
  specialize (Hgo (S h) d2). unfold install_all in Hgo.
  destruct ((fix go (l : list html) (h : nid) (d : dom) {struct l} :
               list tree * nid * dom := _) body (S h) d2) as [[ks h'] d3].
  simpl in *. lia.
Qed.

Lemma install_all_fresh (l : list html) :
  forall (h : nid) (d : dom), (h <= snd (fst (install_all l h d)))%nat.
Proof.
  induction l as [|y l IH]; intros h d; [simpl; lia|].
  cbn [install_all]. pose proof (install_fresh y h d) as Hy.
  destruct (install y h d) as [[t h'] d']. simpl in Hy.
  specialize (IH h' d'). unfold install_all in IH.
  destruct ((fix go (l : list html) (h : nid) (d : dom) {struct l} :
               list tree * nid * dom := _) l h' d') as [[ts h''] d''].
  simpl in *. lia.
Qed.

Lemma framed_set_innerHTML (parseHTML : string -> list html) (h : nid) (text : string) :
  framed (set_innerHTML parseHTML h text).
Proof.
  intros s. unfold set_innerHTML.
  pose proof (install_all_fresh (parseHTML text) (fresh s) (page s)) as Hf.
  destruct (install_all (parseHTML text) (fresh s) (page s)) as [[ks h'] d1].
  split; try done. exists []. by rewrite app_nil_r.
Qed.

Lemma framed_handleScriptLoaded (parseHTML : string -> list html)
    (opts : gmap string value) (script : nid) :
  framed (handleScriptLoaded parseHTML opts script).
Proof.
  unfold handleScriptLoaded.
  apply framed_bind.
  { destruct (truthyV (prop opts "loaded")); [|apply framed_ret].
    apply framed_bind; [apply framed_gets|]. intros w.
    apply framed_bind; [by apply framed_log|]. intros _.
    apply framed_bind; [apply framed_call_value|]. intros r. apply framed_ret. }
  intros [|]; [apply framed_ret|].
  apply framed_bind; [apply framed_gets|]. intros div0.
  apply framed_bind; [apply framed_gets|]. intros w.
  apply framed_bind.
  { destruct w as [l|]; [|apply framed_ret].
    apply framed_bind.
    { destruct div0 as [d|]; [apply framed_ret|].
      apply framed_bind; [apply framed_new_element|]. intros d.
      apply framed_bind; [apply framed_appendNode|]. intros _. apply framed_ret. }
    intros div.
    apply framed_bind; [apply framed_on_page|]. intros _.
    apply framed_bind; [apply framed_set_innerHTML|]. intros _.
    apply framed_bind; [apply framed_gets|]. intros n.
    apply framed_bind; [apply framed_moveChildren|]. intros _. apply framed_ret. }
  intros div.
  apply framed_bind.
  { destruct div as [d|]; [|apply framed_ret].
    apply framed_bind; [apply framed_gets|].
    intros [p|]; [apply framed_on_page|apply framed_throw]. }
  intros _. apply framed_when.
  apply framed_bind; [by apply framed_log|]. intros _.
  apply framed_bind; [apply framed_call_value|]. intros r. apply framed_ret.
Qed.

(** ** Reading the record *)

Lemma drain_events_app (t t' : list event) :
  drain_events (t ++ t') = drain_events t ++ drain_events t'.
Proof. apply List.filter_app. Qed.

Lemma runs_app (n : nid) (t t' : list event) :
  runs n (t ++ t') = (runs n t + runs n t')%nat.
Proof. unfold runs. by rewrite List.filter_app, length_app. Qed.

Lemma quiet_not_drain (e : event) : quiet e = true -> is_drain e = false.
Proof. destruct e as [o [[]|]| | | |o []]; by simpl. Qed.

Lemma drain_events_quiet (t : list event) :
  Forall (fun e => quiet e = true) t -> drain_events t = [].
Proof.
  induction 1 as [|e t He _ IH]; [done|].
  unfold drain_events in *. simpl. by rewrite (quiet_not_drain e He).
Qed.

Lemma runs_quiet (n : nid) (t : list event) :
  Forall (fun e => quiet e = true) t -> runs n t = 0%nat.
Proof.
  induction 1 as [|e t He _ IH]; [done|].
  unfold runs in *. simpl. by destruct e.
Qed.


Lemma chained_app (t t' : list event) :
  chained t ->
  Forall (fun e => is_drain_load e = false) t' ->
  chained (t ++ t').
Proof.
  intros Hc Hq pre post o E.
  apply app_eq_inv in E as [(k & E1 & E2)|(k & E1 & E2)].
  - destruct k as [|x k]; simpl in E2.
    + subst t'. by inversion Hq.
    + injection E2 as <- _. by apply (Hc pre k o).
  - subst t'. apply Forall_app in Hq as [_ Hq]. by inversion Hq.
Qed.

Lemma chained_load (t : list event) (o : gmap string value) :
  chained t -> chain_ready t ->
  chained (t ++ [EvLoadScript o (Some EndDrain)]).
Proof.
  intros Hc Hr pre post o' E.
  apply app_eq_inv in E as [(k & E1 & E2)|(k & E1 & E2)].
  - destruct k as [|x k]; simpl in E2.
    + injection E2 as _ E3. subst post. rewrite app_nil_r in E1. subst pre.
      exact Hr.
    + injection E2 as <- E2. by apply (Hc pre k o').
  - destruct k as [|x k]; simpl in E2.
    + rewrite app_nil_r in E1. subst pre. exact Hr.
    + injection E2 as _ E2. by destruct k.
Qed.

Lemma quiet_not_load (t : list event) :
  Forall (fun e => quiet e = true) t -> Forall (fun e => is_drain_load e = false) t.
Proof.
  intros H. eapply Forall_impl; [exact H|]. by intros [o [[]|]| | | |o []].
Qed.

(** ** What steps that leave the scheduler alone preserve *)

Lemma counted_agree (s s' : state) : counted s -> agree s s' -> counted s'.
Proof.
  intros [Hf Hc] [_ _ _ Hh Hfr (t & Et & Hq)]. split.
  - intros n Hn. rewrite Hh. apply Hf. lia.
  - intros n. specialize (Hc n). rewrite Hh, Et, runs_app, (runs_quiet n t Hq).
    rewrite Nat.add_0_r. exact Hc.
Qed.

Lemma live_drain_agree (s s' : state) (n : nid) (c : closure) :
  handlers s' = handlers s -> live_drain s' n c <-> live_drain s n c.
Proof. intros H. unfold live_drain. by rewrite H. Qed.

Lemma scheduled_agree (s s' : state) : scheduled s -> agree s s' -> scheduled s'.
Proof.
  intros (Hs & Hc & Hd) [Ha Hn Hsc Hh _ (t & Et & Hq)]. split; [|split].
  - by rewrite Hsc, Ha, Hn.
  - rewrite Et. apply chained_app; [done|]. by apply quiet_not_load.
  - assert (Ed : drain_events (trace s') = drain_events (trace s)).
    { by rewrite Et, drain_events_app, (drain_events_quiet t Hq), app_nil_r. }
    destruct Hd as [[Hd Hl]|(k & o & m & H1 & H2 & H3 & H4)].
    + left. split; [by rewrite Ed, Hn, Ha|].
      intros n c. by rewrite (live_drain_agree s s').
    + right. exists k, o, m. rewrite Ha, Hn, Ed.
      split; [done|]. split; [done|]. split; [done|].
      intros n c Hl. apply (live_drain_agree s s') in Hl; [|done]. by apply H4.
Qed.

Lemma extends_agree (t0 : list event) (s s' : state) :
  extends t0 s -> agree s s' -> extends t0 s'.
Proof.
  intros [t E] [_ _ _ _ _ (t' & Et & _)]. exists (t ++ t').
  by rewrite Et, E, app_assoc.
Qed.

Lemma Inv_agree (t0 : list event) (s s' : state) :
  Inv t0 s -> agree s s' -> Inv t0 s'.
Proof.
  intros (H1 & H2 & H3) Ha. split; [|split].
  - by eapply counted_agree.
  - by eapply scheduled_agree.
  - by eapply extends_agree.
Qed.


Lemma final_bind {A B} (c : M A) (k : A -> M B) (s : state) :
  final (bind c k s)
  = match c s with
    | Ok a s' => final (k a s')
    | Err _ s' => s'
    | Gas s' => s'
    end.
Proof. unfold bind. by destruct (c s). Qed.

Lemma final_try_finally {A} (body : M A) (fin : M unit) (s : state) :
  final (try_finally body fin s)
  = match body s with
    | Ok _ s' => final (fin s')
    | Err _ s' => final (fin s')
    | Gas s' => s'
    end.
Proof.
  unfold try_finally.
  destruct (body s) as [a s'|e s'|s']; [| |done]; by destruct (fin s').
Qed.

Lemma final_framed {A} (c : M A) (s : state) :
  framed c ->
  match c s with
  | Ok _ s' => agree s s'
  | Err _ s' => agree s s'
  | Gas s' => agree s s'
  end.
Proof. intros H. specialize (H s). by destruct (c s). Qed.

(** A deferred load: the element is created, its handler installed, and the
    page's [append] called. *)
Lemma loadScript_deferred (yn : M bool) (o : gmap string value)
    (endF : option endfn) (s : state) :
  truthyV (prop o "defer") = true ->
  exists s1,
    same_queue s s1
    /\ handlers s1 = <[fresh s := fresh_closure o endF]> (handlers s)
    /\ trace s1 = trace s ++ [EvLoadScript o endF]
    /\ fresh s1 = S (fresh s)
    /\ agree s1 (final (loadScript yn o endF s)).
Proof.
  intros Hd. unfold loadScript. rewrite Hd.
  unfold bind at 1. unfold log at 1, modify at 1.
  unfold bind at 1. unfold new_element at 1.
  unfold bind at 1. unfold on_page at 1, modify at 1.
  destruct (truthyV (prop o "type")), (truthyV (prop o "charset"));
    unfold when, bind, on_page, modify, ret; simpl;
    lazymatch goal with
    | |- context [match call_value ?f ?t ?a ?st with _ => _ end] =>
        exists st; repeat split; try done;
        pose proof (final_framed (call_value f t a) st (framed_call_value f t a)) as Hf;
        destruct (call_value f t a st); apply Hf
    end.
Qed.


(** ** The continuation of a load *)

Lemma endFunction_eq (yn : M bool) (k : endfn) (s : state) :
  endFunction yn k s
  = match k with
    | EndDrain => (do _ <- yn in ret tt) (restored s)
    | EndImmediate => Ok tt (restored s)
    end.
Proof. by destruct k. Qed.

Lemma agree_restored (s : state) : agree s (restored s).
Proof.
  unfold restored, restoreDocWrites, modify.
  destruct (docWrite s); simpl; destruct (docWriteln s); simpl;
    (split; try done; exists []; by rewrite app_nil_r).
Qed.

Lemma final_then_ret {A} (c : M A) (s : state) :
  final ((do _ <- c in ret tt) s) = final (c s).
Proof. unfold bind, ret. by destruct (c s). Qed.

(** ** One step of the invariant at a time *)

Lemma in_turn_app (l l' : list (gmap string value)) :
  in_turn (l ++ l') = in_turn l ++ in_turn l'.
Proof. apply flat_map_app. Qed.

Lemma extends_app (t0 t : list event) (s s' : state) :
  extends t0 s -> trace s' = trace s ++ t -> extends t0 s'.
Proof. intros [t1 E] E'. exists (t1 ++ t). by rewrite E', E, app_assoc. Qed.

Lemma runs_snoc (n : nid) (t : list event) (e : event) :
  is_run n e = false -> runs n (t ++ [e]) = runs n t.
Proof.
  intros H. rewrite runs_app. unfold runs at 2. simpl. rewrite H. apply Nat.add_0_r.
Qed.

Lemma drain_events_snoc (t : list event) (e : event) :
  drain_events (t ++ [e]) = drain_events t ++ (if is_drain e then [e] else []).
Proof. rewrite drain_events_app. unfold drain_events at 2. simpl. by destruct (is_drain e). Qed.

(** A handler is installed on a new element. *)
Lemma counted_install (s s1 : state) (o : gmap string value) (endF : option endfn) :
  counted s ->
  handlers s1 = <[fresh s := fresh_closure o endF]> (handlers s) ->
  trace s1 = trace s ++ [EvLoadScript o endF] ->
  fresh s1 = S (fresh s) ->
  counted s1.
Proof.
  intros [Hf Hc] Hh Ht Hfr. split.
  - intros n Hn. rewrite Hh, lookup_insert_ne by lia. apply Hf. lia.
  - intros n. rewrite Hh, Ht, (runs_snoc n) by done.
    destruct (decide (fresh s = n)) as [<-|Hne].
    + rewrite lookup_insert_eq. simpl. specialize (Hc (fresh s)).
      rewrite (Hf (fresh s)) in Hc by lia. done.
    + rewrite lookup_insert_ne by done. apply Hc.
Qed.

Lemma live_drain_install (s s1 : state) (o : gmap string value)
    (endF : option endfn) (n : nid) (c : closure) :
  handlers s1 = <[fresh s := fresh_closure o endF]> (handlers s) ->
  live_drain s1 n c ->
  (n = fresh s /\ c = fresh_closure o endF /\ endF = Some EndDrain)
  \/ live_drain s n c.
Proof.
  intros Hh (Hl & Hd & He). rewrite Hh in Hl.
  destruct (decide (fresh s = n)) as [<-|Hne].
  - rewrite lookup_insert_eq in Hl. injection Hl as <-. by left.
  - rewrite lookup_insert_ne in Hl by done. by right.
Qed.

(** A load that is not the scheduler's begins. *)
Lemma Inv_install (t0 : list event) (s s1 : state) (o : gmap string value)
    (endF : option endfn) :
  endF <> Some EndDrain ->
  Inv t0 s ->
  same_queue s s1 ->
  handlers s1 = <[fresh s := fresh_closure o endF]> (handlers s) ->
  trace s1 = trace s ++ [EvLoadScript o endF] ->
  fresh s1 = S (fresh s) ->
  Inv t0 s1.
Proof.
  intros Hend (Hc & (Hs & Hch & Hd) & He) (Ha & Hn & Hsc) Hh Ht Hfr.
  assert (Hq : quiet (EvLoadScript o endF) = true).
  { destruct endF as [[]|]; done. }
  assert (Hlive : forall n c, live_drain s1 n c -> live_drain s n c).
  { intros n c Hl. destruct (live_drain_install _ _ _ _ _ _ Hh Hl) as [(_ & _ & E)|]; done. }
  assert (Ed : drain_events (trace s1) = drain_events (trace s)).
  { rewrite Ht, drain_events_snoc, (quiet_not_drain _ Hq). apply app_nil_r. }
  split; [by eapply counted_install|]. split; [|by eapply extends_app].
  split; [by rewrite Hsc, Ha, Hn|]. split.
  - rewrite Ht. apply chained_app; [done|]. constructor; [|done].
    destruct endF as [[]|]; done.
  - destruct Hd as [[Hd Hl]|(k & o' & m & H1 & H2 & H3 & H4)].
    + left. split; [by rewrite Ed, Hn, Ha|]. intros n c Hl'. by apply (Hl n c), Hlive.
    + right. exists k, o', m. rewrite Ha, Hn, Ed.
      split; [done|]. split; [done|]. split; [done|].
      intros n c Hl. by apply H4, Hlive.
Qed.

(** The scheduler begins the deferred load of the request at [n]. *)
Lemma Inv_install_drain (t0 : list event) (s s1 : state) (n : nat)
    (o : gmap string value) :
  counted s ->
  about_to_load n o s ->
  extends t0 s ->
  same_queue s s1 ->
  handlers s1 = <[fresh s := fresh_closure o (Some EndDrain)]> (handlers s) ->
  trace s1 = trace s ++ [EvLoadScript o (Some EndDrain)] ->
  fresh s1 = S (fresh s) ->
  Inv t0 s1.
Proof.
  intros Hc (Hl & Hn & Hd & Hlive & Hch & Hr & Hs) He (Ha & Hn' & Hsc) Hh Ht Hfr.
  split; [by eapply counted_install|]. split; [|by eapply extends_app].
  split; [by rewrite Hsc, Hs|]. split.
  - rewrite Ht. by apply chained_load.
  - right. exists n, o, (fresh s). rewrite Ha, Hn', Ht, drain_events_snoc, Hd.
    split; [done|]. split; [done|]. split; [done|].
    intros m c Hm.
    destruct (live_drain_install _ _ _ _ _ _ Hh Hm) as [(-> & -> & _)|Hold]; [done|].
    by destruct (Hlive m c).
Qed.

(** The scheduler began the load of the request at [n], which cannot end. *)
Lemma Inv_begun (t0 : list event) (s s1 : state) (n : nat) (o : gmap string value) :
  counted s ->
  about_to_load n o s ->
  extends t0 s ->
  same_queue s s1 ->
  handlers s1 = handlers s ->
  fresh s1 = fresh s ->
  trace s1 = trace s ++ [EvLoadScript o (Some EndDrain)] ->
  Inv t0 s1.
Proof.
  intros [Hf Hc] (Hl & Hn & Hd & Hlive & Hch & Hr & Hs) He (Ha & Hn' & Hsc) Hh Hfr Ht.
  split; [|split; [|by eapply extends_app]].
  - split.
    + intros m Hm. rewrite Hh. apply Hf. lia.
    + intros m. rewrite Hh, Ht, (runs_snoc m) by done. apply Hc.
  - split; [by rewrite Hsc, Hs|]. split.
    + rewrite Ht. by apply chained_load.
    + right. exists n, o, 0%nat. rewrite Ha, Hn', Ht, drain_events_snoc, Hd.
      split; [done|]. split; [done|]. split; [done|].
      intros m c Hm. destruct (Hlive m c). unfold live_drain in *. by rewrite <- Hh.
Qed.

(** The load of the request at [n] ends: the scheduler can go on. *)
Lemma Ready_ended (t0 : list event) (s s1 : state) (n : nat) (o : gmap string value) :
  counted s ->
  scripts s = None ->
  chained (trace s) ->
  extends t0 s ->
  _scripts s !! n = Some o ->
  next s = S n ->
  drain_events (trace s)
  = in_turn (take n (_scripts s)) ++ [EvLoadScript o (Some EndDrain)] ->
  (forall m c, ~ live_drain s m c) ->
  same_queue s s1 ->
  handlers s1 = handlers s ->
  fresh s1 = fresh s ->
  trace s1 = trace s ++ [EvEnd o EndDrain] ->
  Ready t0 s1.
Proof.
  intros [Hf Hc] Hs Hch He Hl Hn Hd Hlive (Ha & Hn' & Hsc) Hh Hfr Ht.
  split; [|split; [|split; [|split; [|split]]]].
  - split.
    + intros m Hm. rewrite Hh. apply Hf. lia.
    + intros m. rewrite Hh, Ht, (runs_snoc m) by done. apply Hc.
  - by rewrite Hsc.
  - rewrite Ht. apply chained_app; [done|]. by constructor.
  - split.
    + rewrite Ht, drain_events_snoc, Hd, Hn', Ha, Hn.
      rewrite (take_S_r _ _ _ Hl), in_turn_app. simpl. by rewrite <- app_assoc.
    + intros m c Hm. destruct (Hlive m c). unfold live_drain in *. by rewrite <- Hh.
  - right. by exists (trace s), o.
  - by eapply extends_app.
Qed.

Lemma Ready_agree (t0 : list event) (s s' : state) :
  Ready t0 s -> agree s s' -> trace s' = trace s -> Ready t0 s'.
Proof.
  intros (Hc & Hs & Hch & [Hd Hl] & Hr & He) Ha Ht.
  pose proof Ha as [Ha1 Hn Hsc Hh _ _].
  split; [by eapply counted_agree|]. split; [by rewrite Hsc|].
  split; [by rewrite Ht|]. split; [|split; [by rewrite Ht|by eapply extends_agree]].
  split; [by rewrite Ht, Hn, Ha1|].
  intros n c. by rewrite (live_drain_agree s s').
Qed.

Lemma Ready_Inv (t0 : list event) (s : state) : Ready t0 s -> Inv t0 s.
Proof.
  intros (Hc & Hs & Hch & Hd & Hr & He). split; [done|]. split; [|done].
  split; [by rewrite Hs|]. split; [done|]. by left.
Qed.


(** ** The scheduler keeps the invariant *)

Lemma framed_callbacks (o : gmap string value) (script : option nid) :
  framed (callbacks o script).
Proof.
  unfold callbacks. apply framed_bind.
  - apply framed_when. apply framed_bind; [by apply framed_log|]. intros _.
    apply framed_bind; [apply framed_call_value|]. intros _. apply framed_ret.
  - intros _. apply framed_when. apply framed_bind; [by apply framed_log|]. intros _.
    apply framed_bind; [apply framed_call_value|]. intros _. apply framed_ret.
Qed.

(** A load in synchronous mode, up to the call of the continuation. *)
Lemma loadScript_sync (yn : M bool) (o : gmap string value) (endF : option endfn)
    (s : state) :
  truthyV (prop o "defer") = false ->
  loadScript yn o endF s
  = try_finally
      (callbacks o (getElementById (toStringV (prop o "id")) (page s)))
      (cleanup yn o endF (getElementById (toStringV (prop o "id")) (page s)))
      (set_trace (trace s ++ [EvLoadScript o endF]) s).
Proof. intros Hd. unfold loadScript. by rewrite Hd. Qed.

Lemma cleanup_found (yn : M bool) (o : gmap string value) (k : endfn)
    (n : nid) (s : state) :
  cleanup yn o (Some k) (Some n) s
  = endFunction yn k
      (set_trace (trace s ++ [EvEnd o k])
         (set_page (set_prop n "id" PNull (page s)) s)).
Proof. reflexivity. Qed.

Lemma cleanup_missing (yn : M bool) (o : gmap string value)
    (endF : option endfn) (s : state) :
  cleanup yn o endF None s = Err TypeError s.
Proof. reflexivity. Qed.

Lemma loadScript_drain_inv (t0 : list event) (yn : M bool) (n : nat)
    (o : gmap string value) (s : state) :
  keeps_Inv t0 yn ->
  counted s ->
  about_to_load n o s ->
  extends t0 s ->
  Inv t0 (final (loadScript yn o (Some EndDrain) s)).
Proof.
  intros Hyn Hc Hab He.
  destruct (truthyV (prop o "defer")) eqn:Hd.
  - destruct (loadScript_deferred yn o (Some EndDrain) s Hd)
      as (s1 & Hq & Hh & Ht & Hf & Ha).
    eapply Inv_agree; [|exact Ha]. by eapply Inv_install_drain.
  - rewrite (loadScript_sync _ _ _ _ Hd), final_try_finally.
    set (s0 := set_trace (trace s ++ [EvLoadScript o (Some EndDrain)]) s).
    assert (H0 : Inv t0 s0) by (by eapply (Inv_begun t0 s s0 n o)).
    set (el := getElementById _ _).
    pose proof (final_framed (callbacks o el) s0 (framed_callbacks o el)) as Hb.
    assert (Hfin : forall s', agree s0 s' -> Inv t0 (final (cleanup yn o (Some EndDrain) el s'))).
    { intros s' Ha.
      destruct el as [e|]; [|rewrite cleanup_missing; by eapply Inv_agree].
      rewrite cleanup_found, endFunction_eq, final_then_ret. apply Hyn.
      set (s2 := set_trace _ _).
      assert (Hr : Ready t0 s2).
      { destruct Hab as (Hl & Hn & Hdr & Hlive & Hch & Hr & Hs).
        destruct Ha as [Ha1 Ha2 Ha3 Ha4 Ha5 (t & Et & Hq)].
        destruct H0 as (Hc0 & (_ & Hch0 & _) & He0).
        assert (Hag : agree s0 s') by (split; eauto).
        eapply (Ready_ended t0 s' s2 n o); try done.
        - by eapply counted_agree.
        - by rewrite Ha3.
        - rewrite Et. apply chained_app; [done|]. by apply quiet_not_load.
        - by eapply extends_agree.
        - by rewrite Ha1.
        - by rewrite Ha2.
        - rewrite Et, drain_events_app, (drain_events_quiet t Hq), app_nil_r, Ha1.
          subst s0. simpl. by rewrite drain_events_snoc, Hdr.
        - intros m c Hm. apply (Hlive m c). unfold live_drain in *.
          by rewrite Ha4 in Hm. }
      eapply Ready_agree; [exact Hr|apply agree_restored|].
      unfold restored, restoreDocWrites, modify.
      destruct (docWrite s2); simpl; by destruct (docWriteln s'). }
    destruct (callbacks o el s0) as [a s'|e s'|s']; [by apply Hfin|by apply Hfin|].
    by eapply Inv_agree.
Qed.

Lemma overrideDocWrites_ok (s : state) :
  overrideDocWrites s = Ok tt (final (overrideDocWrites s)).
Proof. reflexivity. Qed.

Lemma agree_overridden (s : state) :
  agree s (final (overrideDocWrites s))
  /\ trace (final (overrideDocWrites s)) = trace s.
Proof.
  unfold overrideDocWrites, modify.
  destruct (docWrite s); simpl; destruct (docWriteln s); simpl;
    (split; [|done]; split; try done; exists []; by rewrite app_nil_r).
Qed.

Lemma yieldNext_S (fuel : nat) (s : state) :
  yieldNext (S fuel) s
  = match _scripts s !! next s with
    | Some o =>
        (loadAndYieldNext (yieldNext fuel) o >> ret true) (set_next (S (next s)) s)
    | None => Ok false (set_next (S (next s)) s)
    end.
Proof.
  cbn [yieldNext]. unfold bind at 1, gets at 1. unfold bind at 1, modify at 1.
  unfold bind at 1, gets at 1. cbn [_scripts set_next].
  by destruct (_scripts s !! next s).
Qed.

Lemma yieldNext_inv (t0 : list event) (fuel : nat) : keeps_Inv t0 (yieldNext fuel).
Proof.
  induction fuel as [|fuel IH]; intros s Hr.
  - by apply Ready_Inv.
  - rewrite yieldNext_S.
    destruct Hr as (Hc & Hs & Hch & [Hd Hl] & Hrd & He).
    destruct (_scripts s !! next s) as [o|] eqn:Hlk.
    + rewrite final_bind.
      assert (Hi : Inv t0 (final (loadAndYieldNext (yieldNext fuel) o (set_next (S (next s)) s)))).
      { unfold loadAndYieldNext. rewrite final_bind, overrideDocWrites_ok.
        set (s1 := final (overrideDocWrites _)).
        pose proof (agree_overridden (set_next (S (next s)) s)) as [Ha Et].
        fold s1 in Ha, Et. clearbody s1.
        destruct Ha as [Ha1 Ha2 Ha3 Ha4 Ha5 _].
        cbn [_scripts next scripts handlers fresh trace set_next] in *.
        apply (loadScript_drain_inv t0 _ (next s)); [exact IH| | |].
        - destruct Hc as [Hf Hcc]. split.
          + intros m Hm. rewrite Ha4. apply Hf. lia.
          + intros m. rewrite Ha4, Et. apply Hcc.
        - unfold about_to_load. rewrite Ha1, Ha2, Ha3, Et.
          repeat split; try done. intros m c Hm. apply (Hl m c).
          unfold live_drain in *. by rewrite Ha4 in Hm.
        - destruct He as [t E]. exists t. by rewrite Et. }
      by destruct (loadAndYieldNext _ _ _).
    + cbn [final]. apply lookup_ge_None in Hlk.
      split; [exact Hc|]. split; [|exact He].
      split; [intros H; destruct H; exact Hs|]. split; [exact Hch|].
      left. split; [|exact Hl].
      cbn [trace next _scripts set_next]. rewrite Hd.
      by rewrite !take_ge by lia.
Qed.


(** ** The load handler keeps the invariant *)

Lemma loadHandler_eq (parseHTML : string -> list html) (yn : M bool) (n : nid)
    (readyState : prim) (s : state) :
  loadHandler parseHTML yn n readyState s
  = match handlers s !! n with
    | Some c =>
        if negb (c_done c) && ready readyState then
          try_finally (handleScriptLoaded parseHTML (c_opts c) n)
            (call_end (endFunction yn) (c_opts c) (c_end c))
            (entered n c s)
        else Ok tt s
    | None => Ok tt s
    end.
Proof.
  unfold loadHandler. unfold bind at 1, gets at 1.
  destruct (handlers s !! n) as [c|]; [|done].
  by destruct (negb (c_done c) && ready readyState).
Qed.

Lemma live_drain_entered (n : nid) (c : closure) (s : state) (m : nid) (c' : closure) :
  live_drain (entered n c s) m c' -> m <> n /\ live_drain s m c'.
Proof.
  unfold live_drain, entered. cbn [handlers set_trace set_handlers].
  intros (Hl & Hd & He).
  destruct (decide (n = m)) as [<-|Hne].
  - rewrite lookup_insert_eq in Hl. injection Hl as <-. done.
  - rewrite lookup_insert_ne in Hl by done. done.
Qed.

Lemma runs_snoc_run (n : nid) (t : list event) :
  runs n (t ++ [EvHandler n]) = S (runs n t).
Proof.
  rewrite runs_app. unfold runs at 2. simpl. rewrite Nat.eqb_refl. simpl. lia.
Qed.

Lemma counted_entered (n : nid) (c : closure) (s : state) :
  counted s -> handlers s !! n = Some c -> c_done c = false ->
  counted (entered n c s).
Proof.
  intros [Hf Hc] Hl Hd. split.
  - intros m Hm. cbn [handlers fresh entered set_trace set_handlers] in *.
    rewrite lookup_insert_ne; [by apply Hf|].
    intros ->. by rewrite (Hf m Hm) in Hl.
  - intros m. cbn [handlers trace entered set_trace set_handlers].
    destruct (decide (n = m)) as [<-|Hne].
    + rewrite lookup_insert_eq, runs_snoc_run. simpl.
      specialize (Hc n). rewrite Hl, Hd in Hc. destruct Hc as [-> _]. done.
    + rewrite lookup_insert_ne by done.
      rewrite runs_snoc by (by apply Nat.eqb_neq). apply Hc.
Qed.

Lemma Inv_entered (t0 : list event) (n : nid) (c : closure) (s : state) :
  Inv t0 s -> handlers s !! n = Some c -> c_done c = false ->
  Inv t0 (entered n c s).
Proof.
  intros (Hc & (Hs & Hch & Hd) & He) Hl Hdn.
  split; [by apply counted_entered|]. split; [|by eapply extends_app].
  split; [exact Hs|]. split.
  - cbn [trace entered set_trace]. apply chained_app; [done|]. by constructor.
  - assert (Ed : drain_events (trace (entered n c s)) = drain_events (trace s)).
    { cbn [trace entered set_trace]. rewrite drain_events_snoc. apply app_nil_r. }
    destruct Hd as [[Hd Hlive]|(k & o & m & H1 & H2 & H3 & H4)].
    + left. split; [by rewrite Ed|].
      intros m c' Hm. apply live_drain_entered in Hm as [_ Hm]. by apply (Hlive m c').
    + right. exists k, o, m. rewrite Ed.
      split; [done|]. split; [done|]. split; [done|].
      intros m' c' Hm. apply live_drain_entered in Hm as [_ Hm]. by apply H4.
Qed.

(** When the handler is one of the scheduler's, the load in flight is its
    own, and no other handler of the scheduler waits. *)
Lemma drain_entered (t0 : list event) (n : nid) (c : closure) (s : state) :
  Inv t0 s -> handlers s !! n = Some c -> c_done c = false ->
  c_end c = Some EndDrain ->
  exists k,
    scripts (entered n c s) = None
    /\ _scripts (entered n c s) !! k = Some (c_opts c)
    /\ next (entered n c s) = S k
    /\ drain_events (trace (entered n c s))
       = in_turn (take k (_scripts (entered n c s)))
         ++ [EvLoadScript (c_opts c) (Some EndDrain)]
    /\ (forall m c', ~ live_drain (entered n c s) m c').
Proof.
  intros (Hc & (Hs & Hch & Hd) & He) Hl Hdn Hend.
  assert (Hlive : live_drain s n c) by done.
  destruct Hd as [[Hd Hno]|(k & o & m & H1 & H2 & H3 & H4)]; [by destruct (Hno n c)|].
  destruct (H4 n c Hlive) as [-> <-].
  exists k. cbn [scripts _scripts next trace entered set_trace set_handlers].
  split.
  { destruct (scripts s) eqn:E; [|done].
    destruct Hs as [Hs _]; [done|]. by rewrite Hs in H1. }
  split; [done|]. split; [done|]. split.
  { rewrite drain_events_snoc. cbn [is_drain]. by rewrite app_nil_r. }
  intros m' c' Hm. apply live_drain_entered in Hm as [Hne Hm].
  by destruct (H4 m' c' Hm).
Qed.

(** The body of a load handler, from where it is entered. *)
Lemma handler_body_inv (parseHTML : string -> list html) (t0 : list event)
    (yn : M bool) (n : nid) (c : closure) (s : state) :
  keeps_Inv t0 yn ->
  Inv t0 (entered n c s) ->
  (c_end c = Some EndDrain ->
   exists k,
     scripts (entered n c s) = None
     /\ _scripts (entered n c s) !! k = Some (c_opts c)
     /\ next (entered n c s) = S k
     /\ drain_events (trace (entered n c s))
        = in_turn (take k (_scripts (entered n c s)))
          ++ [EvLoadScript (c_opts c) (Some EndDrain)]
     /\ (forall m c', ~ live_drain (entered n c s) m c')) ->
  Inv t0 (final (try_finally (handleScriptLoaded parseHTML (c_opts c) n)
                   (call_end (endFunction yn) (c_opts c) (c_end c))
                   (entered n c s))).
Proof.
  intros Hyn Hb Hdr.
  rewrite final_try_finally.
  pose proof (final_framed _ (entered n c s)
                (framed_handleScriptLoaded parseHTML (c_opts c) n)) as Ha.
  assert (Hfin : forall s', agree (entered n c s) s' ->
            Inv t0 (final (call_end (endFunction yn) (c_opts c) (c_end c) s'))).
  { intros s' Hag. pose proof (Inv_agree _ _ _ Hb Hag) as Hi'.
    destruct (c_end c) as [k|] eqn:Hend; [|done].
    unfold call_end. rewrite final_bind. unfold log, modify.
    rewrite endFunction_eq.
    set (s2 := set_trace _ s').
    destruct k.
    - rewrite final_then_ret. apply Hyn.
      destruct (Hdr eq_refl) as (k & E1 & E2 & E3 & E4 & E5).
      destruct Hag as [Ha1 Ha2 Ha3 Ha4 Ha5 (t & Et & Hq)].
      destruct Hi' as (Hc' & (_ & Hch' & _) & He').
      assert (Hr : Ready t0 s2).
      { eapply (Ready_ended t0 s' s2 k (c_opts c)); try done.
        - by rewrite Ha3.
        - by rewrite Ha1.
        - by rewrite Ha2.
        - by rewrite Et, drain_events_app, (drain_events_quiet t Hq), app_nil_r, Ha1.
        - intros m c' Hm. apply (E5 m c'). unfold live_drain in *. by rewrite <- Ha4. }
      eapply Ready_agree; [exact Hr|apply agree_restored|].
      unfold restored, restoreDocWrites, modify.
      destruct (docWrite s2); simpl; by destruct (docWriteln s').
    - cbn [final]. eapply Inv_agree; [exact Hi'|].
      eapply agree_trans; [|apply agree_restored].
      split; try done. exists [EvEnd (c_opts c) EndImmediate]. split; [done|].
      by constructor. }
  destruct (handleScriptLoaded parseHTML (c_opts c) n (entered n c s));
    [by apply Hfin|by apply Hfin|by eapply Inv_agree].
Qed.

Lemma loadHandler_inv (parseHTML : string -> list html) (t0 : list event)
    (yn : M bool) (n : nid) (readyState : prim) (s : state) :
  keeps_Inv t0 yn ->
  Inv t0 s ->
  Inv t0 (final (loadHandler parseHTML yn n readyState s)).
Proof.
  intros Hyn Hi. rewrite loadHandler_eq.
  destruct (handlers s !! n) as [c|] eqn:Hl; [|done].
  destruct (negb (c_done c) && ready readyState) eqn:Hgo; [|done].
  apply andb_true_iff in Hgo as [Hdn _]. apply negb_true_iff in Hdn.
  apply handler_body_inv; [done|by apply Inv_entered|].
  intros Hend. by apply (drain_entered t0).
Qed.

(** ** Every step of the page keeps the invariant *)

Lemma framed_call_writer (w : writer) (args : list prim) : framed (call_writer w args).
Proof.
  intros s. destruct w; simpl.
  - split; try done. exists []. by rewrite app_nil_r.
  - unfold tempDocWrite. destruct (truthy _); [|apply agree_refl].
    split; try done. exists []. by rewrite app_nil_r.
  - unfold tempDocWriteln, tempDocWrite. destruct (truthy _); [|apply agree_refl].
    split; try done. exists []. by rewrite app_nil_r.
Qed.

Lemma Inv_enqueued (t0 : list event) (s : state) (l l' : list (gmap string value)) :
  Inv t0 s -> scripts s = Some l -> Inv t0 (set_scripts (Some l') s).
Proof.
  intros (Hc & (Hs & Hch & Hd) & He) Hl.
  split; [exact Hc|]. split; [|exact He].
  split; [|split; [exact Hch|exact Hd]].
  intros _. apply Hs. by rewrite Hl.
Qed.

Lemma submit_inv (stringToInteger : string -> Z) (t0 : list event) (yn : M bool)
    (opts : gmap string value) (s : state) :
  Inv t0 s -> Inv t0 (final (submit stringToInteger yn opts s)).
Proof.
  intros Hi. unfold submit. unfold bind at 1, gets at 1.
  destruct (DOMContentLoaded s).
  - unfold bind at 1, gets at 1. rewrite final_bind.
    pose proof (final_framed _ s (framed_call_writer (doc_write s)
                  [PStr (placeholderMarkup opts)])) as Ha.
    destruct (call_writer _ _ s) as [[] s'|e s'|s']; try (by eapply Inv_agree).
    pose proof (Inv_agree _ _ _ Hi Ha) as Hi'.
    unfold bind, gets. destruct (scripts s') as [l|] eqn:Hl; [|done].
    by eapply Inv_enqueued.
  - rewrite final_bind, overrideDocWrites_ok.
    set (o := if negb _ then _ else _).
    set (s1 := final (overrideDocWrites s)).
    pose proof (agree_overridden s) as [Ha _]. fold s1 in Ha.
    pose proof (Inv_agree _ _ _ Hi Ha) as Hi1.
    assert (Hd : truthyV (prop o "defer") = true).
    { subst o. destruct (negb _).
      - rewrite prop_insert_ne by discriminate. rewrite prop_insert_eq. reflexivity.
      - rewrite prop_insert_eq. reflexivity. }
    destruct (loadScript_deferred yn o (Some EndImmediate) s1 Hd)
      as (s2 & Hq & Hh & Ht & Hf & Hag).
    eapply Inv_agree; [|exact Hag].
    by eapply (Inv_install t0 s1 s2 o (Some EndImmediate)).
Qed.

Lemma script_inv (stringToInteger : string -> Z) (t0 : list event) (yn : M bool)
    (a : argument) (s : state) :
  Inv t0 s -> Inv t0 (final (script stringToInteger yn a s)).
Proof.
  intros Hi. unfold script. rewrite final_bind.
  destruct (prepare a s) as [o s'|e s'|s'] eqn:Hp.
  - apply submit_inv. by destruct (prepare_state _ _ _ _ Hp) as [->| ->].
  - revert Hp. unfold prepare, bind.
    destruct (checkArgs a s) as [a' sa|e' sa|sa] eqn:Hc.
    + apply checkArgs_state in Hc as ->. simpl.
      destruct (completeSrc _ s) as [o1 s1|e1 s1|s1] eqn:Hs.
      * apply completeSrc_state in Hs as ->.
        destruct (truthyV _); [done|]. by unfold _generateId, bind, gets, modify, ret.
      * intros [= _ <-]. revert Hs. unfold completeSrc.
        destruct (truthyV _); [|done]. destruct (prop _ "src") as [[]| |]; try done;
          try (by intros [= _ <-]). by destruct (negb _).
      * done.
    + intros [= _ <-]. revert Hc. unfold checkArgs. destruct a as [p|o].
      * destruct (negb _); [by intros [= _ <-]|]. destruct p; by intros [= _ <-].
      * destruct (negb _); by intros [= _ <-].
    + done.
  - revert Hp. unfold prepare, bind.
    destruct (checkArgs a s) as [a' sa|e' sa|sa] eqn:Hc.
    + apply checkArgs_state in Hc as ->. simpl.
      destruct (completeSrc _ s) as [o1 s1|e1 s1|s1] eqn:Hs.
      * apply completeSrc_state in Hs as ->.
        destruct (truthyV _); [done|]. by unfold _generateId, bind, gets, modify, ret.
      * done.
      * revert Hs. unfold completeSrc.
        destruct (truthyV _); [|done]. destruct (prop _ "src") as [[]| |]; try done.
        by destruct (negb _).
    + done.
    + revert Hc. unfold checkArgs. destruct a as [p|o].
      * destruct (negb _); [done|]. by destruct p.
      * by destruct (negb _).
Qed.

Lemma loadAllScripts_inv (t0 : list event) (s : state) :
  Inv t0 s -> Inv t0 (final (loadAllScripts s)).
Proof.
  intros Hi. unfold loadAllScripts. unfold bind at 1, gets at 1.
  destruct (scripts s) as [l|] eqn:Hl; [|done].
  unfold bind at 1, modify at 1. rewrite final_then_ret.
  apply yieldNext_inv.
  destruct Hi as (Hc & (Hs & Hch & Hd) & He).
  destruct Hs as [Ha Hn]; [by rewrite Hl|].
  assert (Hno : drain_events (trace s) = [] /\ forall m c, ~ live_drain s m c).
  { destruct Hd as [[Hd Hlive]|(k & o & m & H1 & _)].
    - split; [|done]. by rewrite Hd, Ha, take_nil.
    - by rewrite Ha in H1. }
  destruct Hno as [Hd0 Hlive].
  split; [exact Hc|]. split; [done|]. split; [exact Hch|].
  split; [|split; [by left|exact He]].
  split; [|exact Hlive].
  cbn [trace next _scripts set_scripts set_array]. by rewrite Hd0, Hn.
Qed.

Lemma Inv_field (t0 : list event) (s s' : state) :
  Inv t0 s ->
  _scripts s' = _scripts s -> next s' = next s -> scripts s' = scripts s ->
  handlers s' = handlers s -> fresh s' = fresh s -> trace s' = trace s ->
  Inv t0 s'.
Proof.
  intros Hi H1 H2 H3 H4 H5 H6. eapply Inv_agree; [exact Hi|].
  split; try done; [lia|]. exists []. by rewrite app_nil_r.
Qed.

Lemma dispatch_inv (parseHTML : string -> list html) (stringToInteger : string -> Z)
    (t0 : list event) (e : host_event) (s : state) :
  Inv t0 s -> Inv t0 (final (dispatch parseHTML stringToInteger e s)).
Proof.
  intros Hi. destruct e as [a| | |n via rs|args|args]; cbn [dispatch].
  - by apply script_inv.
  - destruct (listening s); [|done].
    unfold onDOMContentLoaded. unfold bind at 1, modify at 1.
    unfold bind at 1, modify at 1. apply loadAllScripts_inv.
    by eapply Inv_field.
  - unfold load. unfold bind at 1, gets at 1.
    destruct (DOMContentLoaded s); [|done].
    unfold bind at 1, modify at 1. apply loadAllScripts_inv.
    by eapply Inv_field.
  - destruct (handlers s !! n) as [c|]; [|done].
    destruct (bound via c); [|done].
    apply loadHandler_inv; [apply yieldNext_inv|done].
  - eapply Inv_agree; [exact Hi|apply framed_call_writer].
  - eapply Inv_agree; [exact Hi|apply framed_call_writer].
Qed.

Lemma run_inv (parseHTML : string -> list html) (stringToInteger : string -> Z)
    (t0 : list event) (evs : list host_event) (s : state) :
  Inv t0 s -> Inv t0 (final (run parseHTML stringToInteger evs s)).
Proof.
  revert s. induction evs as [|e evs IH]; intros s Hi; [done|].
  cbn [run]. pose proof (dispatch_inv parseHTML stringToInteger t0 e s Hi) as Hd.
  destruct (dispatch parseHTML stringToInteger e s); [by apply IH|by apply IH|done].
Qed.

Lemma Inv_init (w wl : writer) (d : dom) (h : nid) : Inv [] (init w wl d h).
Proof.
  split; [|split].
  - split; [done|]. intros n. cbn [handlers init]. by rewrite lookup_empty.
  - split; [done|]. split.
    + intros pre post o E. by destruct pre.
    + left. split; [done|]. intros n c (Hl & _).
      cbn [handlers init] in Hl. by rewrite lookup_empty in Hl.
  - by exists [].
Qed.

(** ** Order of the loads *)

Lemma scheduled_prefix (s : state) :
  scheduled s -> drain_events (trace s) `prefix_of` in_turn (_scripts s).
Proof.
  intros (_ & _ & [[Hd _]|(k & o & m & Hl & _ & Hd & _)]); rewrite Hd.
  - rewrite <- (take_drop (next s) (_scripts s)) at 2. rewrite in_turn_app.
    by apply prefix_app_r.
  - rewrite <- (take_drop_middle _ _ _ Hl) at 2. rewrite in_turn_app. simpl.
    apply prefix_app, prefix_cons, prefix_nil.
Qed.


(** ** Runs of a load handler *)

Lemma counted_runs (s : state) (n : nid) : counted s -> (runs n (trace s) <= 1)%nat.
Proof.
  intros [_ Hc]. specialize (Hc n).
  destruct (handlers s !! n) as [c|]; [|lia].
  destruct Hc as [-> _]. destruct (c_done c); lia.
Qed.

Lemma Inv_rebase (t0 : list event) (s : state) : Inv t0 s -> Inv (trace s) s.
Proof.
  intros (Hc & Hs & _). split; [done|]. split; [done|]. exists []. by rewrite app_nil_r.
Qed.

Lemma extends_runs (n : nid) (t0 : list event) (s : state) :
  extends t0 s -> (runs n t0 <= runs n (trace s))%nat.
Proof. intros [t ->]. rewrite runs_app. lia. Qed.

Lemma run_app (parseHTML : string -> list html) (stringToInteger : string -> Z)
    (evs evs' : list host_event) (s s1 : state) :
  run parseHTML stringToInteger evs s = Ok tt s1 ->
  run parseHTML stringToInteger (evs ++ evs') s
  = run parseHTML stringToInteger evs' s1.
Proof.
  revert s. induction evs as [|e evs IH]; intros s H.
  - by injection H as ->.
  - cbn [run app] in *.
    destruct (dispatch parseHTML stringToInteger e s); [by apply IH|by apply IH|done].
Qed.

(** C8: the body of the load handler of a script element runs at most once,
    whatever signals the host raises; and it has run exactly once as soon as
    one signal of the element comes with no [readyState], or with "loaded"
    or "complete", however many more follow. *)
Theorem handler_runs_once (parseHTML : string -> list html)
    (stringToInteger : string -> Z) (w wl : writer) (d : dom) (h : nid)
    (evs evs' : list host_event) (n : nid) (via : signal) (readyState : prim)
    (s1 : state) (c : closure) :
  (runs n (trace (final (run parseHTML stringToInteger evs (init w wl d h)))) <= 1)%nat
  /\ (run parseHTML stringToInteger evs (init w wl d h) = Ok tt s1 ->
      handlers s1 !! n = Some c ->
      ready readyState = true ->
      runs n (trace (final (run parseHTML stringToInteger
                              (evs ++ Signal n via readyState :: evs')
                              (init w wl d h)))) = 1%nat).
Proof.
  split.
  { apply counted_runs.
    by destruct (run_inv parseHTML stringToInteger [] evs _ (Inv_init w wl d h)). }
  intros Hrun Hl Hrd.
  pose proof (run_inv parseHTML stringToInteger [] evs _ (Inv_init w wl d h)) as Hi.
  rewrite Hrun in Hi. cbn [final] in Hi.
  rewrite (run_app _ _ _ _ _ _ Hrun).
  pose proof (run_inv parseHTML stringToInteger [] (Signal n via readyState :: evs')
                s1 Hi) as (Hc' & _ & _).
  apply Nat.le_antisymm; [by apply counted_runs|].
  cbn [run]. set (e := Signal n via readyState).
  assert (Hstep : Inv [] (final (dispatch parseHTML stringToInteger e s1))
                  /\ (1 <= runs n (trace (final (dispatch parseHTML stringToInteger e s1))))%nat).
  { split; [by apply dispatch_inv|].
    destruct Hi as ([Hf Hc] & Hs & He). pose proof (Hc n) as Hn. rewrite Hl in Hn.
    destruct Hn as [Hruns Hb]. subst e. cbn [dispatch]. rewrite Hl.
    destruct (c_done c) eqn:Hdn.
    - assert (Hsame : final (if bound via c
                             then loadHandler parseHTML (yieldNext (depth s1)) n readyState s1
                             else Ok tt s1) = s1).
      { destruct (bound via c); [|done]. rewrite loadHandler_eq, Hl, Hdn. done. }
      rewrite Hsame, Hruns. lia.
    - destruct (Hb eq_refl) as [Hb1 Hb2].
      assert (Hbd : bound via c = true) by (by destruct via).
      rewrite Hbd, loadHandler_eq, Hl, Hdn, Hrd. cbn [negb andb].
      assert (Hi1 : Inv [] s1) by done.
      pose proof (Inv_rebase _ _ (Inv_entered [] n c s1 Hi1 Hl Hdn)) as Hent.
      pose proof (handler_body_inv parseHTML _ (yieldNext (depth s1)) n c s1
                    (yieldNext_inv _ _) Hent) as Hbody.
      destruct Hbody as (_ & _ & Hext).
      { intros Hend. by apply (drain_entered [] n c s1). }
      apply (extends_runs n) in Hext.
      cbn [trace entered set_trace] in Hext. rewrite runs_snoc_run in Hext. lia. }
  destruct Hstep as [Hi2 Hge].
  destruct (dispatch parseHTML stringToInteger e s1) as [[] s2|e2 s2|s2];
    cbn [final] in *; try done.
  all: pose proof (run_inv parseHTML stringToInteger _ evs' s2 (Inv_rebase _ _ Hi2))
         as (_ & _ & Hext);
       apply (extends_runs n) in Hext; lia.
Qed.


(** ** The worklist is fixed once the scheduler has it *)

Lemma still_framed {A} (c : M A) : framed c -> still c.
Proof. intros H s Hs. destruct (H s) as [H1 _ H3 _ _ _]. by rewrite H3, H1. Qed.

Lemma still_bind {A B} (c : M A) (k : A -> M B) :
  still c -> (forall a, still (k a)) -> still (bind c k).
Proof.
  intros Hc Hk s Hs. rewrite final_bind. specialize (Hc s Hs).
  destruct (c s) as [a s'|e s'|s']; cbn [final] in Hc; try done.
  destruct Hc as [H1 H2]. destruct (Hk a s' H1) as [H3 H4]. by rewrite H3, H4.
Qed.

Lemma still_try_finally {A} (body : M A) (fin : M unit) :
  still body -> still fin -> still (try_finally body fin).
Proof.
  intros Hb Hf s Hs. rewrite final_try_finally. specialize (Hb s Hs).
  destruct (body s) as [a s'|e s'|s']; cbn [final] in Hb; try done.
  all: destruct Hb as [H1 H2]; destruct (Hf s' H1) as [H3 H4]; by rewrite H3, H4.
Qed.

Lemma still_ret {A} (a : A) : still (ret a).
Proof. by intros s Hs. Qed.

Lemma still_modify (f : state -> state) :
  (forall s, scripts (f s) = scripts s /\ _scripts (f s) = _scripts s) ->
  still (modify f).
Proof. intros H s Hs. cbn [final modify]. destruct (H s) as [-> ->]. done. Qed.

Lemma still_restore : still restoreDocWrites.
Proof.
  intros s Hs. unfold restoreDocWrites, modify.
  destruct (docWrite s); simpl; by destruct (docWriteln s).
Qed.

Lemma still_override : still overrideDocWrites.
Proof. apply still_framed. intros s. apply agree_overridden. Qed.

Lemma still_endFunction (yn : M bool) (k : endfn) : still yn -> still (endFunction yn k).
Proof.
  intros Hyn. unfold endFunction.
  apply still_bind; [apply still_restore|]. intros _.
  apply still_bind; [by apply still_modify|]. intros _.
  destruct k; [|apply still_ret].
  apply still_bind; [done|]. intros _. apply still_ret.
Qed.

Lemma still_call_end (yn : M bool) (o : gmap string value) (endF : option endfn) :
  still yn -> still (call_end (endFunction yn) o endF).
Proof.
  intros Hyn. destruct endF as [k|]; [|apply still_ret].
  apply still_bind; [by apply still_modify|]. intros _. by apply still_endFunction.
Qed.

Lemma still_loadScript (yn : M bool) (o : gmap string value) (endF : option endfn) :
  still yn -> still (loadScript yn o endF).
Proof.
  intros Hyn s Hs.
  destruct (truthyV (prop o "defer")) eqn:Hd.
  - destruct (loadScript_deferred yn o endF s Hd)
      as (s1 & (Ha & _ & Hsc) & _ & _ & _ & [H1 _ H3 _ _ _]).
    by rewrite H3, H1, Hsc, Ha.
  - rewrite (loadScript_sync _ _ _ _ Hd).
    set (s0 := set_trace _ s). change (_scripts s) with (_scripts s0).
    apply still_try_finally; [apply still_framed, framed_callbacks| |done].
    unfold cleanup. apply still_bind; [|intros _; by apply still_call_end].
    destruct (getElementById _ _); apply still_framed;
      [apply framed_on_page|apply framed_throw].
Qed.

Lemma still_yieldNext (fuel : nat) : still (yieldNext fuel).
Proof.
  induction fuel as [|fuel IH]; intros s Hs; [done|].
  rewrite yieldNext_S. destruct (_scripts s !! next s) as [o|]; [|done].
  rewrite final_bind.
  assert (H : still (loadAndYieldNext (yieldNext fuel) o)).
  { unfold loadAndYieldNext. apply still_bind; [apply still_override|].
    intros _. by apply still_loadScript. }
  specialize (H (set_next (S (next s)) s) Hs).
  by destruct (loadAndYieldNext _ _ _).
Qed.

Lemma still_loadHandler (parseHTML : string -> list html) (yn : M bool) (n : nid)
    (readyState : prim) :
  still yn -> still (loadHandler parseHTML yn n readyState).
Proof.
  intros Hyn s Hs. rewrite loadHandler_eq.
  destruct (handlers s !! n) as [c|]; [|done].
  destruct (negb (c_done c) && ready readyState); [|done].
  change (_scripts s) with (_scripts (entered n c s)).
  apply still_try_finally;
    [apply still_framed, framed_handleScriptLoaded|by apply still_call_end|done].
Qed.

Lemma still_script (stringToInteger : string -> Z) (yn : M bool) (a : argument) :
  still yn -> still (script stringToInteger yn a).
Proof.
  intros Hyn s Hs. unfold script. rewrite final_bind.
  destruct (prepare a s) as [o s'|e s'|s'] eqn:Hp.
  - assert (Hs' : scripts s' = None /\ _scripts s' = _scripts s).
    { by destruct (prepare_state _ _ _ _ Hp) as [->| ->]. }
    destruct Hs' as [Hs' Ha]. rewrite <- Ha. clear Hp Ha. revert s' Hs'.
    change (still (submit stringToInteger yn o)).
    unfold submit. apply still_bind; [by apply still_framed, framed_gets|].
    intros [|].
    + apply still_bind; [by apply still_framed, framed_gets|]. intros w.
      apply still_bind; [apply still_framed, framed_call_writer|]. intros _.
      intros s' Hs'. unfold bind, gets. by rewrite Hs'.
    + apply still_bind; [apply still_override|]. intros _.
      by apply still_loadScript.
  - revert Hp. unfold prepare, bind.
    destruct (checkArgs a s) as [a' sa|e' sa|sa] eqn:Hc.
    + apply checkArgs_state in Hc as ->. simpl.
      destruct (completeSrc _ s) as [o1 s1|e1 s1|s1] eqn:Hsrc.
      * apply completeSrc_state in Hsrc as ->.
        destruct (truthyV _); [done|]. by unfold _generateId, bind, gets, modify, ret.
      * intros [= _ <-]. revert Hsrc. unfold completeSrc.
        destruct (truthyV _); [|done]. destruct (prop _ "src") as [[]| |]; try done;
          try (by intros [= _ <-]). by destruct (negb _).
      * done.
    + intros [= _ <-]. revert Hc. unfold checkArgs. destruct a as [p|o].
      * destruct (negb _); [by intros [= _ <-]|]. destruct p; by intros [= _ <-].
      * destruct (negb _); by intros [= _ <-].
    + done.
  - revert Hp. unfold prepare, bind.
    destruct (checkArgs a s) as [a' sa|e' sa|sa] eqn:Hc.
    + apply checkArgs_state in Hc as ->. simpl.
      destruct (completeSrc _ s) as [o1 s1|e1 s1|s1] eqn:Hsrc.
      * apply completeSrc_state in Hsrc as ->.
        destruct (truthyV _); [done|]. by unfold _generateId, bind, gets, modify, ret.
      * done.
      * revert Hsrc. unfold completeSrc.
        destruct (truthyV _); [|done]. destruct (prop _ "src") as [[]| |]; try done.
        by destruct (negb _).
    + done.
    + revert Hc. unfold checkArgs. destruct a as [p|o].
      * destruct (negb _); [done|]. by destruct p.
      * by destruct (negb _).
Qed.

Lemma still_dispatch (parseHTML : string -> list html) (stringToInteger : string -> Z)
    (e : host_event) :
  still (dispatch parseHTML stringToInteger e).
Proof.
  intros s Hs. destruct e as [a| | |n via rs|args|args]; cbn [dispatch].
  - apply still_script; [apply still_yieldNext|done].
  - destruct (listening s); [|done].
    unfold onDOMContentLoaded, loadAllScripts, bind, modify, gets. simpl.
    by rewrite Hs.
  - unfold load, loadAllScripts, bind, modify, gets.
    destruct (DOMContentLoaded s); [|done]. simpl. by rewrite Hs.
  - destruct (handlers s !! n) as [c|]; [|done].
    destruct (bound via c); [|done].
    apply still_loadHandler; [apply still_yieldNext|done].
  - apply still_framed; [apply framed_call_writer|done].
  - apply still_framed; [apply framed_call_writer|done].
Qed.

Lemma still_run (parseHTML : string -> list html) (stringToInteger : string -> Z)
    (evs : list host_event) :
  still (run parseHTML stringToInteger evs).
Proof.
  induction evs as [|e evs IH]; intros s Hs; [done|].
  cbn [run]. pose proof (still_dispatch parseHTML stringToInteger e s Hs) as Hd.
  destruct (dispatch parseHTML stringToInteger e s) as [[] s'|e' s'|s'];
    cbn [final] in Hd; try done.
  all: destruct Hd as [H1 H2]; destruct (IH s' H1) as [H3 H4]; by rewrite H3, H4.
Qed.


(** ** The [order] option *)

Lemma call_writer_gate (w : writer) (args : list prim) (s : state) :
  DOMContentLoaded (final (call_writer w args s)) = DOMContentLoaded s
  /\ listening (final (call_writer w args s)) = listening s.
Proof.
  destruct w; simpl; try done.
  - unfold tempDocWrite. by destruct (truthy _).
  - unfold tempDocWriteln, tempDocWrite. by destruct (truthy _).
Qed.

(** A call of [script] while the document is being built. *)
Lemma script_building (stringToInteger : string -> Z) (yn : M bool)
    (args : argument) (o : gmap string value) (s s1 : state)
    (l : list (gmap string value)) :
  DOMContentLoaded s = true ->
  scripts s = Some l ->
  prepare args s = Ok o s1 ->
  exists s',
    script stringToInteger yn args s = Ok tt s'
    /\ scripts s' = Some (enqueue stringToInteger (placeholderAppend o) l)
    /\ DOMContentLoaded s' = true
    /\ listening s' = listening s.
Proof.
  intros Hb Hl Hp.
  assert (H1 : DOMContentLoaded s1 = true /\ scripts s1 = Some l
               /\ listening s1 = listening s).
  { by destruct (prepare_state _ _ _ _ Hp) as [->| ->]. }
  destruct H1 as (Hb1 & Hl1 & Hli).
  eexists. split.
  { unfold script, bind. rewrite Hp. by apply submit_building. }
  destruct (call_writer_gate (doc_write s1) [PStr (placeholderMarkup o)] s1) as [H2 H3].
  cbn [scripts DOMContentLoaded listening set_scripts]. by rewrite H2, H3.
Qed.

Lemma prepare_order (a o : gmap string value) (s s' : state) (z : Z) :
  prepare (ArgObj a) s = Ok o s' ->
  prop a "order" = VPrim (PNum z) ->
  prop (placeholderAppend o) "order" = VPrim (PNum z).
Proof.
  intros Hp Ho.
  destruct (prepare_inv _ _ _ _ Hp) as (a' & o1 & Hc & Hs).
  assert (a' = a) as ->.
  { revert Hc. unfold checkArgs. destruct (negb _); [done|]. by intros [= ->]. }
  destruct (prepare_ok _ _ _ _ Hc Hs) as (o' & s'' & Hp' & Hk & _).
  rewrite Hp in Hp'. injection Hp' as <- <-.
  rewrite placeholderAppend_other by discriminate.
  rewrite Hk by not_listed.
  rewrite (completeSrc_other _ _ _ _ "order" Hs) by discriminate.
  rewrite prop_union_nonnull; by rewrite Ho.
Qed.

Lemma filter_prefix {A} (f : A -> bool) (l k : list A) :
  l `prefix_of` k -> List.filter f l `prefix_of` List.filter f k.
Proof. intros [r ->]. rewrite List.filter_app. by apply prefix_app_r. Qed.

(** C5: a request with [order: 1] and then one with [order: 0], made while
    the document is being built and the worklist is empty, make the worklist
    [order 0; order 1]; that is the worklist the scheduler takes at the
    ready transition, and whatever the host does from there, the loads that
    end are an initial part of: the one of the request with [order: 0], then
    the one of the request with [order: 1]. *)
Theorem order_zero_first (parseHTML : string -> list html)
    (stringToInteger : string -> Z) (w wl : writer) (d : dom) (h : nid)
    (a b pa pb : gmap string value) (sa sb : state) (evs : list host_event) :
  prop a "order" = VPrim (PNum 1) ->
  prop b "order" = VPrim (PNum 0) ->
  prepare (ArgObj a) (init w wl d h) = Ok pa sa ->
  prepare (ArgObj b)
    (final (run parseHTML stringToInteger [Call (ArgObj a)] (init w wl d h)))
  = Ok pb sb ->
  scripts (final (run parseHTML stringToInteger
                    [Call (ArgObj a); Call (ArgObj b)] (init w wl d h)))
  = Some [placeholderAppend pb; placeholderAppend pa]
  /\ _scripts (final (run parseHTML stringToInteger
                       (Call (ArgObj a) :: Call (ArgObj b) :: DocumentReady :: evs)
                       (init w wl d h)))
     = [placeholderAppend pb; placeholderAppend pa]
  /\ List.filter is_end
       (drain_events (trace (final (run parseHTML stringToInteger
                       (Call (ArgObj a) :: Call (ArgObj b) :: DocumentReady :: evs)
                       (init w wl d h)))))
     `prefix_of` [EvEnd (placeholderAppend pb) EndDrain;
                  EvEnd (placeholderAppend pa) EndDrain].
Proof.
  intros Ha Hb Hpa Hpb.
  set (s0 := init w wl d h) in *.
  destruct (script_building stringToInteger (yieldNext (depth s0)) (ArgObj a) pa s0 sa []
              eq_refl eq_refl Hpa) as (sA & HA & HlA & HbA & HliA).
  assert (EA : run parseHTML stringToInteger [Call (ArgObj a)] s0 = Ok tt sA).
  { cbn [run dispatch]. by rewrite HA. }
  rewrite EA in Hpb. cbn [final] in Hpb.
  assert (HqA : enqueue stringToInteger (placeholderAppend pa) [] = [placeholderAppend pa]).
  { unfold enqueue. by rewrite (prepare_order _ _ _ _ _ Hpa Ha). }
  rewrite HqA in HlA.
  destruct (script_building stringToInteger (yieldNext (depth sA)) (ArgObj b) pb sA sb _
              HbA HlA Hpb) as (sB & HB & HlB & HbB & HliB).
  assert (HqB : enqueue stringToInteger (placeholderAppend pb) [placeholderAppend pa]
                = [placeholderAppend pb; placeholderAppend pa]).
  { unfold enqueue. by rewrite (prepare_order _ _ _ _ _ Hpb Hb). }
  rewrite HqB in HlB.
  assert (EB : run parseHTML stringToInteger [Call (ArgObj a); Call (ArgObj b)] s0
               = Ok tt sB).
  { change [Call (ArgObj a); Call (ArgObj b)] with ([Call (ArgObj a)] ++ [Call (ArgObj b)]).
    rewrite (run_app _ _ _ _ _ _ EA). cbn [run dispatch]. by rewrite HB. }
  split; [by rewrite EB|].
  change (Call (ArgObj a) :: Call (ArgObj b) :: DocumentReady :: evs)
    with ([Call (ArgObj a); Call (ArgObj b)] ++ DocumentReady :: evs).
  pose proof (run_inv parseHTML stringToInteger []
                ([Call (ArgObj a); Call (ArgObj b)] ++ DocumentReady :: evs) s0
                (Inv_init w wl d h)) as (_ & Hsch & _).
  apply scheduled_prefix in Hsch.
  rewrite (run_app _ _ _ _ _ _ EB) in *.
  assert (Hw : _scripts (final (run parseHTML stringToInteger (DocumentReady :: evs) sB))
               = [placeholderAppend pb; placeholderAppend pa]).
  { cbn [run dispatch]. rewrite HliB, HliA. cbn [listening s0 init].
    unfold onDOMContentLoaded. unfold bind at 1, modify at 1.
    unfold bind at 1, modify at 1. unfold loadAllScripts.
    unfold bind at 1, gets at 1. cbn [scripts set_DOMContentLoaded set_listening].
    rewrite HlB. unfold bind at 1, modify at 1.
    set (s1 := set_scripts None _).
    pose proof (still_yieldNext (S (length [placeholderAppend pb; placeholderAppend pa]))
                  s1 eq_refl) as Hy.
    rewrite <- (final_then_ret (yieldNext _) s1) in Hy.
    destruct ((do _ <- yieldNext _ in ret tt) s1) as [[] s2|e s2|s2];
      cbn [final] in Hy; destruct Hy as [Hy1 Hy2]; [| |done].
    all: destruct (still_run parseHTML stringToInteger evs s2 Hy1) as [_ ->]; done. }
  split; [exact Hw|].
  rewrite Hw in Hsch. by apply (filter_prefix is_end) in Hsch.
Qed.


(** ** The saved write entry points *)

Lemma keeps_saved_ret {A} (a : A) : keeps_saved (ret a).
Proof. by intros s. Qed.

Lemma keeps_saved_throw {A} (e : prim) : keeps_saved (@throw A e).
Proof. by intros s. Qed.

Lemma keeps_saved_gets {A} (f : state -> A) : keeps_saved (gets f).
Proof. by intros s. Qed.

Lemma keeps_saved_modify (f : state -> state) :
  (forall s, saved (f s) = saved s) -> keeps_saved (modify f).
Proof. intros H s. apply H. Qed.

Lemma keeps_saved_bind {A B} (c : M A) (k : A -> M B) :
  keeps_saved c -> (forall a, keeps_saved (k a)) -> keeps_saved (bind c k).
Proof.
  intros Hc Hk s. rewrite final_bind. specialize (Hc s).
  destruct (c s) as [a s'|e s'|s']; try done. cbn [final] in Hc.
  by rewrite Hk.
Qed.

Lemma keeps_saved_when (b : bool) (c : M unit) : keeps_saved c -> keeps_saved (when b c).
Proof. destruct b; [done|]. intros _. apply keeps_saved_ret. Qed.

Lemma keeps_saved_on_page (f : dom -> dom) : keeps_saved (on_page f).
Proof. by apply keeps_saved_modify. Qed.

Lemma keeps_saved_log (e : event) : keeps_saved (log e).
Proof. by apply keeps_saved_modify. Qed.

Lemma keeps_saved_new_element (tag : string) : keeps_saved (new_element tag).
Proof. by intros s. Qed.

Lemma keeps_saved_call_value (f : value) (this : option nid) (a : carg) :
  keeps_saved (call_value f this a).
Proof.
  intros s. unfold call_value. destruct f as [p|n|g]; try done.
  by destruct (g this a _) as [w [v|e]].
Qed.

Lemma keeps_saved_appendNode (script node : nid) : keeps_saved (appendNode script node).
Proof.
  unfold appendNode. apply keeps_saved_bind; [apply keeps_saved_gets|].
  intros [p|]; [apply keeps_saved_on_page|apply keeps_saved_throw].
Qed.

Lemma keeps_saved_moveChildren (budget : nat) (script div : nid) :
  keeps_saved (moveChildren budget script div).
Proof.
  induction budget as [|b IH]; simpl.
  - apply keeps_saved_bind; [apply keeps_saved_gets|].
    intros [k|]; [|apply keeps_saved_ret]. by intros s.
  - apply keeps_saved_bind; [apply keeps_saved_gets|].
    intros [k|]; [|apply keeps_saved_ret].
    apply keeps_saved_bind; [apply keeps_saved_on_page|]. intros _.
    apply keeps_saved_bind; [apply keeps_saved_appendNode|]. intros _. exact IH.
Qed.

Lemma keeps_saved_set_innerHTML (parseHTML : string -> list html) (h : nid)
    (text : string) :
  keeps_saved (set_innerHTML parseHTML h text).
Proof.
  intros s. unfold set_innerHTML.
  by destruct (install_all (parseHTML text) (fresh s) (page s)) as [[ks h'] d1].
Qed.

Lemma keeps_saved_handleScriptLoaded (parseHTML : string -> list html)
    (opts : gmap string value) (script : nid) :
  keeps_saved (handleScriptLoaded parseHTML opts script).
Proof.
  unfold handleScriptLoaded.
  apply keeps_saved_bind.
  { destruct (truthyV (prop opts "loaded")); [|apply keeps_saved_ret].
    apply keeps_saved_bind; [apply keeps_saved_gets|]. intros w.
    apply keeps_saved_bind; [apply keeps_saved_log|]. intros _.
    apply keeps_saved_bind; [apply keeps_saved_call_value|]. intros r.
    apply keeps_saved_ret. }
  intros [|]; [apply keeps_saved_ret|].
  apply keeps_saved_bind; [apply keeps_saved_gets|]. intros div0.
  apply keeps_saved_bind; [apply keeps_saved_gets|]. intros w.
  apply keeps_saved_bind.
  { destruct w as [l|]; [|apply keeps_saved_ret].
    apply keeps_saved_bind.
    { destruct div0 as [d|]; [apply keeps_saved_ret|].
      apply keeps_saved_bind; [apply keeps_saved_new_element|]. intros d.
      apply keeps_saved_bind; [apply keeps_saved_appendNode|]. intros _.
      apply keeps_saved_ret. }
    intros div.
    apply keeps_saved_bind; [apply keeps_saved_on_page|]. intros _.
    apply keeps_saved_bind; [apply keeps_saved_set_innerHTML|]. intros _.
    apply keeps_saved_bind; [apply keeps_saved_gets|]. intros n.
    apply keeps_saved_bind; [apply keeps_saved_moveChildren|]. intros _.
    apply keeps_saved_ret. }
  intros div.
  apply keeps_saved_bind.
  { destruct div as [d|]; [|apply keeps_saved_ret].
    apply keeps_saved_bind; [apply keeps_saved_gets|].
    intros [p|]; [apply keeps_saved_on_page|apply keeps_saved_throw]. }
  intros _. apply keeps_saved_when.
  apply keeps_saved_bind; [apply keeps_saved_log|]. intros _.
  apply keeps_saved_bind; [apply keeps_saved_call_value|]. intros r.
  apply keeps_saved_ret.
Qed.

Lemma keeps_saved_call_writer (w : writer) (args : list prim) :
  keeps_saved (call_writer w args).
Proof.
  intros s. destruct w; simpl; try done.
  - unfold tempDocWrite. by destruct (truthy _).
  - unfold tempDocWriteln, tempDocWrite. by destruct (truthy _).
Qed.

Lemma keeps_saved_loadScript_deferred (yn : M bool) (o : gmap string value)
    (endF : option endfn) :
  truthyV (prop o "defer") = true -> keeps_saved (loadScript yn o endF).
Proof.
  intros Hd. unfold loadScript. rewrite Hd.
  apply keeps_saved_bind; [apply keeps_saved_log|]. intros _.
  apply keeps_saved_bind; [apply keeps_saved_new_element|]. intros n.
  apply keeps_saved_bind; [apply keeps_saved_on_page|]. intros _.
  apply keeps_saved_bind; [apply keeps_saved_when, keeps_saved_on_page|]. intros _.
  apply keeps_saved_bind; [apply keeps_saved_when, keeps_saved_on_page|]. intros _.
  apply keeps_saved_bind; [by apply keeps_saved_modify|]. intros _.
  apply keeps_saved_bind; [apply keeps_saved_call_value|]. intros _.
  apply keeps_saved_ret.
Qed.

(** The writes of the script being loaded leave the handlers and the saved
    originals as they are. *)
Lemma writes_leave (parseHTML : string -> list html) (stringToInteger : string -> Z)
    (ws : list host_event) (s : state) :
  Forall (fun e => is_write e = true) ws ->
  handlers (final (run parseHTML stringToInteger ws s)) = handlers s
  /\ saved (final (run parseHTML stringToInteger ws s)) = saved s
  /\ fresh (final (run parseHTML stringToInteger ws s)) = fresh s.
Proof.
  intros H. revert s. induction H as [|e ws He _ IH]; intros s; [done|].
  cbn [run].
  assert (Hd : handlers (final (dispatch parseHTML stringToInteger e s)) = handlers s
               /\ saved (final (dispatch parseHTML stringToInteger e s)) = saved s
               /\ fresh (final (dispatch parseHTML stringToInteger e s)) = fresh s).
  { destruct e as [a| | |n via rs|args|args]; try done; cbn [dispatch].
    - destruct (doc_write s); simpl; try done.
      + unfold tempDocWrite. by destruct (truthy _).
      + unfold tempDocWriteln, tempDocWrite. by destruct (truthy _).
    - destruct (doc_writeln s); simpl; try done.
      + unfold tempDocWrite. by destruct (truthy _).
      + unfold tempDocWriteln, tempDocWrite. by destruct (truthy _). }
  destruct (dispatch parseHTML stringToInteger e s) as [[] s'|e' s'|s'];
    cbn [final] in Hd; try done.
  all: destruct Hd as (H1 & H2 & H3); destruct (IH s') as (H4 & H5 & H6);
       by rewrite H4, H5, H6.
Qed.

(** The continuation restores the entry points that were saved, and clears
    the buffer, before anything else. *)
Lemma restored_originals (s : state) (w wl : writer) :
  saved s = (Some w, Some wl) ->
  doc_write (restored s) = w
  /\ doc_writeln (restored s) = wl
  /\ writes (restored s) = None
  /\ docWrite (restored s) = None
  /\ docWriteln (restored s) = None.
Proof.
  unfold saved. intros [= H1 H2]. unfold restored, restoreDocWrites, modify.
  rewrite H1. simpl. by rewrite H2.
Qed.

Lemma handler_restores (parseHTML : string -> list html) (yn : M bool) (n : nid)
    (c : closure) (k : endfn) (readyState : prim) (s : state) (w wl : writer) :
  handlers s !! n = Some c ->
  c_done c = false ->
  c_end c = Some k ->
  ready readyState = true ->
  saved s = (Some w, Some wl) ->
  saved (set_trace
           (trace (final (handleScriptLoaded parseHTML (c_opts c) n (entered n c s)))
              ++ [EvEnd (c_opts c) k])
           (final (handleScriptLoaded parseHTML (c_opts c) n (entered n c s))))
  = (Some w, Some wl)
  /\ loadHandler parseHTML yn n readyState s
     = match handleScriptLoaded parseHTML (c_opts c) n (entered n c s) with
       | Ok _ s1 =>
           resume yn k (restored (set_trace (trace s1 ++ [EvEnd (c_opts c) k]) s1))
       | Err e s1 =>
           after_throw e
             (resume yn k (restored (set_trace (trace s1 ++ [EvEnd (c_opts c) k]) s1)))
       | Gas s1 => Gas s1
       end.
Proof.
  intros Hl Hd He Hr Hs. split.
  - pose proof (keeps_saved_handleScriptLoaded parseHTML (c_opts c) n (entered n c s)) as H.
    unfold saved in *. cbn [docWrite docWriteln set_trace entered set_handlers] in *.
    congruence.
  - rewrite loadHandler_eq, Hl, Hd, Hr. cbn [negb andb]. unfold try_finally.
    rewrite He.
    destruct (handleScriptLoaded parseHTML (c_opts c) n (entered n c s)) as [[] s1|e s1|s1];
      [| |done].
    + unfold call_end, bind at 1, log, modify. rewrite endFunction_eq.
      unfold resume. destruct k; [|done].
      by destruct ((do _ <- yn in ret tt) _) as [[] s2|e2 s2|s2].
    + unfold call_end, bind at 1, log, modify. rewrite endFunction_eq.
      unfold resume, after_throw. destruct k; [|done].
      by destruct ((do _ <- yn in ret tt) _) as [[] s2|e2 s2|s2].
Qed.


Lemma trace_restored (s : state) : trace (restored s) = trace s.
Proof.
  unfold restored, restoreDocWrites, modify.
  destruct (docWrite s); simpl; by destruct (docWriteln s).
Qed.

(** C3: a deferred load of the scheduler, begun where nothing is
    intercepted, whatever the script writes while it loads and whatever the
    callbacks do: when its load signal comes and the replay ends (by
    returning, after the replay or after a veto of [loaded], or by
    throwing), [document.write] and [document.writeln] are what they were
    before the load began, the saved copies and the capture buffer are
    [null], and only then does the continuation go on to the next request
    ([yn]). *)
Theorem load_cycle_restores (parseHTML : string -> list html)
    (stringToInteger : string -> Z) (yn0 yn : M bool) (o : gmap string value)
    (s0 s1 : state) (ws : list host_event) (readyState : prim) :
  docWrite s0 = None ->
  docWriteln s0 = None ->
  truthyV (prop o "defer") = true ->
  loadAndYieldNext yn0 o s0 = Ok tt s1 ->
  Forall (fun e => is_write e = true) ws ->
  ready readyState = true ->
  exists c,
    handlers (final (run parseHTML stringToInteger ws s1)) !! fresh s0 = Some c
    /\ c_opts c = o
    /\ match handleScriptLoaded parseHTML o (fresh s0)
               (entered (fresh s0) c (final (run parseHTML stringToInteger ws s1))) with
       | Ok _ s3 =>
           exists mid,
             (doc_write mid = doc_write s0 /\ doc_writeln mid = doc_writeln s0
              /\ writes mid = None /\ docWrite mid = None /\ docWriteln mid = None)
             /\ trace mid = trace s3 ++ [EvEnd o EndDrain]
             /\ loadHandler parseHTML yn (fresh s0) readyState
                  (final (run parseHTML stringToInteger ws s1))
                = resume yn EndDrain mid
       | Err e s3 =>
           exists mid,
             (doc_write mid = doc_write s0 /\ doc_writeln mid = doc_writeln s0
              /\ writes mid = None /\ docWrite mid = None /\ docWriteln mid = None)
             /\ trace mid = trace s3 ++ [EvEnd o EndDrain]
             /\ loadHandler parseHTML yn (fresh s0) readyState
                  (final (run parseHTML stringToInteger ws s1))
                = after_throw e (resume yn EndDrain mid)
       | Gas s3 =>
           loadHandler parseHTML yn (fresh s0) readyState
             (final (run parseHTML stringToInteger ws s1))
           = Gas s3
       end.
Proof.
  intros Hw Hwl Hd Hload Hws Hr.
  set (s0' := final (overrideDocWrites s0)).
  assert (Hs0' : saved s0' = (Some (doc_write s0), Some (doc_writeln s0))
                 /\ fresh s0' = fresh s0).
  { subst s0'. unfold overrideDocWrites, modify, saved. rewrite Hw. simpl. by rewrite Hwl. }
  destruct Hs0' as [Hsv Hfr].
  assert (E : loadScript yn0 o (Some EndDrain) s0' = Ok tt s1).
  { revert Hload. unfold loadAndYieldNext. unfold bind at 1.
    by rewrite overrideDocWrites_ok. }
  destruct (loadScript_deferred yn0 o (Some EndDrain) s0' Hd)
    as (s1' & _ & Hh & _ & _ & Hag).
  pose proof (keeps_saved_loadScript_deferred yn0 o (Some EndDrain) Hd s0') as Hks.
  rewrite E in Hag, Hks. cbn [final] in Hag, Hks.
  destruct (writes_leave parseHTML stringToInteger ws s1 Hws) as (H1 & H2 & _).
  set (s2 := final (run parseHTML stringToInteger ws s1)) in *.
  set (c := fresh_closure o (Some EndDrain)).
  assert (Hl : handlers s2 !! fresh s0 = Some c).
  { rewrite H1. destruct Hag as [_ _ _ Hh' _ _]. rewrite Hh', Hh, Hfr.
    apply lookup_insert_eq. }
  assert (Hs2 : saved s2 = (Some (doc_write s0), Some (doc_writeln s0))).
  { rewrite H2, Hks. exact Hsv. }
  exists c. split; [exact Hl|]. split; [done|].
  destruct (handler_restores parseHTML yn (fresh s0) c EndDrain readyState s2 _ _
              Hl eq_refl eq_refl Hr Hs2) as [Hsv' Heq].
  change (c_opts c) with o in *.
  destruct (handleScriptLoaded parseHTML o (fresh s0) (entered (fresh s0) c s2))
    as [[] s3|e s3|s3]; cbn [final] in Hsv'; [| |done].
  - eexists. split; [by apply restored_originals|]. split; [|exact Heq].
    by rewrite trace_restored.
  - eexists. split; [by apply restored_originals|]. split; [|exact Heq].
    by rewrite trace_restored.
Qed.

(** ** Synchronous mode *)

Lemma get_set_prop (n : nid) (name : string) (v : prim) (d : dom) :
  get_prop n name (set_prop n name v d) = v.
Proof.
  unfold get_prop, set_prop. cbn [props set_props].
  by rewrite lookup_insert_eq; simpl; rewrite lookup_insert_eq.
Qed.

(** The callbacks return or throw. *)
Lemma callbacks_end (o : gmap string value) (el : option nid) (s : state) :
  forall sg, callbacks o el s <> Gas sg.
Proof.
  intros sg. unfold callbacks, when, bind, log, modify, ret, call_value.
  destruct (truthyV (prop o "loaded")).
  - destruct (prop o "loaded") as [p|m|g]; try done.
    destruct (g el CNone _) as [w1 [v1|e1]]; [|done].
    destruct (truthyV (prop o "complete")); [|done].
    destruct (prop o "complete") as [p|m|g']; try done.
    by destruct (g' el CNone _) as [w2 [v2|e2]].
  - destruct (truthyV (prop o "complete")); [|done].
    destruct (prop o "complete") as [p|m|g']; try done.
    by destruct (g' el CNone _) as [w2 [v2|e2]].
Qed.


(** ** The veto of [loaded] *)

(** When [loaded] returns [false], the handler returns at once: nothing is
    looked up or moved, and [complete] is not called. *)
Lemma veto_returns_early (parseHTML : string -> list html) (o : gmap string value)
    (n : nid) (s : state) (f : jsfun) (w : world) :
  prop o "loaded" = VFun f ->
  f (Some n) (match writes s with Some l => CWrites l | None => CNone end)
    {| w_writes := writes s; w_dom := page s |} = (w, Returned (PBool false)) ->
  handleScriptLoaded parseHTML o n s
  = Ok tt (set_page (w_dom w) (set_writes (w_writes w)
             (set_trace (trace s ++ [EvLoaded o (writes s)]) s))).
Proof.
  intros Hf Hv. unfold handleScriptLoaded. rewrite Hf. cbn [truthyV].
  unfold bind, gets, log, modify, call_value, ret.
  cbn [writes page set_trace]. by rewrite Hv.
Qed.

(** ** The recursion budget of [yieldNext] *)

(** [loadScript] uses its continuation only where the worklist and [next]
    are as they are when it is called. *)
Lemma loadScript_ext (yn1 yn2 : M bool) (o : gmap string value)
    (endF : option endfn) (s : state) :
  (forall s', _scripts s' = _scripts s -> next s' = next s -> yn1 s' = yn2 s') ->
  loadScript yn1 o endF s = loadScript yn2 o endF s.
Proof.
  intros H. destruct (truthyV (prop o "defer")) eqn:Hd.
  - unfold loadScript. by rewrite Hd.
  - rewrite !(loadScript_sync _ _ _ _ Hd). unfold try_finally.
    set (s0 := set_trace _ s). set (el := getElementById _ _).
    pose proof (final_framed (callbacks o el) s0 (framed_callbacks o el)) as Ha.
    assert (Hc : forall s1, agree s0 s1 ->
              cleanup yn1 o endF el s1 = cleanup yn2 o endF el s1).
    { intros s1 [Ha1 Ha2 _ _ _ _]. destruct el as [n|]; [|done].
      destruct endF as [k|]; [|done]. rewrite !cleanup_found, !endFunction_eq.
      destruct k; [|done]. unfold bind. rewrite H; [done| |].
      - destruct (agree_restored (set_trace (trace s1 ++ [EvEnd o EndDrain])
                    (set_page (set_prop n "id" PNull (page s1)) s1))) as [-> _ _ _ _ _].
        exact Ha1.
      - destruct (agree_restored (set_trace (trace s1 ++ [EvEnd o EndDrain])
                    (set_page (set_prop n "id" PNull (page s1)) s1))) as [_ -> _ _ _ _].
        exact Ha2. }
    destruct (callbacks o el s0) as [a s1|e s1|s1]; [| |done]; by rewrite Hc.
Qed.

(** Two budgets that are enough give the same run. *)
Lemma yieldNext_fuel (f1 f2 : nat) (s : state) :
  enough f1 s -> enough f2 s -> yieldNext f1 s = yieldNext f2 s.
Proof.
  revert f2 s. induction f1 as [|f1 IH]; intros f2 s H1 H2; [by inversion H1|].
  destruct f2 as [|f2]; [by inversion H2|].
  rewrite !yieldNext_S. destruct (_scripts s !! next s) as [o|] eqn:Hl; [|done].
  apply lookup_lt_Some in Hl.
  unfold loadAndYieldNext, bind. rewrite overrideDocWrites_ok.
  set (s1 := final (overrideDocWrites _)).
  destruct (agree_overridden (set_next (S (next s)) s)) as [[Ha1 Ha2 _ _ _ _] _].
  fold s1 in Ha1, Ha2. cbn [_scripts next set_next] in Ha1, Ha2.
  rewrite (loadScript_ext (yieldNext f1) (yieldNext f2)); [done|].
  intros s' E1 E2. apply IH; unfold enough in *; rewrite E1, E2, Ha1, Ha2; lia.
Qed.

(** The budgets the page uses are enough. *)
Lemma depth_enough (s : state) : enough (depth s) s.
Proof. unfold enough, depth. lia. Qed.

(** ** The veto of [loaded] (C1) *)

(** C1, amended: when the [loaded] callback of a deferred load returns
    [false], the load handler does nothing but call [loaded] and then the
    continuation, once: the placeholder is not looked up, no node is moved or
    removed (the tree is as the callback left it), and [complete] is not
    called. *)
Theorem veto_skips_replay (parseHTML : string -> list html) (yn : M bool)
    (n : nid) (c : closure) (k : endfn) (readyState : prim) (s : state)
    (f : jsfun) (w : world) :
  handlers s !! n = Some c ->
  c_done c = false ->
  c_end c = Some k ->
  ready readyState = true ->
  prop (c_opts c) "loaded" = VFun f ->
  f (Some n) (match writes s with Some l => CWrites l | None => CNone end)
    {| w_writes := writes s; w_dom := page s |} = (w, Returned (PBool false)) ->
  exists mid,
    loadHandler parseHTML yn n readyState s = endFunction yn k mid
    /\ trace mid = trace s ++ [EvHandler n; EvLoaded (c_opts c) (writes s);
                               EvEnd (c_opts c) k]
    /\ page mid = w_dom w.
Proof.
  intros Hl Hd He Hr Hf Hv.
  rewrite loadHandler_eq, Hl, Hd, Hr. cbn [negb andb]. unfold try_finally.
  rewrite (veto_returns_early parseHTML (c_opts c) n (entered n c s) f w Hf Hv).
  rewrite He. unfold call_end, bind at 1, log, modify. cbv beta iota.
  lazymatch goal with
  | |- exists mid, match endFunction yn k ?st with _ => _ end = _ /\ _ => exists st
  end.
  split; [by destruct (endFunction yn k _) as [[] s2|e2 s2|s2]|].
  cbn [trace page writes set_trace set_page set_writes entered set_handlers].
  by rewrite <- !app_assoc.
Qed.

(** * The claims at concrete pages *)

Lemma order_zero_first_witness :
  List.filter is_end
    (drain_events (trace (final (run parse_text integer_zero
       (Call (ArgObj request_a) :: Call (ArgObj request_b) :: DocumentReady
        :: [Signal 5%nat OnLoad PUndef; Signal 6%nat OnLoad PUndef])
       begin_a))))
  `prefix_of` [EvEnd (placeholderAppend (fst (prepared (ArgObj request_b) after_a))) EndDrain;
               EvEnd (placeholderAppend (fst (prepared (ArgObj request_a) begin_a))) EndDrain]
  /\ map src_of
       (List.filter is_end
          (trace (final (run parse_text integer_zero
             (Call (ArgObj request_a) :: Call (ArgObj request_b) :: DocumentReady
              :: [Signal 5%nat OnLoad PUndef; Signal 6%nat OnLoad PUndef])
             begin_a))))
     = ["b.js"; "a.js"].
Proof.
  split; [|by vm_compute].
  apply (order_zero_first parse_text integer_zero (Native false) (Native true)
           page_placeholders 5%nat request_a request_b
           (fst (prepared (ArgObj request_a) begin_a))
           (fst (prepared (ArgObj request_b) after_a))
           (snd (prepared (ArgObj request_a) begin_a))
           (snd (prepared (ArgObj request_b) after_a))
           [Signal 5%nat OnLoad PUndef; Signal 6%nat OnLoad PUndef]).
  - reflexivity.
  - reflexivity.
  - by vm_compute.
  - by vm_compute.
Defined.

(** The claim C1 as the specification has it, on a page: with a [loaded]
    that returns [false], the load handler calls [loaded], then the
    continuation, and nothing in between: [complete] is not called (with a
    [loaded] that returns nothing it is), and the tree is as it was when the
    script had been appended. *)
Lemma veto_skips_complete :
  map event_name (trace (final (run parse_text integer_zero (veto_run request_veto) start)))
  = ["loadScript"; "handler"; "loaded"; "endFunction"]
  /\ map event_name (trace (final (run parse_text integer_zero (veto_run request_plain) start)))
     = ["loadScript"; "handler"; "loaded"; "complete"; "endFunction"]
  /\ page (final (run parse_text integer_zero (veto_run request_veto) start))
     = page (final (run parse_text integer_zero
                      [DocumentReady; Call (ArgObj request_veto)] start)).
Proof. by vm_compute. Qed.

Lemma load_cycle_restores_witness :
  exists c,
    handlers (final (run parse_text integer_zero [DocWrite [PStr "<b>x</b>"]]
                (final (loadAndYieldNext (ret false) request_early start))))
      !! fresh start = Some c
    /\ c_opts c = request_early.
Proof.
  destruct (load_cycle_restores parse_text integer_zero (ret false) (ret false)
              request_early start
              (final (loadAndYieldNext (ret false) request_early start))
              [DocWrite [PStr "<b>x</b>"]] PUndef)
    as (c & Hl & Hc & _).
  - reflexivity.
  - reflexivity.
  - reflexivity.
  - by vm_compute.
  - repeat constructor.
  - reflexivity.
  - by exists c.
Defined.


Lemma handler_runs_once_witness :
  runs 3%nat
    (trace (final (run parse_text integer_zero
       ([DocumentReady; Call (ArgObj request_plain)]
        ++ Signal 3%nat OnLoad PUndef
        :: [Signal 3%nat OnReadyStateChange (PStr "loaded");
            Signal 3%nat OnReadyStateChange (PStr "complete");
            Signal 3%nat OnLoad PUndef])
       start)))
  = 1%nat.
Proof.
  destruct (handlers (final (run parse_text integer_zero
                               [DocumentReady; Call (ArgObj request_plain)] start))
              !! 3%nat) as [c|] eqn:Hc; [|by vm_compute in Hc].
  apply (handler_runs_once parse_text integer_zero (Native false) (Native true)
           page0 3%nat [DocumentReady; Call (ArgObj request_plain)]
           [Signal 3%nat OnReadyStateChange (PStr "loaded");
            Signal 3%nat OnReadyStateChange (PStr "complete");
            Signal 3%nat OnLoad PUndef]
           3%nat OnLoad PUndef
           (final (run parse_text integer_zero
                     [DocumentReady; Call (ArgObj request_plain)] start)) c).
  - by vm_compute.
  - exact Hc.
  - reflexivity.
Defined.

Lemma veto_skips_replay_witness :
  exists mid,
    loadHandler parse_text (ret false) 3%nat PUndef veto_state
    = endFunction (ret false) EndImmediate mid
    /\ map event_name (trace mid)
       = ["loadScript"; "handler"; "loaded"; "endFunction"]
    /\ page mid = page veto_state.
Proof.
  destruct (veto_skips_replay parse_text (ret false) 3%nat veto_closure EndImmediate
              PUndef veto_state (returning (PBool false))
              {| w_writes := writes veto_state; w_dom := page veto_state |})
    as (mid & Hm & Ht & Hp).
  - by vm_compute.
  - reflexivity.
  - reflexivity.
  - reflexivity.
  - by vm_compute.
  - reflexivity.
  - exists mid. split; [exact Hm|]. split; [|exact Hp].
    rewrite Ht. by vm_compute.
Defined.

(** * Further properties of the loader *)

(** ** Assertions every step keeps *)

Section Keeps.

Variable P : state -> Prop.

Lemma keeps_ret {A} (a : A) : keeps P (ret a).
Proof. by intros s. Qed.

Lemma keeps_throw {A} (e : prim) : keeps P (@throw A e).
Proof. by intros s. Qed.

Lemma keeps_gets {A} (f : state -> A) : keeps P (gets f).
Proof. by intros s. Qed.

Lemma keeps_bind {A B} (c : M A) (k : A -> M B) :
  keeps P c -> (forall a, keeps P (k a)) -> keeps P (bind c k).
Proof.
  intros Hc Hk s Hs. rewrite final_bind. specialize (Hc s Hs).
  destruct (c s) as [a s'|e s'|s']; cbn [final] in Hc; try done.
  by apply Hk.
Qed.

Lemma keeps_try_finally {A} (body : M A) (fin : M unit) :
  keeps P body -> keeps P fin -> keeps P (try_finally body fin).
Proof.
  intros Hb Hf s Hs. rewrite final_try_finally. specialize (Hb s Hs).
  destruct (body s) as [a s'|e s'|s']; cbn [final] in Hb; try done.
  all: by apply Hf.
Qed.

Lemma keeps_when (b : bool) (c : M unit) : keeps P c -> keeps P (when b c).
Proof. destruct b; [done|]. intros _. apply keeps_ret. Qed.

(** What a page function can change, and the record of the callbacks. *)
Hypothesis P_page : forall v s, P s -> P (set_page v s).
Hypothesis P_writes : forall v s, P s -> P (set_writes v s).
Hypothesis P_fresh : forall v s, P s -> P (set_fresh v s).
Hypothesis P_loaded : forall o w s, P s -> P (set_trace (trace s ++ [EvLoaded o w]) s).
Hypothesis P_complete : forall o s, P s -> P (set_trace (trace s ++ [EvComplete o]) s).

Lemma keeps_on_page (f : dom -> dom) : keeps P (on_page f).
Proof. intros s Hs. by apply P_page. Qed.

Lemma keeps_new_element (tag : string) : keeps P (new_element tag).
Proof. intros s Hs. by apply P_fresh, P_page. Qed.

Lemma keeps_call_value (f : value) (this : option nid) (a : carg) :
  keeps P (call_value f this a).
Proof.
  intros s Hs. unfold call_value. destruct f as [p|n|g]; try done.
  destruct (g this a _) as [w [v|e]]; by apply P_page, P_writes.
Qed.

Lemma keeps_appendNode (script node : nid) : keeps P (appendNode script node).
Proof.
  unfold appendNode. apply keeps_bind; [apply keeps_gets|].
  intros [p|]; [apply keeps_on_page|apply keeps_throw].
Qed.

Lemma keeps_moveChildren (budget : nat) (script div : nid) :
  keeps P (moveChildren budget script div).
Proof.
  induction budget as [|b IH]; simpl.
  - apply keeps_bind; [apply keeps_gets|]. intros [k|]; [|apply keeps_ret].
    by intros s.
  - apply keeps_bind; [apply keeps_gets|]. intros [k|]; [|apply keeps_ret].
    apply keeps_bind; [apply keeps_on_page|]. intros _.
    apply keeps_bind; [apply keeps_appendNode|]. intros _. exact IH.
Qed.

Lemma keeps_set_innerHTML (parseHTML : string -> list html) (h : nid) (text : string) :
  keeps P (set_innerHTML parseHTML h text).
Proof.
  intros s Hs. unfold set_innerHTML.
  destruct (install_all (parseHTML text) (fresh s) (page s)) as [[ks h'] d1].
  by apply P_fresh, P_page.
Qed.

Lemma keeps_handleScriptLoaded (parseHTML : string -> list html)
    (opts : gmap string value) (script : nid) :
  keeps P (handleScriptLoaded parseHTML opts script).
Proof.
  unfold handleScriptLoaded.
  apply keeps_bind.
  { destruct (truthyV (prop opts "loaded")); [|apply keeps_ret].
    apply keeps_bind; [apply keeps_gets|]. intros w.
    apply keeps_bind; [intros s Hs; by apply P_loaded|]. intros _.
    apply keeps_bind; [apply keeps_call_value|]. intros r. apply keeps_ret. }
  intros [|]; [apply keeps_ret|].
  apply keeps_bind; [apply keeps_gets|]. intros div0.
  apply keeps_bind; [apply keeps_gets|]. intros w.
  apply keeps_bind.
  { destruct w as [l|]; [|apply keeps_ret].
    apply keeps_bind.
    { destruct div0 as [d|]; [apply keeps_ret|].
      apply keeps_bind; [apply keeps_new_element|]. intros d.
      apply keeps_bind; [apply keeps_appendNode|]. intros _. apply keeps_ret. }
    intros div.
    apply keeps_bind; [apply keeps_on_page|]. intros _.
    apply keeps_bind; [apply keeps_set_innerHTML|]. intros _.
    apply keeps_bind; [apply keeps_gets|]. intros n.
    apply keeps_bind; [apply keeps_moveChildren|]. intros _. apply keeps_ret. }
  intros div.
  apply keeps_bind.
  { destruct div as [d|]; [|apply keeps_ret].
    apply keeps_bind; [apply keeps_gets|].
    intros [p|]; [apply keeps_on_page|apply keeps_throw]. }
  intros _. apply keeps_when.
  apply keeps_bind; [intros s Hs; by apply P_complete|]. intros _.
  apply keeps_bind; [apply keeps_call_value|]. intros r. apply keeps_ret.
Qed.

Lemma keeps_callbacks (o : gmap string value) (script : option nid) :
  keeps P (callbacks o script).
Proof.
  unfold callbacks.
  apply keeps_bind.
  { apply keeps_when.
    apply keeps_bind; [intros s Hs; by apply P_loaded|]. intros _.
    apply keeps_bind; [apply keeps_call_value|]. intros r. apply keeps_ret. }
  intros _. apply keeps_when.
  apply keeps_bind; [intros s Hs; by apply P_complete|]. intros _.
  apply keeps_bind; [apply keeps_call_value|]. intros r. apply keeps_ret.
Qed.

(** What the executor and the scheduler change. *)
Hypothesis P_handlers : forall v s, P s -> P (set_handlers v s).
Hypothesis P_next : forall v s, P s -> P (set_next v s).
Hypothesis P_load : forall o k s, P s -> P (set_trace (trace s ++ [EvLoadScript o k]) s).
Hypothesis P_handler : forall n s, P s -> P (set_trace (trace s ++ [EvHandler n]) s).
Hypothesis P_end : forall o k s, P s -> P (set_trace (trace s ++ [EvEnd o k]) s).
Hypothesis P_override : keeps P overrideDocWrites.
Hypothesis P_restore : keeps P restoreDocWrites.

Lemma keeps_endFunction (yn : M bool) (k : endfn) :
  keeps P yn -> keeps P (endFunction yn k).
Proof.
  intros Hyn. unfold endFunction.
  apply keeps_bind; [apply P_restore|]. intros _.
  apply keeps_bind; [intros s Hs; by apply P_writes|]. intros _.
  destruct k; [|apply keeps_ret].
  apply keeps_bind; [done|]. intros _. apply keeps_ret.
Qed.

Lemma keeps_call_end (yn : M bool) (o : gmap string value) (endF : option endfn) :
  keeps P yn -> keeps P (call_end (endFunction yn) o endF).
Proof.
  intros Hyn. destruct endF as [k|]; [|apply keeps_ret].
  apply keeps_bind; [intros s Hs; by apply P_end|]. intros _.
  by apply keeps_endFunction.
Qed.

Lemma keeps_loadScript (yn : M bool) (o : gmap string value) (endF : option endfn) :
  keeps P yn -> keeps P (loadScript yn o endF).
Proof.
  intros Hyn. unfold loadScript.
  apply keeps_bind; [intros s Hs; by apply P_load|]. intros _.
  destruct (truthyV (prop o "defer")).
  - apply keeps_bind; [apply keeps_new_element|]. intros n.
    apply keeps_bind; [apply keeps_on_page|]. intros _.
    apply keeps_bind; [apply keeps_when, keeps_on_page|]. intros _.
    apply keeps_bind; [apply keeps_when, keeps_on_page|]. intros _.
    apply keeps_bind; [intros s Hs; by apply P_handlers|]. intros _.
    apply keeps_bind; [apply keeps_call_value|]. intros _. apply keeps_ret.
  - apply keeps_bind; [apply keeps_gets|]. intros el.
    apply keeps_try_finally; [apply keeps_callbacks|].
    unfold cleanup. apply keeps_bind; [|intros _; by apply keeps_call_end].
    destruct el; [apply keeps_on_page|apply keeps_throw].
Qed.

Lemma keeps_yieldNext (fuel : nat) : keeps P (yieldNext fuel).
Proof.
  induction fuel as [|fuel IH]; [by intros s|].
  cbn [yieldNext].
  apply keeps_bind; [apply keeps_gets|]. intros n.
  apply keeps_bind; [intros s Hs; by apply P_next|]. intros _.
  apply keeps_bind; [apply keeps_gets|]. intros [o|]; [|apply keeps_ret].
  apply keeps_bind; [|intros _; apply keeps_ret].
  unfold loadAndYieldNext. apply keeps_bind; [apply P_override|]. intros _.
  by apply keeps_loadScript.
Qed.

Lemma keeps_loadHandler (parseHTML : string -> list html) (yn : M bool) (n : nid)
    (readyState : prim) :
  keeps P yn -> keeps P (loadHandler parseHTML yn n readyState).
Proof.
  intros Hyn. unfold loadHandler.
  apply keeps_bind; [apply keeps_gets|]. intros [c|]; [|apply keeps_ret].
  destruct (negb (c_done c) && ready readyState); [|apply keeps_ret].
  apply keeps_bind; [intros s Hs; by apply P_handlers|]. intros _.
  apply keeps_bind; [intros s Hs; by apply P_handler|]. intros _.
  apply keeps_try_finally; [apply keeps_handleScriptLoaded|by apply keeps_call_end].
Qed.

(** What the request builder, the gate and the host change. *)
Hypothesis P_uid : forall s, P s -> P (set_uid (S (uid s)) s).
Hypothesis P_output : forall v s, P s -> P (set_output v s).
Hypothesis P_enqueue : forall l s,
  P s -> DOMContentLoaded s = true -> P (set_scripts (Some l) s).
Hypothesis P_drain : forall l s,
  P s -> scripts s = Some l -> P (set_scripts None (set_array l s)).
Hypothesis P_gate : forall s, P s -> P (set_DOMContentLoaded false s).
Hypothesis P_listening : forall s, P s -> P (set_listening false s).

Lemma keeps_call_writer (w : writer) (args : list prim) : keeps P (call_writer w args).
Proof.
  intros s Hs. destruct w as [ln| |]; cbn [call_writer].
  - by apply P_output.
  - unfold tempDocWrite. destruct (truthy _); [|done]. by apply P_writes.
  - unfold tempDocWriteln, tempDocWrite. destruct (truthy _); [|done]. by apply P_writes.
Qed.

Lemma keeps_prepare (a : argument) : keeps P (prepare a).
Proof.
  intros s Hs. destruct (prepare a s) as [o s'|e s'|s'] eqn:Hp; cbn [final].
  - destruct (prepare_state _ _ _ _ Hp) as [->| ->]; [done|by apply P_uid].
  - revert Hp. unfold prepare, bind.
    destruct (checkArgs a s) as [a' sa|e' sa|sa] eqn:Hc.
    + apply checkArgs_state in Hc as ->. simpl.
      destruct (completeSrc _ s) as [o1 s1|e1 s1|s1] eqn:Hsrc.
      * apply completeSrc_state in Hsrc as ->.
        destruct (truthyV _); [done|]. by unfold _generateId, bind, gets, modify, ret.
      * intros [= _ <-]. revert Hsrc. unfold completeSrc.
        destruct (truthyV _); [|done]. destruct (prop _ "src") as [[]| |]; try done;
          try (by intros [= _ <-]). by destruct (negb _).
      * done.
    + intros [= _ <-]. revert Hc. unfold checkArgs. destruct a as [p|o].
      * destruct (negb _); [by intros [= _ <-]|]. destruct p; by intros [= _ <-].
      * destruct (negb _); by intros [= _ <-].
    + done.
  - revert Hp. unfold prepare, bind.
    destruct (checkArgs a s) as [a' sa|e' sa|sa] eqn:Hc.
    + apply checkArgs_state in Hc as ->. simpl.
      destruct (completeSrc _ s) as [o1 s1|e1 s1|s1] eqn:Hsrc.
      * apply completeSrc_state in Hsrc as ->.
        destruct (truthyV _); [done|]. by unfold _generateId, bind, gets, modify, ret.
      * done.
      * revert Hsrc. unfold completeSrc.
        destruct (truthyV _); [|done]. destruct (prop _ "src") as [[]| |]; try done.
        by destruct (negb _).
    + done.
    + revert Hc. unfold checkArgs. destruct a as [p|o].
      * destruct (negb _); [done|]. by destruct p.
      * by destruct (negb _).
Qed.

Lemma keeps_submit (stringToInteger : string -> Z) (yn : M bool)
    (o : gmap string value) :
  keeps P yn -> keeps P (submit stringToInteger yn o).
Proof.
  intros Hyn s Hs. unfold submit, bind at 1, gets.
  destruct (DOMContentLoaded s) eqn:Hb.
  - unfold bind at 1. rewrite final_bind.
    pose proof (keeps_call_writer (doc_write s) [PStr (placeholderMarkup o)] s Hs) as H1.
    pose proof (call_writer_gate (doc_write s) [PStr (placeholderMarkup o)] s) as [H2 _].
    pose proof (call_writer_ok (doc_write s) [PStr (placeholderMarkup o)] s) as H3.
    rewrite H3. unfold bind, gets.
    destruct (scripts (final _)) as [l|]; [|done].
    cbn [final modify]. apply P_enqueue; [done|]. by rewrite H2.
  - revert s Hs Hb.
    assert (H : keeps P (overrideDocWrites >>
      loadScript yn
        (if negb (truthyV (prop (<["defer":=VPrim (PBool true)]> o) "append"))
         then <["append":=VFun appendToBody]> (<["defer":=VPrim (PBool true)]> o)
         else <["defer":=VPrim (PBool true)]> o) (Some EndImmediate))).
    { apply keeps_bind; [apply P_override|]. intros _. by apply keeps_loadScript. }
    intros s Hs _. by apply H.
Qed.

Lemma keeps_script (stringToInteger : string -> Z) (yn : M bool) (a : argument) :
  keeps P yn -> keeps P (script stringToInteger yn a).
Proof.
  intros Hyn. unfold script. apply keeps_bind; [apply keeps_prepare|].
  intros o. by apply keeps_submit.
Qed.

Lemma keeps_loadAllScripts : keeps P loadAllScripts.
Proof.
  intros s Hs. unfold loadAllScripts, bind at 1, gets.
  destruct (scripts s) as [l|] eqn:Hl; [|done].
  unfold bind at 1, modify. rewrite final_then_ret.
  apply keeps_yieldNext. by apply P_drain.
Qed.

Lemma keeps_dispatch (parseHTML : string -> list html) (stringToInteger : string -> Z)
    (e : host_event) :
  keeps P (dispatch parseHTML stringToInteger e).
Proof.
  intros s Hs. destruct e as [a| | |n via rs|args|args]; cbn [dispatch].
  - apply keeps_script; [apply keeps_yieldNext|done].
  - destruct (listening s); [|done].
    unfold onDOMContentLoaded, bind at 1, modify. unfold bind at 1.
    apply keeps_loadAllScripts. by apply P_gate, P_listening.
  - unfold load, bind at 1, gets. destruct (DOMContentLoaded s); [|done].
    unfold bind at 1, modify. apply keeps_loadAllScripts. by apply P_gate.
  - destruct (handlers s !! n) as [c|]; [|done].
    destruct (bound via c); [|done].
    apply keeps_loadHandler; [apply keeps_yieldNext|done].
  - by apply keeps_call_writer.
  - by apply keeps_call_writer.
Qed.

Lemma keeps_run (parseHTML : string -> list html) (stringToInteger : string -> Z)
    (evs : list host_event) :
  keeps P (run parseHTML stringToInteger evs).
Proof.
  induction evs as [|e evs IH]; intros s Hs; [done|].
  cbn [run]. pose proof (keeps_dispatch parseHTML stringToInteger e s Hs) as Hd.
  destruct (dispatch parseHTML stringToInteger e s) as [[] s'|e' s'|s'];
    cbn [final] in Hd; try done.
  all: by apply IH.
Qed.

End Keeps.

(** ** The capturing functions *)

Lemma tempDocWriteln_eq (args : list prim) (s : state) :
  tempDocWriteln args s
  = Ok tt (set_writes (Some (default [] (writes s) ++
       [PStr (toString (default PUndef (args !! 0%nat)) +:+ newline)])) s).
Proof.
  unfold tempDocWriteln, tempDocWrite.
  change ([PStr ?x] !! 0%nat) with (Some (PStr x)). cbv zeta. cbn [default]. unfold id.
  by rewrite truthy_line.
Qed.

Lemma pushed_cons (a : prim) (c : list prim) (s : state) :
  pushed c (set_writes (Some (default [] (writes s) ++ [a])) s) = pushed (a :: c) s.
Proof.
  destruct c as [|b c]; [done|].
  cbn [pushed writes set_writes default]. unfold set_writes. cbn.
  by rewrite <- app_assoc.
Qed.

(** X1: while the write entry points are the capturing ones, calls of
    [document.write] and [document.writeln] reach nothing but the capture
    buffer: it receives, in call order, the truthy first arguments of
    [write] and the first arguments of [writeln] with a newline appended;
    further arguments are dropped. *)
Theorem capture_in_order (parseHTML : string -> list html) (s2i : string -> Z)
    (ws : list host_event) (s : state) :
  doc_write s = TempDocWrite ->
  doc_writeln s = TempDocWriteln ->
  Forall (fun e => is_write e = true) ws ->
  run parseHTML s2i ws s = Ok tt (pushed (captured ws) s).
Proof.
  revert s. induction ws as [|e ws IH]; intros s Hw Hl Hws; [done|].
  inversion Hws as [|? ? He Hws']; subst.
  destruct e as [a| | |n via rs|args|args]; try discriminate; cbn [run dispatch].
  - rewrite Hw. cbn [call_writer]. unfold tempDocWrite.
    unfold captured. cbn [flat_map fragment]. fold (captured ws).
    destruct (truthy (default PUndef (args !! 0%nat))).
    + cbn [modify]. rewrite IH; [|done..]. by rewrite pushed_cons.
    + cbn [ret]. by rewrite IH.
  - rewrite Hl. cbn [call_writer]. rewrite tempDocWriteln_eq.
    unfold captured. cbn [flat_map fragment]. fold (captured ws).
    rewrite IH; [|done..]. by rewrite pushed_cons.
Qed.

Lemma capture_in_order_witness :
  run parse_text integer_zero
    [DocWrite [PStr "<b>"; PStr "dropped"]; DocWrite [PStr ""]; DocWriteln [PNum 1];
     DocWrite []]
    intercepted
  = Ok tt (set_writes (Some [PStr "<b>"; PStr ("1" +:+ newline)]) intercepted).
Proof.
  rewrite (capture_in_order parse_text integer_zero _ intercepted);
    [reflexivity|reflexivity|reflexivity|].
  repeat constructor.
Defined.

(** X2: installing the interceptor and removing it again, from a page that
    has no saved entry points, gives the page back as it was; installing it
    a second time changes nothing, so that the saved entry points are still
    the page's own. *)
Theorem interceptor_round_trip (s : state) :
  docWrite s = None ->
  docWriteln s = None ->
  (overrideDocWrites >> restoreDocWrites) s = Ok tt s
  /\ (overrideDocWrites >> overrideDocWrites) s = overrideDocWrites s
  /\ saved (final (overrideDocWrites s)) = (Some (doc_write s), Some (doc_writeln s)).
Proof.
  intros H1 H2. destruct s. cbn in H1, H2. subst.
  by unfold bind, overrideDocWrites, restoreDocWrites, modify.
Qed.

Lemma interceptor_round_trip_witness :
  (overrideDocWrites >> restoreDocWrites) start = Ok tt start.
Proof. apply (interceptor_round_trip start); reflexivity. Defined.

(** ** Signals that are not ready *)

Lemma prim_eqb_eq (a b : prim) : prim_eqb a b = true <-> a = b.
Proof.
  split.
  - destruct a, b; cbn; try done.
    + intros H. apply Bool.eqb_prop in H. by subst.
    + intros H. apply Z.eqb_eq in H. by subst.
    + intros H. apply String.eqb_eq in H. by subst.
    + intros H. apply String.eqb_eq in H. by subst.
  - intros <-. destruct a; cbn; try done.
    + by destruct b.
    + apply Z.eqb_refl.
    + apply String.eqb_refl.
    + apply String.eqb_refl.
Qed.

Lemma prim_eqb_ne (a b : prim) : a <> b -> prim_eqb a b = false.
Proof.
  intros H. destruct (prim_eqb a b) eqn:E; [|done]. by apply prim_eqb_eq in E.
Qed.

(** X3: a load signal whose [readyState] is set to something other than
    "loaded" or "complete" is ignored: nothing runs and the handler stays
    in place for the next signal. *)
Theorem unready_signal_ignored (parseHTML : string -> list html) (s2i : string -> Z)
    (n : nid) (via : signal) (readyState : prim) (s : state) :
  truthy readyState = true ->
  readyState <> PStr "loaded" ->
  readyState <> PStr "complete" ->
  dispatch parseHTML s2i (Signal n via readyState) s = Ok tt s.
Proof.
  intros Ht H1 H2. cbn [dispatch].
  destruct (handlers s !! n) as [c|] eqn:Hc; [|done].
  destruct (bound via c); [|done].
  rewrite loadHandler_eq, Hc. unfold ready.
  rewrite Ht, (prim_eqb_ne _ _ H1), (prim_eqb_ne _ _ H2). cbn.
  by rewrite andb_false_r.
Qed.

(** ** The deferred branch of [loadScript] *)

Lemma loadScript_appending (yn : M bool) (o : gmap string value)
    (endF : option endfn) (s : state) :
  truthyV (prop o "defer") = true ->
  loadScript yn o endF s
  = (do _ <- call_value (prop o "append") None (CNode (fresh s)) in ret tt)
      (appending o endF s).
Proof.
  intros Hd. unfold loadScript, appending. rewrite Hd.
  unfold bind at 1, log, modify. unfold bind at 1, new_element.
  unfold bind at 1, on_page, modify.
  destruct (truthyV (prop o "type")); destruct (truthyV (prop o "charset")); reflexivity.
Qed.

Lemma get_set_prop_ne (n : nid) (k k' : string) (v : prim) (d : dom) :
  k <> k' -> get_prop n k' (set_prop n k v d) = get_prop n k' d.
Proof.
  intros H. unfold get_prop, set_prop. cbn [props set_props].
  rewrite lookup_insert_eq. cbn [default]. unfold id. by rewrite lookup_insert_ne.
Qed.

Lemma ends_app (t t' : list event) : ends (t ++ t') = ends t ++ ends t'.
Proof. apply List.filter_app. Qed.

Lemma appending_fields (o : gmap string value) (endF : option endfn) (s : state) :
  bindings (appending o endF s) = bindings s
  /\ ends (trace (appending o endF s)) = ends (trace s)
  /\ handlers (appending o endF s) !! fresh s = Some (fresh_closure o endF)
  /\ same_queue s (appending o endF s)
  /\ writes (appending o endF s) = writes s.
Proof.
  repeat split.
  - unfold appending. cbn [trace set_handlers set_page set_fresh set_trace].
    rewrite ends_app. cbn. apply app_nil_r.
  - unfold appending. cbn [handlers set_handlers]. apply lookup_insert_eq.
Qed.

(** X4: a deferred load creates its script element detached, gives it the
    request's [src], its [type] and [charset] when they are set, and puts
    the load handler in place before [append] is called with the element;
    the document is as it was until [append] changes it. *)
Theorem element_handed_to_append (yn : M bool) (o : gmap string value)
    (endF : option endfn) (s : state) :
  truthyV (prop o "defer") = true ->
  exists s1,
    loadScript yn o endF s
    = (do _ <- call_value (prop o "append") None (CNode (fresh s)) in ret tt) s1
    /\ get_prop (fresh s) "tagName" (page s1) = PStr "script"
    /\ get_prop (fresh s) "src" (page s1) = prim_of (prop o "src")
    /\ (truthyV (prop o "type") = true ->
        get_prop (fresh s) "type" (page s1) = prim_of (prop o "type"))
    /\ (truthyV (prop o "charset") = true ->
        get_prop (fresh s) "charset" (page s1) = prim_of (prop o "charset"))
    /\ document (page s1) = document (page s)
    /\ detached (page s1) = detached (page s) ++ [Node (fresh s) []]
    /\ handlers s1 !! fresh s = Some (fresh_closure o endF)
    /\ trace s1 = trace s ++ [EvLoadScript o endF].
Proof.
  intros Hd. exists (appending o endF s).
  split; [by apply loadScript_appending|].
  unfold appending. cbn [page handlers trace set_handlers set_page set_fresh set_trace].
  repeat split.
  - destruct (truthyV (prop o "type")); destruct (truthyV (prop o "charset"));
      rewrite ?get_set_prop_ne by done; unfold createElement; apply get_set_prop.
  - destruct (truthyV (prop o "type")); destruct (truthyV (prop o "charset"));
      rewrite ?get_set_prop_ne by done; apply get_set_prop.
  - intros ->. destruct (truthyV (prop o "charset"));
      rewrite ?get_set_prop_ne by done; apply get_set_prop.
  - intros ->. apply get_set_prop.
  - by destruct (truthyV (prop o "type")); destruct (truthyV (prop o "charset")).
  - by destruct (truthyV (prop o "type")); destruct (truthyV (prop o "charset")).
  - apply lookup_insert_eq.
Qed.

Lemma element_handed_to_append_witness :
  exists s1,
    loadScript (ret false) request_early (Some EndDrain) start
    = (do _ <- call_value (VFun appendToBody) None (CNode 3%nat) in ret tt) s1
    /\ get_prop 3%nat "src" (page s1) = PStr "e.js"
    /\ detached (page s1) = [Node 3%nat []].
Proof.
  destruct (element_handed_to_append (ret false) request_early (Some EndDrain) start)
    as (s1 & H1 & _ & H2 & _ & _ & _ & H3 & _); [reflexivity|].
  exists s1. split; [exact H1|]. split; [exact H2|exact H3].
Defined.

Lemma call_value_fails (v : value) (n : nid) (e : prim) (s : state) :
  fails v n e ->
  exists s1, call_value v None (CNode n) s = Err e s1
             /\ bindings s1 = bindings s /\ trace s1 = trace s
             /\ handlers s1 = handlers s /\ same_queue s s1.
Proof.
  intros H. unfold call_value. destruct v as [p|m|f]; cbn in H; subst.
  - by exists s.
  - by exists s.
  - specialize (H {| w_writes := writes s; w_dom := page s |}).
    destruct (f None (CNode n) _) as [w c]. cbn in H. subst c.
    by eexists.
Qed.

(** X5: when [append] fails in a deferred load (it throws, or the option is
    no function) the exception leaves [loadScript] and its continuation does
    not run: the write entry points stay the capturing ones, with the page's
    own saved, and the worklist is where it was.  The load handler is on the
    element all the same. *)
Theorem failed_append_leaves_interception (yn : M bool) (o : gmap string value)
    (endF : option endfn) (e : prim) (s : state) :
  truthyV (prop o "defer") = true ->
  fails (prop o "append") (fresh s) e ->
  exists s1,
    (overrideDocWrites >> loadScript yn o endF) s = Err e s1
    /\ doc_write s1 = TempDocWrite
    /\ doc_writeln s1 = TempDocWriteln
    /\ docWrite s1 <> None
    /\ docWriteln s1 <> None
    /\ ends (trace s1) = ends (trace s)
    /\ same_queue s s1
    /\ handlers s1 !! fresh s = Some (fresh_closure o endF).
Proof.
  intros Hd Hf. unfold bind at 1. rewrite overrideDocWrites_ok.
  set (s0 := final (overrideDocWrites s)).
  assert (H0 : doc_write s0 = TempDocWrite /\ doc_writeln s0 = TempDocWriteln
               /\ docWrite s0 <> None /\ docWriteln s0 <> None
               /\ trace s0 = trace s /\ same_queue s s0 /\ fresh s0 = fresh s
               /\ handlers s0 = handlers s).
  { unfold s0, overrideDocWrites, modify. cbn [final].
    destruct (docWrite s) eqn:E1; cbn; destruct (docWriteln s) eqn:E2; cbn;
      rewrite ?E1, ?E2; by repeat split. }
  clearbody s0. destruct H0 as (W1 & W2 & W3 & W4 & Ht & Hq & Hfr & Hh).
  rewrite (loadScript_appending _ _ _ _ Hd).
  destruct (appending_fields o endF s0) as (Hb & He & Hl & Hq' & _).
  rewrite <- Hfr in Hf.
  destruct (call_value_fails _ _ e (appending o endF s0) Hf)
    as (s1 & Hc & Hb1 & Ht1 & Hh1 & Hq1).
  rewrite Hfr in Hc. exists s1. unfold bind. rewrite Hfr, Hc.
  split; [done|].
  rewrite Hb in Hb1. unfold bindings in Hb1. injection Hb1 as B1 B2 B3 B4.
  destruct Hq as (?&?&?), Hq' as (?&?&?), Hq1 as (?&?&?).
  split_and!; try congruence.
  unfold same_queue. split_and!; congruence.
Qed.

Lemma failed_append_leaves_interception_witness :
  exists s1,
    (overrideDocWrites >> loadScript (ret false) request_nowhere (Some EndDrain)) start
    = Err (PStr "nowhere") s1
    /\ doc_write s1 = TempDocWrite
    /\ ends (trace s1) = [].
Proof.
  destruct (failed_append_leaves_interception (ret false) request_nowhere
              (Some EndDrain) (PStr "nowhere") start)
    as (s1 & H1 & H2 & _ & _ & _ & H3 & _).
  - reflexivity.
  - by vm_compute.
  - exists s1. split; [exact H1|]. split; [exact H2|exact H3].
Defined.

(** ** A synchronous load without its element *)

Lemma callbacks_fields (o : gmap string value) (el : option nid) (s : state) :
  bindings (final (callbacks o el s)) = bindings s
  /\ ends (trace (final (callbacks o el s))) = ends (trace s)
  /\ same_queue s (final (callbacks o el s))
  /\ handlers (final (callbacks o el s)) = handlers s.
Proof.
  pose proof (keeps_callbacks
    (fun s' => bindings s' = bindings s /\ ends (trace s') = ends (trace s)
               /\ same_queue s s' /\ handlers s' = handlers s)) as H.
  apply H; clear H.
  - done.
  - done.
  - intros o' w s' (?&He&?&?). split_and!; try done.
    cbn [trace set_trace]. rewrite ends_app, He. cbn. apply app_nil_r.
  - intros o' s' (?&He&?&?). split_and!; try done.
    cbn [trace set_trace]. rewrite ends_app, He. cbn. apply app_nil_r.
  - by split_and!.
Qed.

(** X6: in synchronous mode, when the page has no element with the request's
    id, the callbacks still run (with no element), then clearing the id
    fails: [loadScript] ends in a [TypeError], whatever the callbacks did,
    and the continuation is not called.  In the scheduler this leaves the
    write entry points capturing and the rest of the worklist unloaded. *)
Theorem lost_element_stops_scheduler (yn : M bool) (o : gmap string value) (s : state) :
  truthyV (prop o "defer") = false ->
  getElementById (toStringV (prop o "id")) (page s) = None ->
  exists s1,
    loadAndYieldNext yn o s = Err TypeError s1
    /\ doc_write s1 = TempDocWrite
    /\ doc_writeln s1 = TempDocWriteln
    /\ docWrite s1 <> None
    /\ docWriteln s1 <> None
    /\ ends (trace s1) = ends (trace s)
    /\ same_queue s s1.
Proof.
  intros Hd Hg. unfold loadAndYieldNext, bind at 1. rewrite overrideDocWrites_ok.
  set (s0 := final (overrideDocWrites s)).
  assert (H0 : doc_write s0 = TempDocWrite /\ doc_writeln s0 = TempDocWriteln
               /\ docWrite s0 <> None /\ docWriteln s0 <> None
               /\ trace s0 = trace s /\ same_queue s s0 /\ page s0 = page s).
  { unfold s0, overrideDocWrites, modify. cbn [final].
    destruct (docWrite s) eqn:E1; cbn; destruct (docWriteln s) eqn:E2; cbn;
      rewrite ?E1, ?E2; by repeat split. }
  clearbody s0. destruct H0 as (W1 & W2 & W3 & W4 & Ht & Hq & Hp).
  rewrite (loadScript_sync _ _ _ _ Hd), Hp, Hg. unfold try_finally.
  set (s0' := set_trace _ s0).
  destruct (callbacks_fields o None s0') as (Hb & He & Hq' & _).
  pose proof (callbacks_end o None s0') as Hgas.
  exists (final (callbacks o None s0')).
  split.
  { destruct (callbacks o None s0') as [a s1|e s1|s1]; cbn [final];
      rewrite ?cleanup_missing; try done. by destruct (Hgas s1). }
  unfold bindings in Hb. cbn [doc_write doc_writeln docWrite docWriteln set_trace s0'] in Hb.
  injection Hb as B1 B2 B3 B4.
  destruct Hq as (?&?&?), Hq' as (Q1&Q2&Q3).
  cbn [_scripts next scripts set_trace s0'] in Q1, Q2, Q3.
  split_and!; try congruence.
  - rewrite He. unfold s0'. cbn [trace set_trace]. rewrite ends_app, Ht. cbn. apply app_nil_r.
  - unfold same_queue. split_and!; congruence.
Qed.

Lemma lost_element_stops_scheduler_witness :
  exists s1,
    loadAndYieldNext (ret false) request_lost start = Err TypeError s1
    /\ doc_write s1 = TempDocWrite
    /\ ends (trace s1) = [].
Proof.
  destruct (lost_element_stops_scheduler (ret false) request_lost start)
    as (s1 & H1 & H2 & _ & _ & _ & H3 & _); [reflexivity|reflexivity|].
  exists s1. split; [exact H1|]. split; [exact H2|exact H3].
Defined.

(** ** An exception of [loaded] *)

Lemma loaded_throws (parseHTML : string -> list html) (o : gmap string value)
    (n : nid) (s : state) (f : jsfun) (w : world) (e : prim) :
  prop o "loaded" = VFun f ->
  f (Some n) (match writes s with Some l => CWrites l | None => CNone end)
    {| w_writes := writes s; w_dom := page s |} = (w, Thrown e) ->
  handleScriptLoaded parseHTML o n s
  = Err e (set_page (w_dom w) (set_writes (w_writes w)
             (set_trace (trace s ++ [EvLoaded o (writes s)]) s))).
Proof.
  intros Hf Hv. unfold handleScriptLoaded. rewrite Hf. cbn [truthyV].
  unfold bind, gets, log, modify, call_value, ret.
  cbn [writes page set_trace]. by rewrite Hv.
Qed.

(** X7: when the [loaded] callback of a deferred load throws, nothing is
    replayed and [complete] is not called, the continuation runs once all the
    same, and the exception then leaves the load handler (unless the
    continuation itself throws or does not return). *)
Theorem loaded_exception_skips_replay (parseHTML : string -> list html) (yn : M bool)
    (n : nid) (c : closure) (k : endfn) (readyState : prim) (s : state)
    (f : jsfun) (w : world) (e : prim) :
  handlers s !! n = Some c ->
  c_done c = false ->
  c_end c = Some k ->
  ready readyState = true ->
  prop (c_opts c) "loaded" = VFun f ->
  f (Some n) (match writes s with Some l => CWrites l | None => CNone end)
    {| w_writes := writes s; w_dom := page s |} = (w, Thrown e) ->
  exists mid,
    loadHandler parseHTML yn n readyState s = after_throw e (endFunction yn k mid)
    /\ trace mid = trace s ++ [EvHandler n; EvLoaded (c_opts c) (writes s);
                               EvEnd (c_opts c) k]
    /\ page mid = w_dom w.
Proof.
  intros Hl Hd He Hr Hf Hv.
  rewrite loadHandler_eq, Hl, Hd, Hr. cbn [negb andb]. unfold try_finally.
  rewrite (loaded_throws parseHTML (c_opts c) n (entered n c s) f w e Hf Hv).
  rewrite He. unfold call_end, bind at 1, log, modify. cbv beta iota.
  lazymatch goal with
  | |- exists mid, match endFunction yn k ?st with _ => _ end = _ /\ _ => exists st
  end.
  split; [by destruct (endFunction yn k _) as [[] s2|e2 s2|s2]|].
  cbn [trace page writes set_trace set_page set_writes entered set_handlers].
  by rewrite <- !app_assoc.
Qed.

Lemma loaded_exception_skips_replay_witness :
  exists mid,
    loadHandler parse_text (ret false) 3%nat PUndef throwing_state
    = after_throw (PStr "oops") (endFunction (ret false) EndImmediate mid)
    /\ map event_name (trace mid)
       = ["loadScript"; "handler"; "loaded"; "endFunction"]
    /\ page mid = page throwing_state.
Proof.
  destruct (loaded_exception_skips_replay parse_text (ret false) 3%nat throwing_closure
              EndImmediate PUndef throwing_state (throwing (PStr "oops"))
              {| w_writes := writes throwing_state; w_dom := page throwing_state |}
              (PStr "oops"))
    as (mid & Hm & Ht & Hp).
  - by vm_compute.
  - reflexivity.
  - reflexivity.
  - reflexivity.
  - by vm_compute.
  - reflexivity.
  - exists mid. split; [exact Hm|]. split; [|exact Hp].
    rewrite Ht. by vm_compute.
Defined.

(** ** Requests made after the ready event *)

Lemma overridden (s : state) :
  exists s0,
    overrideDocWrites s = Ok tt s0
    /\ doc_write s0 = TempDocWrite /\ doc_writeln s0 = TempDocWriteln
    /\ docWrite s0 <> None /\ docWriteln s0 <> None
    /\ trace s0 = trace s /\ same_queue s s0 /\ fresh s0 = fresh s
    /\ handlers s0 = handlers s /\ page s0 = page s /\ output s0 = output s
    /\ DOMContentLoaded s0 = DOMContentLoaded s /\ uid s0 = uid s.
Proof.
  exists (final (overrideDocWrites s)). split; [apply overrideDocWrites_ok|].
  unfold overrideDocWrites, modify. cbn [final].
  destruct (docWrite s) eqn:E1; cbn; destruct (docWriteln s) eqn:E2; cbn;
    rewrite ?E1, ?E2; by repeat split.
Qed.

(** X8: a request made after the ready event is not queued and writes no
    markup: whatever its [defer] option says it is loaded at once as a
    deferred load, with the write entry points capturing from then on; when
    it names no [append], the script element goes to the end of the body. *)
Theorem late_request_loads_at_once (s2i : string -> Z) (yn : M bool)
    (a : argument) (o : gmap string value) (s s1 : state) :
  DOMContentLoaded s = false ->
  prepare a s = Ok o s1 ->
  exists o' s2,
    script s2i yn a s
    = (do _ <- call_value (prop o' "append") None (CNode (fresh s)) in ret tt) s2
    /\ prop o' "defer" = VPrim (PBool true)
    /\ prop o' "append"
       = (if truthyV (prop o "append") then prop o "append" else VFun appendToBody)
    /\ (forall k, k <> "defer" -> k <> "append" -> prop o' k = prop o k)
    /\ trace s2 = trace s ++ [EvLoadScript o' (Some EndImmediate)]
    /\ handlers s2 !! fresh s = Some (fresh_closure o' (Some EndImmediate))
    /\ doc_write s2 = TempDocWrite
    /\ doc_writeln s2 = TempDocWriteln
    /\ scripts s2 = scripts s
    /\ output s2 = output s.
Proof.
  intros Hb Hp.
  assert (H1 : DOMContentLoaded s1 = false /\ trace s1 = trace s /\ fresh s1 = fresh s
               /\ scripts s1 = scripts s /\ output s1 = output s).
  { by destruct (prepare_state _ _ _ _ Hp) as [->| ->]. }
  destruct H1 as (Hb1 & Ht1 & Hf1 & Hs1 & Ho1).
  unfold script, bind at 1. rewrite Hp. unfold submit, bind at 1, gets. rewrite Hb1.
  set (o1 := <["defer" := VPrim (PBool true)]> o).
  set (o' := if negb (truthyV (prop o1 "append"))
             then <["append" := VFun appendToBody]> o1 else o1).
  assert (Hd : prop o' "defer" = VPrim (PBool true)).
  { unfold o'. destruct (negb _).
    - rewrite prop_insert_ne by done. apply prop_insert_eq.
    - apply prop_insert_eq. }
  assert (Ha : prop o1 "append" = prop o "append").
  { unfold o1. by rewrite prop_insert_ne. }
  destruct (overridden s1) as (s0 & E0 & W1 & W2 & _ & _ & Ht0 & (_ & _ & Hq0) & Hf0 & Hh0 & _ & Ho0 & _).
  unfold bind at 1. rewrite E0.
  rewrite loadScript_appending by (by rewrite Hd).
  destruct (appending_fields o' (Some EndImmediate) s0) as (_ & _ & Hl & _ & _).
  exists o', (appending o' (Some EndImmediate) s0).
  split; [by rewrite Hf0, Hf1|].
  rewrite Hf0, Hf1 in Hl.
  split_and!; try done; try (unfold appending;
    cbn [trace handlers doc_write doc_writeln scripts output
         set_handlers set_page set_fresh set_trace]; congruence).
  - unfold o'. rewrite Ha. destruct (truthyV (prop o "append")) eqn:E; cbn [negb].
    + exact Ha.
    + apply prop_insert_eq.
  - intros k K1 K2. unfold o'. destruct (negb _).
    + rewrite prop_insert_ne by done. unfold o1. by rewrite prop_insert_ne.
    + unfold o1. by rewrite prop_insert_ne.
Qed.

Lemma late_request_loads_at_once_witness :
  exists o' s2,
    script integer_zero (ret false) (ArgObj request_now) ready_page
    = (do _ <- call_value (prop o' "append") None (CNode 3%nat) in ret tt) s2
    /\ prop o' "defer" = VPrim (PBool true)
    /\ prop o' "append" = VFun appendToBody
    /\ doc_write s2 = TempDocWrite.
Proof.
  destruct (late_request_loads_at_once integer_zero (ret false) (ArgObj request_now)
              (fst (prepared (ArgObj request_now) ready_page)) ready_page
              (snd (prepared (ArgObj request_now) ready_page)))
    as (o' & s2 & H1 & H2 & H3 & _ & _ & _ & H4 & _).
  - reflexivity.
  - by vm_compute.
  - exists o', s2. split; [exact H1|]. split; [exact H2|]. split; [|exact H4].
    rewrite H3. by vm_compute.
Defined.

(** ** The two phases of the page *)

Lemma bindings_override (w wl : writer) (s : state) :
  guarded w wl s -> guarded w wl (final (overrideDocWrites s)).
Proof.
  unfold guarded, bindings, overrideDocWrites, modify. cbn [final].
  intros [H|H]; injection H as H1 H2 H3 H4; right;
    rewrite H3; cbn; rewrite H4; cbn; congruence.
Qed.

Lemma bindings_restore (w wl : writer) (s : state) :
  guarded w wl s -> guarded w wl (final (restoreDocWrites s)).
Proof.
  unfold guarded, bindings, restoreDocWrites, modify. cbn [final].
  intros [H|H]; injection H as H1 H2 H3 H4; left;
    rewrite H3; cbn; rewrite H4; cbn; congruence.
Qed.

(** X9: at every moment the write entry points of the document are either
    the page's own, with nothing saved, or the two capturing functions, with
    the page's own saved: the loader never loses the page's functions and
    never saves its own in their place. *)
Theorem originals_never_lost (parseHTML : string -> list html) (s2i : string -> Z)
    (w wl : writer) (d : dom) (h : nid) (evs : list host_event) :
  guarded w wl (final (run parseHTML s2i evs (init w wl d h))).
Proof.
  apply (keeps_run (guarded w wl)); try done.
  - intros s. apply bindings_override.
  - intros s. apply bindings_restore.
  - by left.
Qed.







(** ** The options of a request *)

Lemma checkArgs_given (a : argument) (a' : gmap string value) (s s' : state) :
  checkArgs a s = Ok a' s' -> a' = given a /\ truthyV (prop a' "src") = true.
Proof.
  unfold checkArgs. destruct a as [p|o].
  - destruct (negb (truthy p)) eqn:E; [done|]. destruct p; try done.
    intros [= <- _]. split; [done|]. by apply negb_false_iff in E.
  - destruct (negb (truthyV (prop o "src"))) eqn:E; [done|].
    intros [= <- _]. split; [done|]. by apply negb_false_iff in E.
Qed.

(** [prepare], read backwards: what the options of an accepted request are
    made of. *)
Lemma prepare_shape (a : argument) (o : gmap string value) (s s1 : state) :
  prepare a s = Ok o s1 ->
  exists o1,
    completeSrc (given a ∪ defaults s) s = Ok o1 s
    /\ (forall k, k <> "src" -> prop o1 k = prop (given a ∪ defaults s) k)
    /\ (forall k, k <> "id" -> k <> "append" ->
          prop o k = prop (defaultDefer (normalizeOnload (given a) o1)) k)
    /\ (if truthyV (prop (defaultDefer (normalizeOnload (given a) o1)) "id")
        then prop o "id" = prop (defaultDefer (normalizeOnload (given a) o1)) "id"
             /\ s1 = s
        else prop o "id" = VPrim (PStr ("_script-" +:+ pretty (uid s)))
             /\ s1 = set_uid (S (uid s)) s).
Proof.
  intros Hp. destruct (prepare_inv _ _ _ _ Hp) as (a' & o1 & Hc & Hs).
  destruct (checkArgs_given _ _ _ _ Hc) as [-> _].
  exists o1. split; [done|].
  split; [intros k Hk; by apply (completeSrc_other _ _ _ _ _ Hs)|].
  revert Hp. unfold prepare, bind, gets. rewrite Hc. cbv beta iota. rewrite Hs.
  set (o2 := defaultDefer (normalizeOnload (given a) o1)).
  destruct (truthyV (prop o2 "id")) eqn:Hid.
  - intros [= <- <-]. split; [|split; [|done]].
    + intros k K1 K2. by rewrite normalizeAppend_other.
    + by rewrite normalizeAppend_other.
  - unfold _generateId, bind, gets, modify, ret. intros [= <- <-].
    split; [|split; [|done]].
    + intros k K1 K2. rewrite normalizeAppend_other by done. by rewrite prop_insert_ne.
    + rewrite normalizeAppend_other by done. by rewrite prop_insert_eq.
Qed.

Lemma prop_union (a d : gmap string value) (k : string) :
  prop (a ∪ d) k = match a !! k with Some v => v | None => prop d k end.
Proof.
  unfold prop. rewrite lookup_union. destruct (a !! k), (d !! k); done.
Qed.

(** X11: the options of an accepted request are the argument's own where it
    has them (even when the value is [undefined]) and those of
    [script.defaults] elsewhere; only [src], [onLoad], [onload], [defer],
    [id] and [append] are worked on. *)
Theorem options_merge_defaults (a : argument) (o : gmap string value)
    (s s1 : state) (k : string) :
  prepare a s = Ok o s1 ->
  k ∉ ["src"; "onLoad"; "onload"; "defer"; "id"; "append"] ->
  prop o k = match given a !! k with
             | Some v => v
             | None => prop (defaults s) k
             end.
Proof.
  intros Hp Hk. destruct (prepare_shape _ _ _ _ Hp) as (o1 & _ & H1 & H2 & _).
  rewrite H2, defaultDefer_other, normalizeOnload_other, H1 by set_solver.
  apply prop_union.
Qed.

Lemma options_merge_defaults_witness :
  prop (fst (prepared (ArgPrim (PStr "a.js")) start)) "type"
  = VPrim (PStr "text/javascript")
  /\ prop (fst (prepared (ArgObj {[ "src" := VPrim (PStr "a.js");
                                    "type" := VPrim PUndef ]}) start)) "type"
     = VPrim PUndef.
Proof.
  split.
  - rewrite (options_merge_defaults (ArgPrim (PStr "a.js")) _ start
               (snd (prepared (ArgPrim (PStr "a.js")) start)) "type");
      [reflexivity|by vm_compute|not_listed].
  - rewrite (options_merge_defaults
               (ArgObj {[ "src" := VPrim (PStr "a.js"); "type" := VPrim PUndef ]})
               _ start
               (snd (prepared (ArgObj {[ "src" := VPrim (PStr "a.js");
                                         "type" := VPrim PUndef ]}) start)) "type");
      [reflexivity|by vm_compute|not_listed].
Defined.

Lemma prop_delete_eq (o : gmap string value) (k : string) :
  prop (delete k o) k = VPrim PUndef.
Proof. unfold prop. by rewrite lookup_delete_eq. Qed.

(** X12: the deprecated [onload] option.  An [onload] given in the argument
    becomes the request's [onLoad], also over an [onLoad] given beside it;
    an [onLoad] given in the argument is never replaced by an [onload] of
    the defaults; the options of the request keep no [onload]; and a request
    whose [defer] is undefined takes its [onLoad] for it. *)
Theorem deprecated_onload_option (a : argument) (o : gmap string value) (s s1 : state) :
  prepare a s = Ok o s1 ->
  is_nullishV (prop o "onload") = true
  /\ (is_nullishV (prop (given a) "onload") = false ->
      prop o "onLoad" = prop (given a) "onload")
  /\ (is_nullishV (prop (given a) "onload") = true ->
      is_nullishV (prop (given a) "onLoad") = false ->
      prop o "onLoad" = prop (given a) "onLoad")
  /\ (prop (given a ∪ defaults s) "defer" = VPrim PUndef ->
      prop o "defer" = prop o "onLoad")
  /\ (prop (given a ∪ defaults s) "defer" <> VPrim PUndef ->
      prop o "defer" = prop (given a ∪ defaults s) "defer").
Proof.
  intros Hp. destruct (prepare_shape _ _ _ _ Hp) as (o1 & _ & H1 & H2 & _).
  set (g := given a) in *. set (m := g ∪ defaults s) in *.
  assert (Hm1 : prop o1 "onload" = prop m "onload") by by apply H1.
  assert (Hm2 : prop o1 "onLoad" = prop m "onLoad") by by apply H1.
  assert (Hm3 : prop o1 "defer" = prop m "defer") by by apply H1.
  assert (Hn1 : is_nullishV (prop (normalizeOnload g o1) "onload") = true).
  { unfold normalizeOnload. destruct (is_nullishV (prop o1 "onload")) eqn:E; cbn [negb].
    - exact E.
    - by rewrite prop_delete_eq. }
  assert (Hn2 : is_nullishV (prop g "onload") = false ->
                prop (normalizeOnload g o1) "onLoad" = prop g "onload").
  { intros Hg. assert (Hmg : prop m "onload" = prop g "onload")
      by by apply prop_union_nonnull.
    unfold normalizeOnload. rewrite Hm1, Hmg, Hg. cbn [negb].
    rewrite prop_delete_ne by done. rewrite prop_insert_eq.
    by destruct (negb (is_nullishV (prop o1 "onLoad"))). }
  assert (Hn3 : is_nullishV (prop g "onload") = true ->
                is_nullishV (prop g "onLoad") = false ->
                prop (normalizeOnload g o1) "onLoad" = prop g "onLoad").
  { intros Hg Hg'. assert (Hmg : prop m "onLoad" = prop g "onLoad")
      by by apply prop_union_nonnull.
    unfold normalizeOnload. rewrite Hm2, Hmg, Hg, Hg'. cbn [negb].
    destruct (negb (is_nullishV (prop o1 "onload"))).
    - rewrite prop_delete_ne by done. by rewrite prop_insert_eq.
    - by rewrite Hm2. }
  assert (Hn4 : prop (normalizeOnload g o1) "defer" = prop m "defer").
  { by rewrite normalizeOnload_other. }
  rewrite !H2 by done. split_and!.
  - by rewrite defaultDefer_other.
  - intros Hg. rewrite defaultDefer_other by done. by apply Hn2.
  - intros Hg Hg'. rewrite defaultDefer_other by done. by apply Hn3.
  - intros Hd. rewrite (defaultDefer_other _ "onLoad") by done.
    unfold defaultDefer. rewrite Hn4, Hd. apply prop_insert_eq.
  - intros Hd. unfold defaultDefer. rewrite Hn4.
    destruct (prop m "defer") as [[]| |] eqn:E; try done; by rewrite Hn4.
Qed.

Lemma deprecated_onload_option_witness :
  prop (fst (prepared (ArgObj {[ "src" := VPrim (PStr "a.js");
                                 "onload" := VPrim (PBool true);
                                 "onLoad" := VPrim (PBool false) ]}) start)) "defer"
  = VPrim (PBool true).
Proof.
  destruct (deprecated_onload_option
              (ArgObj {[ "src" := VPrim (PStr "a.js");
                         "onload" := VPrim (PBool true);
                         "onLoad" := VPrim (PBool false) ]})
              (fst (prepared (ArgObj {[ "src" := VPrim (PStr "a.js");
                                        "onload" := VPrim (PBool true);
                                        "onLoad" := VPrim (PBool false) ]}) start))
              start
              (snd (prepared (ArgObj {[ "src" := VPrim (PStr "a.js");
                                        "onload" := VPrim (PBool true);
                                        "onLoad" := VPrim (PBool false) ]}) start)))
    as (_ & H2 & _ & H4 & _); [by vm_compute|].
  rewrite H4 by by vm_compute. rewrite H2 by by vm_compute. by vm_compute.
Defined.

(** ** Generated identifiers *)

Lemma uid_interceptor (n : nat) :
  keeps (fun s => (n <= uid s)%nat) overrideDocWrites
  /\ keeps (fun s => (n <= uid s)%nat) restoreDocWrites.
Proof.
  split; intros s Hs.
  - destruct (overridden s) as (s0 & E & _ & _ & _ & _ & _ & _ & _ & _ & _ & _ & _ & Hu).
    rewrite E. cbn [final]. by rewrite Hu.
  - unfold restoreDocWrites, modify. cbn [final].
    destruct (docWrite s); cbn; by destruct (docWriteln s).
Qed.

Lemma uid_grows (parseHTML : string -> list html) (s2i : string -> Z) (n : nat)
    (evs : list host_event) :
  keeps (fun s => (n <= uid s)%nat) (run parseHTML s2i evs).
Proof.
  apply keeps_run; try done.
  - apply uid_interceptor.
  - apply uid_interceptor.
  - intros s Hs. cbn. lia.
Qed.

Lemma uid_grows_submit (s2i : string -> Z) (n : nat) (o : gmap string value) (fuel : nat) :
  keeps (fun s => (n <= uid s)%nat) (submit s2i (yieldNext fuel) o).
Proof.
  apply keeps_submit; try done.
  - apply uid_interceptor.
  - apply uid_interceptor.
  - apply keeps_yieldNext; try done.
    + apply uid_interceptor.
    + apply uid_interceptor.
Qed.

Lemma prepare_generates (a : argument) (o : gmap string value) (s s1 : state) :
  prepare a s = Ok o s1 ->
  truthyV (prop (given a ∪ defaults s) "id") = false ->
  prop o "id" = VPrim (PStr ("_script-" +:+ pretty (uid s)))
  /\ s1 = set_uid (S (uid s)) s.
Proof.
  intros Hp Hid. destruct (prepare_shape _ _ _ _ Hp) as (o1 & _ & H1 & _ & H3).
  rewrite defaultDefer_other, normalizeOnload_other, H1, Hid in H3 by done.
  exact H3.
Qed.

(** X13: an identifier the loader generates is never generated again: two
    requests that come without an [id], whatever happens on the page between
    them, get different ones. *)
Theorem generated_ids_differ (parseHTML : string -> list html) (s2i : string -> Z)
    (a1 a2 : argument) (o1 o2 : gmap string value) (s s1 s' s2 : state)
    (evs : list host_event) :
  prepare a1 s = Ok o1 s1 ->
  truthyV (prop (given a1 ∪ defaults s) "id") = false ->
  s' = final (run parseHTML s2i evs (final (dispatch parseHTML s2i (Call a1) s))) ->
  prepare a2 s' = Ok o2 s2 ->
  truthyV (prop (given a2 ∪ defaults s') "id") = false ->
  prop o1 "id" <> prop o2 "id".
Proof.
  intros Hp1 Hi1 Hs' Hp2 Hi2.
  destruct (prepare_generates _ _ _ _ Hp1 Hi1) as [E1 ->].
  destruct (prepare_generates _ _ _ _ Hp2 Hi2) as [E2 _].
  assert (Hu : (S (uid s) <= uid s')%nat).
  { subst s'. apply uid_grows. cbn [dispatch]. unfold script. rewrite final_bind, Hp1.
    apply uid_grows_submit. cbn. lia. }
  rewrite E1, E2. intros [= H]. change ("" +:+ ?x) with x in H.
  apply (inj pretty) in H. lia.
Qed.

Lemma generated_ids_differ_witness :
  prop (fst (prepared (ArgPrim (PStr "a.js")) start)) "id"
  <> prop (fst (prepared (ArgPrim (PStr "b.js"))
                  (final (run parse_text integer_zero [DocumentReady]
                     (final (dispatch parse_text integer_zero
                               (Call (ArgPrim (PStr "a.js"))) start)))))) "id".
Proof.
  apply (generated_ids_differ parse_text integer_zero
           (ArgPrim (PStr "a.js")) (ArgPrim (PStr "b.js")) _ _ start
           (snd (prepared (ArgPrim (PStr "a.js")) start))
           (final (run parse_text integer_zero [DocumentReady]
                     (final (dispatch parse_text integer_zero
                               (Call (ArgPrim (PStr "a.js"))) start))))
           (snd (prepared (ArgPrim (PStr "b.js"))
                   (final (run parse_text integer_zero [DocumentReady]
                      (final (dispatch parse_text integer_zero
                                (Call (ArgPrim (PStr "a.js"))) start))))))
           [DocumentReady]).
  - by vm_compute.
  - by vm_compute.
  - reflexivity.
  - by vm_compute.
  - by vm_compute.
Defined.

(** ** Where [order] puts a request *)

(** X14: where a request goes in the worklist.  With no [order] it goes to
    the end; with a number from 0 to the length, to that position; with a
    larger number, to the end; with a negative number, that many places
    before the end, and to the front when the worklist is shorter.  The
    requests already there keep their order. *)
Theorem order_positions (s2i : string -> Z) (o : gmap string value)
    (l : list (gmap string value)) (z : Z) :
  (is_nullishV (prop o "order") = true -> enqueue s2i o l = l ++ [o])
  /\ (prop o "order" = VPrim (PNum z) ->
      (0 <= z <= Z.of_nat (length l) ->
         enqueue s2i o l = take (Z.to_nat z) l ++ o :: drop (Z.to_nat z) l)
      /\ (Z.of_nat (length l) <= z -> enqueue s2i o l = l ++ [o])
      /\ (z < 0 ->
          enqueue s2i o l
          = take (length l - Z.to_nat (- z)) l ++ o :: drop (length l - Z.to_nat (- z)) l)
      /\ (z <= - Z.of_nat (length l) -> enqueue s2i o l = o :: l)).
Proof.
  split; [intros H; unfold enqueue; by rewrite H|].
  intros H. unfold enqueue, splice_in. rewrite H. cbn [is_nullishV is_nullish toInteger].
  split_and!.
  - intros Hz. destruct (z <? 0) eqn:E; [lia|]. by rewrite Z.min_l by lia.
  - intros Hz. destruct (z <? 0) eqn:E; [lia|]. rewrite Z.min_r by lia.
    rewrite Nat2Z.id, take_ge, drop_ge by lia. done.
  - intros Hz. destruct (z <? 0) eqn:E; [|lia].
    replace (Z.to_nat (Z.max (Z.of_nat (length l) + z) 0))
      with (length l - Z.to_nat (- z))%nat by lia. done.
  - intros Hz. destruct (z <? 0) eqn:E.
    + rewrite Z.max_r by lia. by rewrite take_0, drop_0.
    + assert (z = 0) as -> by lia. assert (length l = 0%nat) as Hl by lia.
      destruct l; [done|discriminate].
Qed.

Lemma order_positions_witness :
  enqueue integer_zero request_a [request_b; request_b] = [request_b; request_a; request_b].
Proof.
  destruct (order_positions integer_zero request_a [request_b; request_b] 1) as [_ H].
  destruct H as (H & _); [reflexivity|].
  rewrite H; [reflexivity|]. cbn. lia.
Defined.

(** ** The scroll check of the [attachEvent] branch *)

Lemma gate_loadAllScripts (s : state) :
  DOMContentLoaded (final (loadAllScripts s)) = DOMContentLoaded s.
Proof.
  pose proof (keeps_loadAllScripts
                (fun s' => DOMContentLoaded s' = DOMContentLoaded s)) as H.
  apply H; try done.
  - intros s0 Hs. destruct (overridden s0) as (s1 & E & _ & _ & _ & _ & _ & _ & _ & _ & _ & _ & Hb & _).
    rewrite E. cbn [final]. congruence.
  - intros s0 Hs. unfold restoreDocWrites, modify. cbn [final].
    destruct (docWrite s0); cbn; by destruct (docWriteln s0).
Qed.

Lemma scripts_loadAllScripts (s : state) : scripts (final (loadAllScripts s)) = None.
Proof.
  unfold loadAllScripts, bind at 1, gets.
  destruct (scripts s) as [l|] eqn:Hl; [|done].
  unfold bind at 1, modify. rewrite final_then_ret.
  by apply still_yieldNext.
Qed.

(** X15: in the [attachEvent] branch of the gate, a scroll check that
    succeeds hands the worklist to the scheduler but leaves the gate as it
    is.  A request made after that, while the gate is still closed, goes the
    way of a request made while the document is being built: its markup is
    written, and then the call fails with a [TypeError], because there is no
    worklist any more; the request is not loaded. *)
Theorem scroll_check_strands_requests (s2i : string -> Z) (yn : M bool)
    (a : argument) (o : gmap string value) (s s1 : state) :
  DOMContentLoaded s = true ->
  prepare a (final (doScrollCheck true s)) = Ok o s1 ->
  DOMContentLoaded (final (doScrollCheck true s)) = true
  /\ scripts (final (doScrollCheck true s)) = None
  /\ exists s2,
       script s2i yn a (final (doScrollCheck true s)) = Err TypeError s2
       /\ s2 = final (call_writer (doc_write s1) [PStr (placeholderMarkup o)] s1)
       /\ trace s2 = trace (final (doScrollCheck true s)).
Proof.
  intros Hb Hp.
  assert (Hf : final (doScrollCheck true s) = final (loadAllScripts s)).
  { unfold doScrollCheck, bind at 1, gets. rewrite Hb. cbn [negb].
    rewrite final_bind. by destruct (loadAllScripts s) as [[] s'|e s'|s']. }
  rewrite Hf in *. set (s0 := final (loadAllScripts s)) in *.
  assert (Hb0 : DOMContentLoaded s0 = true) by (by unfold s0; rewrite gate_loadAllScripts).
  assert (Hs0 : scripts s0 = None) by apply scripts_loadAllScripts.
  split; [done|]. split; [done|].
  assert (H1 : DOMContentLoaded s1 = true /\ scripts s1 = None /\ trace s1 = trace s0).
  { by destruct (prepare_state _ _ _ _ Hp) as [->| ->]. }
  destruct H1 as (Hb1 & Hs1 & Ht1).
  eexists. split; [|split; [reflexivity|]].
  - unfold script, bind at 1. rewrite Hp. unfold submit, bind at 1, gets. rewrite Hb1.
    unfold bind at 1, bind at 1. rewrite call_writer_ok.
    unfold bind, gets. by rewrite call_writer_scripts, Hs1.
  - rewrite <- Ht1.
    pose proof (keeps_call_writer (fun s' => trace s' = trace s1)) as H.
    by apply H.
Qed.

Lemma scroll_check_strands_requests_witness :
  exists s2,
    script integer_zero (ret false) (ArgPrim (PStr "a.js"))
      (final (doScrollCheck true start))
    = Err TypeError s2
    /\ trace s2 = [].
Proof.
  destruct (scroll_check_strands_requests integer_zero (ret false)
              (ArgPrim (PStr "a.js"))
              (fst (prepared (ArgPrim (PStr "a.js")) (final (doScrollCheck true start))))
              start
              (snd (prepared (ArgPrim (PStr "a.js")) (final (doScrollCheck true start)))))
    as (_ & _ & s2 & H1 & _ & H2); [reflexivity|by vm_compute|].
  exists s2. split; [exact H1|]. rewrite H2. by vm_compute.
Defined.

(** ** The next request begins when a load ends *)

Lemma continues_keeps_yieldNext (t0 : list event) (fuel : nat) :
  keeps (continues t0) (yieldNext fuel).
Proof.
  assert (Hlog : forall e s, continues t0 s -> continues t0 (set_trace (trace s ++ [e]) s)).
  { intros e s [more Hm]. exists (more ++ [e]). cbn. by rewrite Hm, app_assoc. }
  apply keeps_yieldNext; try done; try (intros; by apply Hlog).
  - intros s [more Hs]. exists more.
    destruct (overridden s) as (s1 & E & _ & _ & _ & _ & Ht & _).
    rewrite E. cbn [final]. congruence.
  - intros s [more Hs]. exists more. rewrite <- Hs.
    unfold restoreDocWrites, modify. cbn [final].
    destruct (docWrite s); cbn; by destruct (docWriteln s).
Qed.

(** X16: a load signal that gets through to the handler of the request the
    scheduler is waiting for ends that request and begins the next one of
    the worklist at once, whatever the callbacks of the request do: also
    when they throw, and also when [loaded] returns [false].  (Only a replay
    loop that does not end would keep the scheduler waiting.) *)
Theorem signal_starts_next_request (parseHTML : string -> list html)
    (s2i : string -> Z) (n : nid) (via : signal) (c : closure)
    (o' : gmap string value) (readyState : prim) (s : state) :
  handlers s !! n = Some c ->
  c_done c = false ->
  bound via c = true ->
  c_end c = Some EndDrain ->
  ready readyState = true ->
  _scripts s !! next s = Some o' ->
  (forall sg, handleScriptLoaded parseHTML (c_opts c) n (entered n c s) <> Gas sg) ->
  exists t more,
    Forall (fun e => quiet e = true) t
    /\ trace (final (dispatch parseHTML s2i (Signal n via readyState) s))
       = trace s ++ [EvHandler n] ++ t
         ++ [EvEnd (c_opts c) EndDrain; EvLoadScript o' (Some EndDrain)] ++ more.
Proof.
  intros Hl Hd Hbd He Hr Hn Hgas.
  cbn [dispatch]. rewrite Hl, Hbd. unfold depth. set (fuel := length (_scripts s)).
  clearbody fuel.
  rewrite loadHandler_eq, Hl, Hd, Hr. cbn [negb andb].
  rewrite final_try_finally.
  pose proof (final_framed _ (entered n c s)
                (framed_handleScriptLoaded parseHTML (c_opts c) n)) as Ha.
  assert (Hnext : forall s1, agree (entered n c s) s1 ->
            exists t more,
              Forall (fun e => quiet e = true) t
              /\ trace (final (call_end (endFunction (yieldNext (S fuel)))
                                 (c_opts c) (c_end c) s1))
                 = trace s ++ [EvHandler n] ++ t
                   ++ [EvEnd (c_opts c) EndDrain; EvLoadScript o' (Some EndDrain)] ++ more).
  { intros s1 [Ha1 Ha2 _ _ _ (t & Ht & Hq)]. exists t.
    cbn [_scripts next trace entered set_trace set_handlers] in Ha1, Ha2, Ht.
    rewrite He. unfold call_end, bind at 1, log, modify. rewrite endFunction_eq.
    set (s2 := restored _).
    assert (H2 : _scripts s2 = _scripts s /\ next s2 = next s
                 /\ trace s2 = trace s1 ++ [EvEnd (c_opts c) EndDrain]).
    { unfold s2. rewrite trace_restored.
      destruct (agree_restored (set_trace (trace s1 ++ [EvEnd (c_opts c) EndDrain]) s1))
        as [-> -> _ _ _ _]. by cbn. }
    clearbody s2. destruct H2 as (A1 & A2 & A3).
    rewrite final_then_ret, yieldNext_S, A1, A2, Hn. rewrite final_bind.
    unfold loadAndYieldNext, bind at 1. rewrite overrideDocWrites_ok.
    set (s3 := final (overrideDocWrites _)).
    assert (H3 : trace s3 = trace s2).
    { unfold s3.
      lazymatch goal with
      | |- trace (final (overrideDocWrites ?x)) = _ =>
          destruct (agree_overridden x) as [_ H]
      end.
      rewrite H. reflexivity. }
    clearbody s3.
    assert (Hc : continues (trace s3 ++ [EvLoadScript o' (Some EndDrain)])
                   (final (loadScript (yieldNext fuel) o' (Some EndDrain) s3))).
    { destruct (truthyV (prop o' "defer")) eqn:Hdef.
      - destruct (loadScript_deferred (yieldNext fuel) o' (Some EndDrain) s3 Hdef)
          as (s4 & _ & _ & Ht4 & _ & [_ _ _ _ _ (t' & Ht' & _)]).
        exists t'. by rewrite Ht', Ht4.
      - rewrite (loadScript_sync _ _ _ _ Hdef).
        set (T0 := trace s3 ++ [EvLoadScript o' (Some EndDrain)]).
        assert (Hlog : forall e s, continues T0 s ->
                  continues T0 (set_trace (trace s ++ [e]) s)).
        { intros e s' [more Hm]. exists (more ++ [e]). cbn. by rewrite Hm, app_assoc. }
        assert (Hres : keeps (continues T0) restoreDocWrites).
        { intros s' [more Hs]. exists more. rewrite <- Hs.
          unfold restoreDocWrites, modify. cbn [final].
          destruct (docWrite s'); cbn; by destruct (docWriteln s'). }
        apply keeps_try_finally.
        + apply keeps_callbacks; try done; intros; by apply Hlog.
        + unfold cleanup. apply keeps_bind.
          * destruct (getElementById _ _); [by apply keeps_on_page|apply keeps_throw].
          * intros _. apply keeps_call_end; try done; try (intros; by apply Hlog).
            apply continues_keeps_yieldNext.
        + exists []. cbn. by rewrite app_nil_r. }
    destruct Hc as [more Hm]. exists more. split; [done|].
    destruct (loadScript _ _ _ s3) as [[] s4|e s4|s4]; unfold ret; cbn [final] in *;
      rewrite Hm, H3, A3, Ht, <- !app_assoc; done. }
  destruct (handleScriptLoaded parseHTML (c_opts c) n (entered n c s)) as [[] s1|e s1|s1].
  - by apply Hnext.
  - by apply Hnext.
  - by destruct (Hgas s1).
Qed.

Lemma signal_starts_next_request_witness :
  exists t more,
    Forall (fun e => quiet e = true) t
    /\ trace (final (dispatch parse_text integer_zero (Signal 5%nat OnLoad PUndef)
                       waiting_state))
       = trace waiting_state ++ [EvHandler 5%nat] ++ t
         ++ [EvEnd (c_opts waiting_closure) EndDrain;
             EvLoadScript (default ∅ (_scripts waiting_state !! 1%nat)) (Some EndDrain)]
         ++ more.
Proof.
  apply (signal_starts_next_request parse_text integer_zero 5%nat OnLoad
           waiting_closure (default ∅ (_scripts waiting_state !! 1%nat)) PUndef
           waiting_state).
  - by vm_compute.
  - reflexivity.
  - reflexivity.
  - reflexivity.
  - reflexivity.
  - by vm_compute.
  - intros sg. by vm_compute.
Defined.

(** ** Ready triggers after the first *)

Lemma loadAllScripts_taken (s : state) : scripts s = None -> loadAllScripts s = Ok tt s.
Proof. intros H. unfold loadAllScripts, bind, gets. by rewrite H. Qed.

(** X25: the worklist is handed to the scheduler once.  When it has been
    handed over, none of the ready triggers of either branch of the gate (the
    [DOMContentLoaded] listener, the [load] fallback, the
    [onreadystatechange] listener, the scroll check) loads, records or
    changes anything but the gate; the scroll check is not scheduled again,
    and [load] and a [readyState] of "complete" leave the gate open. *)
Theorem later_triggers_load_nothing (readyState : prim) (scrolls : bool) (s : state) :
  scripts s = None ->
  (exists s1, onDOMContentLoaded s = Ok tt s1 /\ only_gate s s1
              /\ DOMContentLoaded s1 = false)
  /\ (exists s2, load s = Ok tt s2 /\ only_gate s s2 /\ DOMContentLoaded s2 = false)
  /\ (exists s3, onreadystatechange readyState s = Ok tt s3 /\ only_gate s s3
                 /\ DOMContentLoaded s3
                    = (if prim_eqb readyState (PStr "complete") then false
                       else DOMContentLoaded s))
  /\ (exists s4, doScrollCheck scrolls s
                 = Ok (negb scrolls && DOMContentLoaded s) s4
                 /\ only_gate s s4 /\ DOMContentLoaded s4 = DOMContentLoaded s).
Proof.
  intros H.
  split_and!.
  - eexists. unfold onDOMContentLoaded, bind, modify.
    rewrite loadAllScripts_taken by (by destruct s).
    split; [done|]. by destruct s.
  - unfold load, bind, gets. destruct (DOMContentLoaded s) eqn:Hg.
    + eexists. unfold bind, modify. rewrite loadAllScripts_taken by (by destruct s).
      split; [done|]. by destruct s.
    + eexists. split; [done|]. by destruct s.
  - unfold onreadystatechange. destruct (prim_eqb readyState (PStr "complete")).
    + eexists. unfold bind, modify. rewrite loadAllScripts_taken by (by destruct s).
      split; [done|]. by destruct s.
    + eexists. split; [done|]. by destruct s.
  - unfold doScrollCheck, bind, gets. destruct (DOMContentLoaded s) eqn:Hg; cbn [negb].
    + destruct scrolls; cbn [negb andb].
      * rewrite loadAllScripts_taken by done. eexists. split; [done|]. by destruct s.
      * eexists. split; [done|]. by destruct s.
    + eexists. split; [by rewrite andb_false_r|]. by destruct s.
Qed.

Lemma later_triggers_load_nothing_witness :
  exists s4, doScrollCheck true ready_page = Ok false s4 /\ only_gate ready_page s4.
Proof.
  destruct (later_triggers_load_nothing (PStr "complete") true ready_page)
    as (_ & _ & _ & s4 & E & H & _); [reflexivity|].
  exists s4. split; [exact E | exact H].
Defined.

(** ** The element tree *)

Lemma tree_ind' (P : tree -> Prop) :
  (forall h ks, Forall P ks -> P (Node h ks)) -> forall t, P t.
Proof.
  intros H. fix IH 1. intros [h ks]. apply H.
  induction ks as [|k ks IHks]; constructor; [apply IH|apply IHks].
Qed.

Lemma handles_Node (h : nid) (ks : list tree) :
  handles (Node h ks) = h :: handles_forest ks.
Proof. reflexivity. Qed.

Lemma handles_forest_cons (k : tree) (l : list tree) :
  handles_forest (k :: l) = handles k ++ handles_forest l.
Proof. reflexivity. Qed.

Lemma handles_forest_app (l l' : list tree) :
  handles_forest (l ++ l') = handles_forest l ++ handles_forest l'.
Proof.
  induction l as [|k l IH]; [done|].
  rewrite <- app_comm_cons, !handles_forest_cons, IH. by rewrite app_assoc.
Qed.

Lemma root_in_handles (t : tree) : root t ∈ handles t.
Proof. destruct t. rewrite handles_Node. apply list_elem_of_here. Qed.

Lemma subtree_Node (h p : nid) (ks : list tree) :
  subtree h (Node p ks)
  = if Nat.eqb p h then Some (Node p ks) else subtree_forest h ks.
Proof. reflexivity. Qed.

Lemma subtree_forest_cons (h : nid) (k : tree) (l : list tree) :
  subtree_forest h (k :: l)
  = match subtree h k with Some r => Some r | None => subtree_forest h l end.
Proof. reflexivity. Qed.

Lemma parent_in_Node (h p : nid) (ks : list tree) :
  parent_in h (Node p ks)
  = if existsb (fun k => Nat.eqb (root k) h) ks then Some p else parent_forest h ks.
Proof. reflexivity. Qed.

Lemma parent_forest_cons (h : nid) (k : tree) (l : list tree) :
  parent_forest h (k :: l)
  = match parent_in h k with Some r => Some r | None => parent_forest h l end.
Proof. reflexivity. Qed.

Lemma prune_Node (h p : nid) (ks : list tree) :
  prune h (Node p ks) = Node p (prune_kids h ks).
Proof. reflexivity. Qed.

Lemma prune_kids_cons (h : nid) (k : tree) (l : list tree) :
  prune_kids h (k :: l)
  = if Nat.eqb (root k) h then prune_kids h l else prune h k :: prune_kids h l.
Proof. reflexivity. Qed.

Lemma insert_after_Node (a : nid) (new : tree) (p : nid) (ks : list tree) :
  insert_after a new (Node p ks) = Node p (insert_after_kids a new ks).
Proof. reflexivity. Qed.

Lemma insert_after_kids_cons (a : nid) (new k : tree) (l : list tree) :
  insert_after_kids a new (k :: l)
  = if Nat.eqb (root k) a then k :: new :: l
    else insert_after a new k :: insert_after_kids a new l.
Proof. reflexivity. Qed.

Lemma insert_before_Node (a : nid) (new : tree) (p : nid) (ks : list tree) :
  insert_before a new (Node p ks) = Node p (insert_before_kids a new ks).
Proof. reflexivity. Qed.

Lemma insert_before_kids_cons (a : nid) (new k : tree) (l : list tree) :
  insert_before_kids a new (k :: l)
  = if Nat.eqb (root k) a then new :: k :: l
    else insert_before a new k :: insert_before_kids a new l.
Proof. reflexivity. Qed.

Lemma insert_all_after_Node (a : nid) (new : list tree) (p : nid) (ks : list tree) :
  insert_all_after a new (Node p ks) = Node p (insert_all_after_kids a new ks).
Proof. reflexivity. Qed.

Lemma insert_all_after_kids_cons (a : nid) (new : list tree) (k : tree) (l : list tree) :
  insert_all_after_kids a new (k :: l)
  = if Nat.eqb (root k) a then k :: new ++ l
    else insert_all_after a new k :: insert_all_after_kids a new l.
Proof. reflexivity. Qed.

Lemma find_node_Node (P : nid -> bool) (h : nid) (ks : list tree) :
  find_node P (Node h ks) = if P h then Some h else find_forest P ks.
Proof. reflexivity. Qed.

Lemma find_forest_cons (P : nid -> bool) (k : tree) (l : list tree) :
  find_forest P (k :: l)
  = match find_node P k with Some r => Some r | None => find_forest P l end.
Proof. reflexivity. Qed.

(** *** Handles that do not occur *)

Lemma prune_notin (h : nid) (t : tree) : h ∉ handles t -> prune h t = t.
Proof.
  induction t as [p ks IH] using tree_ind'. rewrite handles_Node, prune_Node.
  intros Hn. f_equal. apply not_elem_of_cons in Hn as [_ Hn].
  induction ks as [|k ks IHks]; [done|].
  rewrite handles_forest_cons in Hn. apply not_elem_of_app in Hn as [Hk Hks].
  inversion IH as [|? ? IHk IHks']; subst. rewrite prune_kids_cons.
  destruct (Nat.eqb_spec (root k) h) as [<-|_].
  - destruct Hk. apply root_in_handles.
  - by rewrite IHk, IHks.
Qed.

Lemma prune_kids_notin (h : nid) (l : list tree) :
  h ∉ handles_forest l -> prune_kids h l = l.
Proof.
  intros Hn. induction l as [|k l IH]; [done|].
  rewrite handles_forest_cons in Hn. apply not_elem_of_app in Hn as [Hk Hl].
  rewrite prune_kids_cons.
  destruct (Nat.eqb_spec (root k) h) as [<-|_].
  - destruct Hk. apply root_in_handles.
  - by rewrite prune_notin, IH.
Qed.

Lemma insert_after_notin (a : nid) (new t : tree) :
  a ∉ handles t -> insert_after a new t = t.
Proof.
  induction t as [p ks IH] using tree_ind'. rewrite handles_Node, insert_after_Node.
  intros Hn. f_equal. apply not_elem_of_cons in Hn as [_ Hn].
  induction ks as [|k ks IHks]; [done|].
  rewrite handles_forest_cons in Hn. apply not_elem_of_app in Hn as [Hk Hks].
  inversion IH as [|? ? IHk IHks']; subst. rewrite insert_after_kids_cons.
  destruct (Nat.eqb_spec (root k) a) as [<-|_].
  - destruct Hk. apply root_in_handles.
  - by rewrite IHk, IHks.
Qed.

Lemma insert_after_kids_notin (a : nid) (new : tree) (l : list tree) :
  a ∉ handles_forest l -> insert_after_kids a new l = l.
Proof.
  intros Hn. induction l as [|k l IH]; [done|].
  rewrite handles_forest_cons in Hn. apply not_elem_of_app in Hn as [Hk Hl].
  rewrite insert_after_kids_cons.
  destruct (Nat.eqb_spec (root k) a) as [<-|_].
  - destruct Hk. apply root_in_handles.
  - by rewrite insert_after_notin, IH.
Qed.

Lemma replace_kids_notin (p : nid) (new : list tree) (t : tree) :
  p ∉ handles t -> replace_kids p new t = t.
Proof.
  induction t as [q ks IH] using tree_ind'. rewrite handles_Node. cbn [replace_kids].
  intros Hn. apply not_elem_of_cons in Hn as [Hq Hn].
  destruct (Nat.eqb_spec q p) as [->|_]; [done|]. f_equal.
  induction ks as [|k ks IHks]; [done|].
  rewrite handles_forest_cons in Hn. apply not_elem_of_app in Hn as [Hk Hks].
  inversion IH as [|? ? IHk IHks']; subst. cbn [map]. by rewrite IHk, IHks.
Qed.

Lemma append_kid_notin (p : nid) (new t : tree) :
  p ∉ handles t -> append_kid p new t = t.
Proof.
  induction t as [q ks IH] using tree_ind'. rewrite handles_Node. cbn [append_kid].
  intros Hn. apply not_elem_of_cons in Hn as [Hq Hn].
  destruct (Nat.eqb_spec q p) as [->|_]; [done|]. f_equal.
  induction ks as [|k ks IHks]; [done|].
  rewrite handles_forest_cons in Hn. apply not_elem_of_app in Hn as [Hk Hks].
  inversion IH as [|? ? IHk IHks']; subst. cbn [map]. by rewrite IHk, IHks.
Qed.

Lemma insert_before_notin (a : nid) (new t : tree) :
  a ∉ handles t -> insert_before a new t = t.
Proof.
  induction t as [p ks IH] using tree_ind'. rewrite handles_Node, insert_before_Node.
  intros Hn. f_equal. apply not_elem_of_cons in Hn as [_ Hn].
  induction ks as [|k ks IHks]; [done|].
  rewrite handles_forest_cons in Hn. apply not_elem_of_app in Hn as [Hk Hks].
  inversion IH as [|? ? IHk IHks']; subst. rewrite insert_before_kids_cons.
  destruct (Nat.eqb_spec (root k) a) as [<-|_].
  - destruct Hk. apply root_in_handles.
  - by rewrite IHk, IHks.
Qed.

Lemma subtree_notin (h : nid) (t : tree) : h ∉ handles t -> subtree h t = None.
Proof.
  induction t as [p ks IH] using tree_ind'. rewrite handles_Node, subtree_Node.
  intros Hn. apply not_elem_of_cons in Hn as [Hp Hn].
  destruct (Nat.eqb_spec p h) as [->|_]; [done|].
  induction ks as [|k ks IHks]; [done|].
  rewrite handles_forest_cons in Hn. apply not_elem_of_app in Hn as [Hk Hks].
  inversion IH as [|? ? IHk IHks']; subst. rewrite subtree_forest_cons.
  by rewrite IHk, IHks.
Qed.

Lemma subtree_forest_notin (h : nid) (l : list tree) :
  h ∉ handles_forest l -> subtree_forest h l = None.
Proof.
  intros Hn. induction l as [|k l IH]; [done|].
  rewrite handles_forest_cons in Hn. apply not_elem_of_app in Hn as [Hk Hl].
  by rewrite subtree_forest_cons, subtree_notin, IH.
Qed.

Lemma subtree_forest_app (h : nid) (l l' : list tree) :
  subtree_forest h (l ++ l')
  = match subtree_forest h l with Some r => Some r | None => subtree_forest h l' end.
Proof.
  induction l as [|k l IH]; [done|].
  rewrite <- app_comm_cons, !subtree_forest_cons. by destruct (subtree h k).
Qed.

Lemma subtree_root (t : tree) : subtree (root t) t = Some t.
Proof. destruct t as [p ks]. cbn [root]. by rewrite subtree_Node, Nat.eqb_refl. Qed.

Lemma find_node_ext (P Q : nid -> bool) (t : tree) :
  (forall h, h ∈ handles t -> P h = Q h) -> find_node P t = find_node Q t.
Proof.
  induction t as [p ks IH] using tree_ind'. rewrite handles_Node, !find_node_Node.
  intros H. rewrite (H p) by apply list_elem_of_here.
  destruct (Q p); [done|].
  assert (H' : forall h, h ∈ handles_forest ks -> P h = Q h).
  { intros h Hh. apply H. by apply list_elem_of_further. }
  clear H. induction ks as [|k ks IHks]; [done|].
  inversion IH as [|? ? IHk IHks']; subst. rewrite !find_forest_cons.
  rewrite IHk.
  - destruct (find_node Q k); [done|]. apply IHks; [done|].
    intros h Hh. apply H'. rewrite handles_forest_cons. apply elem_of_app. by right.
  - intros h Hh. apply H'. rewrite handles_forest_cons. apply elem_of_app. by left.
Qed.

Lemma find_forest_ext (P Q : nid -> bool) (l : list tree) :
  (forall h, h ∈ handles_forest l -> P h = Q h) -> find_forest P l = find_forest Q l.
Proof.
  intros H. induction l as [|k l IH]; [done|].
  rewrite !find_forest_cons. rewrite (find_node_ext P Q k).
  - destruct (find_node Q k); [done|]. apply IH.
    intros h Hh. apply H. rewrite handles_forest_cons. apply elem_of_app. by right.
  - intros h Hh. apply H. rewrite handles_forest_cons. apply elem_of_app. by left.
Qed.

Lemma find_node_Some (P : nid -> bool) (t : tree) (n : nid) :
  find_node P t = Some n -> n ∈ handles t /\ P n = true.
Proof.
  induction t as [p ks IH] using tree_ind'. rewrite handles_Node, find_node_Node.
  destruct (P p) eqn:Hp.
  - intros [= <-]. split; [apply list_elem_of_here|done].
  - intros H. cut (n ∈ handles_forest ks /\ P n = true).
    { intros [H1 H2]. split; [by apply list_elem_of_further|done]. }
    induction ks as [|k ks IHks]; [done|].
    inversion IH as [|? ? IHk IHks']; subst. rewrite find_forest_cons in H.
    rewrite handles_forest_cons.
    destruct (find_node P k) as [r|] eqn:Hk.
    + injection H as ->. destruct (IHk eq_refl) as [H1 H2].
      split; [apply elem_of_app; by left|done].
    + destruct (IHks IHks' H) as [H1 H2]. split; [apply elem_of_app; by right|done].
Qed.

Lemma find_forest_Some (P : nid -> bool) (l : list tree) (n : nid) :
  find_forest P l = Some n -> n ∈ handles_forest l /\ P n = true.
Proof.
  induction l as [|k l IH]; [done|].
  rewrite find_forest_cons, handles_forest_cons.
  destruct (find_node P k) as [r|] eqn:Hk.
  - intros [= ->]. destruct (find_node_Some _ _ _ Hk) as [H1 H2].
    split; [apply elem_of_app; by left|done].
  - intros H. destruct (IH H) as [H1 H2]. split; [apply elem_of_app; by right|done].
Qed.

Lemma root_prune (h : nid) (t : tree) : root (prune h t) = root t.
Proof. by destruct t. Qed.

Lemma root_insert_after (a : nid) (new t : tree) : root (insert_after a new t) = root t.
Proof. by destruct t. Qed.

Lemma root_insert_all_after (a : nid) (new : list tree) (t : tree) :
  root (insert_all_after a new t) = root t.
Proof. by destruct t. Qed.

Lemma root_replace_kids (p : nid) (new : list tree) (t : tree) :
  root (replace_kids p new t) = root t.
Proof. destruct t as [q ks]. cbn [replace_kids]. by destruct (Nat.eqb q p). Qed.

(** *** Nodes put after a child *)

Lemma insert_all_after_notin (a : nid) (new : list tree) (t : tree) :
  a ∉ handles t -> insert_all_after a new t = t.
Proof.
  induction t as [p ks IH] using tree_ind'. rewrite handles_Node, insert_all_after_Node.
  intros Hn. f_equal. apply not_elem_of_cons in Hn as [_ Hn].
  induction ks as [|k ks IHks]; [done|].
  rewrite handles_forest_cons in Hn. apply not_elem_of_app in Hn as [Hk Hks].
  inversion IH as [|? ? IHk IHks']; subst. rewrite insert_all_after_kids_cons.
  destruct (Nat.eqb_spec (root k) a) as [<-|_].
  - destruct Hk. apply root_in_handles.
  - by rewrite IHk, IHks.
Qed.

Lemma insert_all_after_nil (a : nid) (t : tree) : insert_all_after a [] t = t.
Proof.
  induction t as [p ks IH] using tree_ind'. rewrite insert_all_after_Node. f_equal.
  induction ks as [|k ks IHks]; [done|].
  inversion IH as [|? ? IHk IHks']; subst. rewrite insert_all_after_kids_cons.
  destruct (Nat.eqb (root k) a); [done|]. by rewrite IHk, IHks.
Qed.

(** One more node after [a] goes in front of those put there before. *)
Lemma insert_after_insert_all (a : nid) (x : tree) (new : list tree) (t : tree) :
  insert_after a x (insert_all_after a new t) = insert_all_after a (x :: new) t.
Proof.
  induction t as [p ks IH] using tree_ind'.
  rewrite !insert_all_after_Node, insert_after_Node. f_equal.
  induction ks as [|k ks IHks]; [done|].
  inversion IH as [|? ? IHk IHks']; subst. rewrite !insert_all_after_kids_cons.
  destruct (Nat.eqb (root k) a) eqn:E.
  - by rewrite insert_after_kids_cons, E.
  - rewrite insert_after_kids_cons, root_insert_all_after, E. by rewrite IHk, IHks.
Qed.

Lemma prune_kids_app_notin (h : nid) (new l : list tree) :
  h ∉ handles_forest new -> prune_kids h (new ++ l) = new ++ prune_kids h l.
Proof.
  intros Hn. induction new as [|y new IH]; [done|].
  rewrite handles_forest_cons in Hn. apply not_elem_of_app in Hn as [Hy Hn].
  rewrite <- !app_comm_cons, prune_kids_cons.
  destruct (Nat.eqb_spec (root y) h) as [<-|_].
  - destruct Hy. apply root_in_handles.
  - by rewrite prune_notin, IH.
Qed.

Lemma prune_insert_all (h a : nid) (new : list tree) (t : tree) :
  h <> a -> h ∉ handles_forest new ->
  prune h (insert_all_after a new t) = insert_all_after a new (prune h t).
Proof.
  intros Hne Hn. induction t as [p ks IH] using tree_ind'.
  rewrite insert_all_after_Node, !prune_Node, insert_all_after_Node. f_equal.
  induction IH as [|k ks IHk _ IHks]; [done|].
  rewrite insert_all_after_kids_cons, (prune_kids_cons h k ks).
  destruct (Nat.eqb_spec (root k) a) as [Ea|Ea].
  - destruct (Nat.eqb_spec (root k) h) as [Eh|Eh]; [congruence|].
    rewrite prune_kids_cons. destruct (Nat.eqb_spec (root k) h); [done|].
    rewrite insert_all_after_kids_cons, root_prune.
    destruct (Nat.eqb_spec (root k) a); [|done].
    by rewrite prune_kids_app_notin.
  - rewrite prune_kids_cons, root_insert_all_after.
    destruct (Nat.eqb_spec (root k) h) as [Eh|Eh]; [exact IHks|].
    rewrite insert_all_after_kids_cons, root_prune.
    destruct (Nat.eqb_spec (root k) a); [done|]. by rewrite IHk, IHks.
Qed.

Lemma prune_replace_head (h p : nid) (x : tree) (new : list tree) (t : tree) :
  root x = h -> h ∉ handles t -> h ∉ handles_forest new ->
  prune h (replace_kids p (x :: new) t) = replace_kids p new t.
Proof.
  intros Hx Ht Hn. induction t as [q ks IH] using tree_ind'.
  rewrite handles_Node in Ht. apply not_elem_of_cons in Ht as [Hq Ht].
  cbn [replace_kids]. destruct (Nat.eqb_spec q p) as [->|Hqp].
  - rewrite prune_Node, prune_kids_cons, Hx, Nat.eqb_refl. f_equal.
    by apply prune_kids_notin.
  - rewrite prune_Node. f_equal.
    induction ks as [|k ks IHks]; [done|].
    rewrite handles_forest_cons in Ht. apply not_elem_of_app in Ht as [Hk Hks].
    inversion IH as [|? ? IHk IHks']; subst. cbn [map].
    rewrite prune_kids_cons, root_replace_kids.
    destruct (Nat.eqb_spec (root k) (root x)) as [E|_].
    + destruct Hk. rewrite <- E. apply root_in_handles.
    + by rewrite IHk, IHks.
Qed.

Lemma prune_replace_self (p : nid) (new : list tree) (t : tree) :
  root t <> p -> prune p (replace_kids p new t) = prune p t.
Proof.
  induction t as [q ks IH] using tree_ind'. cbn [root replace_kids]. intros Hq.
  destruct (Nat.eqb_spec q p) as [->|_]; [done|].
  rewrite !prune_Node. f_equal.
  induction ks as [|k ks IHks]; [done|].
  inversion IH as [|? ? IHk IHks']; subst. cbn [map].
  rewrite !prune_kids_cons, root_replace_kids.
  destruct (Nat.eqb_spec (root k) p) as [E|E]; [by apply IHks|].
  by rewrite IHk, IHks.
Qed.

(** *** Finding a subtree *)

Lemma subtree_None (h : nid) (t : tree) : subtree h t = None <-> h ∉ handles t.
Proof.
  split; [|apply subtree_notin].
  induction t as [p ks IH] using tree_ind'. rewrite handles_Node, subtree_Node.
  destruct (Nat.eqb_spec p h) as [->|Hp]; [done|].
  intros H. apply not_elem_of_cons. split; [done|].
  induction ks as [|k ks IHks]; [apply not_elem_of_nil|].
  inversion IH as [|? ? IHk IHks']; subst. rewrite subtree_forest_cons in H.
  rewrite handles_forest_cons. apply not_elem_of_app.
  destruct (subtree h k) eqn:E; [done|]. split; [by apply IHk|by apply IHks].
Qed.

Lemma subtree_forest_None (h : nid) (l : list tree) :
  subtree_forest h l = None <-> h ∉ handles_forest l.
Proof.
  split; [|apply subtree_forest_notin].
  induction l as [|k l IH]; [intros _; apply not_elem_of_nil|].
  rewrite subtree_forest_cons, handles_forest_cons. intros H.
  apply not_elem_of_app. destruct (subtree h k) eqn:E; [done|].
  split; [by apply subtree_None|by apply IH].
Qed.

Lemma subtree_Some_root (h : nid) (t r : tree) : subtree h t = Some r -> root r = h.
Proof.
  induction t as [p ks IH] using tree_ind'. rewrite subtree_Node.
  destruct (Nat.eqb_spec p h) as [->|Hp]; [by intros [= <-]|].
  induction ks as [|k ks IHks]; [done|].
  inversion IH as [|? ? IHk IHks']; subst. rewrite subtree_forest_cons.
  destruct (subtree h k) eqn:E; [intros [= <-]; by apply IHk|by apply IHks].
Qed.

Lemma subtree_Some_handles (h : nid) (t r : tree) (x : nid) :
  subtree h t = Some r -> x ∈ handles r -> x ∈ handles t.
Proof.
  induction t as [p ks IH] using tree_ind'. rewrite subtree_Node, handles_Node.
  destruct (Nat.eqb_spec p h) as [->|Hp]; [by intros [= <-]|].
  intros H Hx. apply list_elem_of_further. revert H.
  induction ks as [|k ks IHks]; [done|].
  inversion IH as [|? ? IHk IHks']; subst.
  rewrite subtree_forest_cons, handles_forest_cons.
  destruct (subtree h k) eqn:E.
  - intros [= <-]. apply elem_of_app. left. by apply IHk.
  - intros H. apply elem_of_app. right. by apply IHks.
Qed.

(** The first subtree rooted at [p] after its children are replaced. *)
Lemma subtree_replace_kids (p : nid) (new : list tree) (t : tree) :
  p ∈ handles t -> subtree p (replace_kids p new t) = Some (Node p new).
Proof.
  induction t as [q ks IH] using tree_ind'. rewrite handles_Node. cbn [replace_kids].
  intros Hin. destruct (Nat.eqb_spec q p) as [->|Hq].
  - by rewrite subtree_Node, Nat.eqb_refl.
  - rewrite subtree_Node. destruct (Nat.eqb_spec q p); [done|].
    apply elem_of_cons in Hin as [->|Hin]; [done|].
    induction ks as [|k ks IHks]; [by apply elem_of_nil in Hin|].
    inversion IH as [|? ? IHk IHks']; subst. cbn [map].
    rewrite subtree_forest_cons. rewrite handles_forest_cons in Hin.
    destruct (decide (p ∈ handles k)) as [Hk|Hk].
    + by rewrite IHk.
    + rewrite replace_kids_notin by done. rewrite subtree_notin by done.
      apply IHks; [done|]. apply elem_of_app in Hin as [?|?]; done.
Qed.

(** A node found among the new children of [p]. *)
Lemma subtree_replace_kids_new (h p : nid) (new : list tree) (t : tree) :
  p ∈ handles t -> h ∉ handles t ->
  subtree h (replace_kids p new t) = subtree_forest h new.
Proof.
  induction t as [q ks IH] using tree_ind'. rewrite handles_Node. cbn [replace_kids].
  intros Hin Hh. apply not_elem_of_cons in Hh as [Hqh Hh].
  destruct (Nat.eqb_spec q p) as [->|Hq].
  - rewrite subtree_Node. by destruct (Nat.eqb_spec p h).
  - rewrite subtree_Node. destruct (Nat.eqb_spec q h); [done|].
    apply elem_of_cons in Hin as [->|Hin]; [done|].
    induction ks as [|k ks IHks]; [by apply elem_of_nil in Hin|].
    inversion IH as [|? ? IHk IHks']; subst. cbn [map].
    rewrite subtree_forest_cons. rewrite handles_forest_cons in Hin, Hh.
    apply not_elem_of_app in Hh as [Hhk Hhks].
    destruct (decide (p ∈ handles k)) as [Hk|Hk].
    + rewrite IHk by done. destruct (subtree_forest h new) eqn:E; [done|].
      destruct (decide (p ∈ handles_forest ks)) as [Hks|Hks]; [by apply IHks|].
      assert (Hm : map (replace_kids p new) ks = ks).
      { clear -Hks. induction ks as [|c ks IH]; [done|].
        rewrite handles_forest_cons in Hks. apply not_elem_of_app in Hks as [? ?].
        cbn [map]. by rewrite replace_kids_notin, IH. }
      rewrite Hm. by apply subtree_forest_notin.
    + rewrite replace_kids_notin by done. rewrite subtree_notin by done.
      apply IHks; [done| |done]. apply elem_of_app in Hin as [?|?]; done.
Qed.

(** A subtree that does not hold [a] is found as it is when nodes are put
    after [a]. *)
Lemma subtree_insert_all_None (h a : nid) (new : list tree) (t : tree) :
  h ∉ handles_forest new -> subtree h t = None ->
  subtree h (insert_all_after a new t) = None.
Proof.
  intros Hn. induction t as [p ks IH] using tree_ind'.
  rewrite insert_all_after_Node, !subtree_Node.
  destruct (Nat.eqb_spec p h) as [->|Hp]; [done|].
  induction ks as [|k ks IHks]; [done|].
  inversion IH as [|? ? IHk IHks']; subst.
  rewrite subtree_forest_cons, insert_all_after_kids_cons.
  destruct (subtree h k) eqn:E; [done|]. intros H.
  destruct (Nat.eqb (root k) a).
  - rewrite subtree_forest_cons, E, subtree_forest_app.
    by rewrite (subtree_forest_notin h new).
  - rewrite subtree_forest_cons, IHk by done. by apply IHks.
Qed.

Lemma subtree_insert_all (h a : nid) (new : list tree) (t r : tree) :
  h ∉ handles_forest new -> a ∉ handles r -> subtree h t = Some r ->
  subtree h (insert_all_after a new t) = Some r.
Proof.
  intros Hn Ha. induction t as [p ks IH] using tree_ind'.
  rewrite subtree_Node.
  destruct (Nat.eqb_spec p h) as [->|Hp].
  - intros [= <-]. rewrite insert_all_after_notin by done.
    by rewrite subtree_Node, Nat.eqb_refl.
  - rewrite insert_all_after_Node, subtree_Node.
    destruct (Nat.eqb_spec p h); [done|].
    induction ks as [|k ks IHks]; [done|].
    inversion IH as [|? ? IHk IHks']; subst.
    rewrite subtree_forest_cons, insert_all_after_kids_cons.
    destruct (Nat.eqb (root k) a).
    + rewrite subtree_forest_cons. destruct (subtree h k) eqn:E; [done|].
      intros H. rewrite subtree_forest_app. by rewrite (subtree_forest_notin h new).
    + rewrite subtree_forest_cons. destruct (subtree h k) eqn:E.
      * intros [= <-]. by rewrite IHk.
      * intros H. rewrite subtree_insert_all_None by done. by apply IHks.
Qed.

(** *** The parent of a node *)

Lemma parent_in_notin (h : nid) (t : tree) : h ∉ handles t -> parent_in h t = None.
Proof.
  induction t as [p ks IH] using tree_ind'. rewrite handles_Node, parent_in_Node.
  intros Hn. apply not_elem_of_cons in Hn as [_ Hn].
  assert (He : existsb (fun k => Nat.eqb (root k) h) ks = false).
  { clear IH. induction ks as [|k ks IHks]; [done|].
    rewrite handles_forest_cons in Hn. apply not_elem_of_app in Hn as [Hk Hks].
    cbn [existsb]. rewrite IHks by done.
    destruct (Nat.eqb_spec (root k) h) as [<-|_]; [|done].
    destruct Hk. apply root_in_handles. }
  rewrite He. induction ks as [|k ks IHks]; [done|].
  rewrite handles_forest_cons in Hn. apply not_elem_of_app in Hn as [Hk Hks].
  inversion IH as [|? ? IHk IHks']; subst. rewrite parent_forest_cons.
  cbn [existsb] in He. apply orb_false_iff in He as [_ He].
  by rewrite IHk, IHks.
Qed.

Lemma parent_forest_notin (h : nid) (l : list tree) :
  h ∉ handles_forest l -> parent_forest h l = None.
Proof.
  intros Hn. induction l as [|k l IH]; [done|].
  rewrite handles_forest_cons in Hn. apply not_elem_of_app in Hn as [Hk Hl].
  by rewrite parent_forest_cons, parent_in_notin, IH.
Qed.

Lemma parent_forest_app (h : nid) (l l' : list tree) :
  parent_forest h (l ++ l')
  = match parent_forest h l with Some r => Some r | None => parent_forest h l' end.
Proof.
  induction l as [|k l IH]; [done|].
  rewrite <- app_comm_cons, !parent_forest_cons. by destruct (parent_in h k).
Qed.

Lemma existsb_root_notin (h : nid) (l : list tree) :
  h ∉ handles_forest l -> existsb (fun k => Nat.eqb (root k) h) l = false.
Proof.
  intros Hn. induction l as [|k l IH]; [done|].
  rewrite handles_forest_cons in Hn. apply not_elem_of_app in Hn as [Hk Hl].
  cbn [existsb]. rewrite IH by done.
  destruct (Nat.eqb_spec (root k) h) as [<-|_]; [|done].
  destruct Hk. apply root_in_handles.
Qed.

Lemma existsb_root_insert_all (h a : nid) (new l : list tree) :
  h ∉ handles_forest new ->
  existsb (fun k => Nat.eqb (root k) h) (insert_all_after_kids a new l)
  = existsb (fun k => Nat.eqb (root k) h) l.
Proof.
  intros Hn. induction l as [|k l IH]; [done|].
  rewrite insert_all_after_kids_cons. destruct (Nat.eqb (root k) a).
  - cbn [existsb]. rewrite existsb_app, existsb_root_notin by done. done.
  - cbn [existsb]. by rewrite root_insert_all_after, IH.
Qed.

Lemma parent_insert_all (h a : nid) (new : list tree) (t : tree) :
  h ∉ handles_forest new ->
  parent_in h (insert_all_after a new t) = parent_in h t.
Proof.
  intros Hn. induction t as [p ks IH] using tree_ind'.
  rewrite insert_all_after_Node, !parent_in_Node, existsb_root_insert_all by done.
  destruct (existsb _ ks); [done|].
  induction IH as [|k ks IHk _ IHks]; [done|].
  rewrite insert_all_after_kids_cons, (parent_forest_cons h k ks).
  destruct (Nat.eqb (root k) a).
  - rewrite parent_forest_cons. destruct (parent_in h k); [done|].
    by rewrite parent_forest_app, parent_forest_notin.
  - rewrite parent_forest_cons, IHk. by destruct (parent_in h k).
Qed.

Lemma existsb_root_map (f : tree -> tree) (h : nid) (l : list tree) :
  (forall t, root (f t) = root t) ->
  existsb (fun k => Nat.eqb (root k) h) (map f l)
  = existsb (fun k => Nat.eqb (root k) h) l.
Proof.
  intros Hf. induction l as [|k l IH]; [done|]. cbn [map existsb]. by rewrite Hf, IH.
Qed.

Lemma map_replace_kids_notin (p : nid) (new l : list tree) :
  p ∉ handles_forest l -> map (replace_kids p new) l = l.
Proof.
  intros Hn. induction l as [|c l IH]; [done|].
  rewrite handles_forest_cons in Hn. apply not_elem_of_app in Hn as [? ?].
  cbn [map]. by rewrite replace_kids_notin, IH.
Qed.

(** Replacing the children of [p] leaves the parent of a node outside of
    [p] as it is. *)
Lemma parent_replace_kids (a p : nid) (new : list tree) (t : tree) :
  NoDup (handles t) ->
  a ∉ handles_forest new ->
  (forall r, subtree p t = Some r -> a ∉ handles r) ->
  parent_in a (replace_kids p new t) = parent_in a t.
Proof.
  intros Hnd Hn. induction t as [q ks IH] using tree_ind'.
  rewrite handles_Node in Hnd. apply NoDup_cons in Hnd as [_ Hnd].
  rewrite subtree_Node. cbn [replace_kids].
  destruct (Nat.eqb_spec q p) as [->|Hq].
  - intros H. specialize (H _ eq_refl).
    rewrite (parent_in_notin a (Node p ks)) by done.
    rewrite parent_in_Node, existsb_root_notin, parent_forest_notin by done. done.
  - intros H. rewrite !parent_in_Node, existsb_root_map by apply root_replace_kids.
    destruct (existsb _ ks); [done|].
    induction IH as [|k ks IHk _ IHks]; [done|].
    rewrite handles_forest_cons in Hnd. apply NoDup_app in Hnd as (Hk & Hdis & Hks).
    rewrite subtree_forest_cons in H. cbn [map]. rewrite !parent_forest_cons.
    rewrite IHk; [|done|].
    + destruct (parent_in a k); [done|]. apply IHks; [done|].
      intros r Hr. destruct (subtree p k) as [rk|] eqn:E; [|by apply H].
      assert (Hp : p ∈ handles k).
      { destruct (decide (p ∈ handles k)) as [?|Hc]; [done|].
        apply subtree_notin in Hc. congruence. }
      apply Hdis in Hp. apply subtree_forest_notin in Hp. congruence.
    + intros r Hr. apply H. by rewrite Hr.
Qed.

Lemma parent_replace_kids_self (p : nid) (new : list tree) (t : tree) :
  root t <> p -> parent_in p (replace_kids p new t) = parent_in p t.
Proof.
  induction t as [q ks IH] using tree_ind'. cbn [root replace_kids]. intros Hq.
  destruct (Nat.eqb_spec q p) as [->|_]; [done|].
  rewrite !parent_in_Node, existsb_root_map by apply root_replace_kids.
  destruct (existsb _ ks) eqn:He; [done|].
  induction IH as [|k ks IHk _ IHks]; [done|].
  cbn [existsb] in He. apply orb_false_iff in He as [Hk He].
  cbn [map]. rewrite !parent_forest_cons. rewrite IHk.
  - destruct (parent_in p k); [done|]. by apply IHks.
  - by apply Nat.eqb_neq.
Qed.

(** A node below the root has a parent. *)
Lemma parent_in_forest (h : nid) (t : tree) :
  h ∈ handles_forest (children t) -> parent_in h t <> None.
Proof.
  induction t as [q ks IH] using tree_ind'. cbn [children]. rewrite parent_in_Node.
  intros Hin. destruct (existsb _ ks) eqn:He; [done|].
  induction IH as [|k ks IHk _ IHks]; [by apply elem_of_nil in Hin|].
  cbn [existsb] in He. apply orb_false_iff in He as [Hk He].
  rewrite parent_forest_cons. rewrite handles_forest_cons in Hin.
  destruct (parent_in h k) eqn:E; [done|].
  apply elem_of_app in Hin as [Hin|Hin]; [|by apply IHks].
  exfalso. apply IHk; [|done].
  destruct k as [r cs]. rewrite handles_Node in Hin. cbn [children].
  apply elem_of_cons in Hin as [->|Hin]; [|done].
  cbn [root] in Hk. by rewrite Nat.eqb_refl in Hk.
Qed.

Lemma parent_in_handles (h : nid) (t : tree) : parent_in h t <> None -> h ∈ handles t.
Proof.
  intros H. destruct (decide (h ∈ handles t)) as [?|Hn]; [done|].
  by apply parent_in_notin in Hn.
Qed.

(** Once pruned, a handle is in the tree no more. *)
Lemma notin_prune (h : nid) (t : tree) : root t <> h -> h ∉ handles (prune h t).
Proof.
  induction t as [q ks IH] using tree_ind'. cbn [root]. intros Hq.
  rewrite prune_Node, handles_Node. apply not_elem_of_cons. split; [done|].
  induction IH as [|k ks IHk _ IHks]; [apply not_elem_of_nil|].
  rewrite prune_kids_cons. destruct (Nat.eqb_spec (root k) h) as [E|E]; [done|].
  rewrite handles_forest_cons. apply not_elem_of_app. split; [by apply IHk|done].
Qed.

Lemma handles_prune (h x : nid) (t : tree) : x ∈ handles (prune h t) -> x ∈ handles t.
Proof.
  induction t as [q ks IH] using tree_ind'. rewrite prune_Node, !handles_Node.
  intros Hx. apply elem_of_cons in Hx as [->|Hx]; [apply list_elem_of_here|].
  apply list_elem_of_further.
  induction IH as [|k ks IHk _ IHks]; [done|].
  rewrite prune_kids_cons in Hx. rewrite handles_forest_cons. apply elem_of_app.
  destruct (Nat.eqb (root k) h); [right; by apply IHks|].
  rewrite handles_forest_cons in Hx. apply elem_of_app in Hx as [Hx|Hx].
  - left. by apply IHk.
  - right. by apply IHks.
Qed.

(** *** Taking a node out *)

Lemma prune_forest_notin (h : nid) (l : list tree) :
  h ∉ handles_forest l -> prune_forest h l = l.
Proof.
  intros Hn. unfold prune_forest. induction l as [|k l IH]; [done|].
  rewrite handles_forest_cons in Hn. apply not_elem_of_app in Hn as [Hk Hl].
  rewrite filter_cons. destruct (decide (root k ≠ h)) as [_|E].
  - cbn [map]. by rewrite prune_notin, IH.
  - destruct Hk. apply dec_stable in E. rewrite <- E. apply root_in_handles.
Qed.

Lemma prune_forest_snoc (h : nid) (l : list tree) (t : tree) :
  h ∉ handles_forest l -> root t = h -> prune_forest h (l ++ [t]) = l.
Proof.
  intros Hn Ht. unfold prune_forest. rewrite filter_app, map_app.
  fold (prune_forest h l). rewrite prune_forest_notin by done.
  rewrite filter_cons. destruct (decide (root t ≠ h)); [done|]. apply app_nil_r.
Qed.

Lemma subtree_dom_attached (h : nid) (d : dom) (t : tree) :
  subtree h (document d) = Some t -> subtree_dom h d = t.
Proof. intros H. unfold subtree_dom. by rewrite H. Qed.

Lemma subtree_dom_detached (h : nid) (d : dom) :
  subtree h (document d) = None ->
  subtree_dom h d = default (Node h []) (subtree_forest h (detached d)).
Proof. intros H. unfold subtree_dom. by rewrite H. Qed.

(** A node of the document is taken out of it. *)
Lemma take_out_attached (h : nid) (d : dom) (t : tree) :
  subtree h (document d) = Some t ->
  h ∉ handles_forest (detached d) ->
  take_out h d
  = (t, {| document := prune h (document d); detached := detached d; props := props d |}).
Proof.
  intros H Hn. unfold take_out. rewrite (subtree_dom_attached _ _ _ H).
  by rewrite prune_forest_notin.
Qed.

(** The detached node that was added last is taken from the detached
    ones. *)
Lemma take_out_last (h : nid) (T : tree) (D : list tree) (t : tree)
    (ps : gmap nid (gmap string prim)) :
  h ∉ handles T -> h ∉ handles_forest D -> root t = h ->
  take_out h {| document := T; detached := D ++ [t]; props := ps |}
  = (t, {| document := T; detached := D; props := ps |}).
Proof.
  intros HT HD Ht. unfold take_out.
  rewrite subtree_dom_detached by (by apply subtree_notin).
  cbn [document detached props set_document set_detached].
  rewrite subtree_forest_app, (subtree_forest_notin h D) by done.
  rewrite subtree_forest_cons, <- Ht, subtree_root. cbn [default]. unfold id.
  rewrite Ht. by rewrite prune_notin, prune_forest_snoc.
Qed.

(** *** The nodes of a parsed fragment *)

Lemma install_spec (x : html) :
  forall (h : nid) (d : dom),
    root (fst (fst (install x h d))) = h
    /\ (h < snd (fst (install x h d)))%nat
    /\ NoDup (handles (fst (fst (install x h d))))
    /\ Forall (fun n => (h <= n < snd (fst (install x h d)))%nat)
         (handles (fst (fst (install x h d))))
    /\ document (snd (install x h d)) = document d
    /\ detached (snd (install x h d)) = detached d.
Proof.
  revert x. fix IH 1. intros [tag hid body|text] h d.
  2:{ cbn. split_and!; try done; try lia.
      - apply NoDup_singleton.
      - repeat constructor; lia. }
  cbn [install].
  set (d2 := match hid with Some i => _ | None => _ end).
  assert (Hd2 : document d2 = document d /\ detached d2 = detached d).
  { unfold d2. by destruct hid. }
  clearbody d2.
  assert (Hgo : forall h d,
            (h <= snd (fst (install_all body h d)))%nat
            /\ NoDup (handles_forest (fst (fst (install_all body h d))))
            /\ Forall (fun n => (h <= n < snd (fst (install_all body h d)))%nat)
                 (handles_forest (fst (fst (install_all body h d))))
            /\ document (snd (install_all body h d)) = document d
            /\ detached (snd (install_all body h d)) = detached d).
  { clear h d d2 Hd2. induction body as [|y body' IHb]; intros h d.
    { cbn. split_and!; try done. apply NoDup_nil_2. }
    cbn [install_all]. pose proof (IH y h d) as Hy.
    destruct (install y h d) as [[t h'] d']. cbn [fst snd] in Hy.
    specialize (IHb h' d'). unfold install_all in IHb.
    destruct ((fix go (l : list html) (h : nid) (d : dom) {struct l} :
                 list tree * nid * dom := _) body' h' d') as [[ts h''] d''].
    cbn [fst snd] in *.
    destruct Hy as (Y1 & Y2 & Y3 & Y4 & Y5 & Y6).
    destruct IHb as (B1 & B2 & B3 & B4 & B5).
    rewrite handles_forest_cons. split_and!; try congruence; try lia.
    - apply NoDup_app. split_and!; try done.
      intros n Hn Hn'. rewrite Forall_forall in Y4, B3.
      specialize (Y4 _ Hn). specialize (B3 _ Hn'). lia.
    - apply Forall_app. split.
      + eapply Forall_impl; [exact Y4|]. cbn. intros; lia.
      + eapply Forall_impl; [exact B3|]. cbn. intros; lia. }
  specialize (Hgo (S h) d2). unfold install_all in Hgo.
  destruct ((fix go (l : list html) (h : nid) (d : dom) {struct l} :
               list tree * nid * dom := _) body (S h) d2) as [[ks h'] d3].
  cbn [fst snd] in *. destruct Hgo as (G1 & G2 & G3 & G4 & G5).
  destruct Hd2 as [D1 D2].
  rewrite handles_Node. split_and!; try done; try congruence; try lia.
  - apply NoDup_cons. split; [|done].
    intros Hin. rewrite Forall_forall in G3. specialize (G3 _ Hin). lia.
  - constructor; [lia|]. eapply Forall_impl; [exact G3|]. cbn. intros; lia.
Qed.

Lemma install_all_spec (l : list html) :
  forall (h : nid) (d : dom),
    (h <= snd (fst (install_all l h d)))%nat
    /\ NoDup (handles_forest (fst (fst (install_all l h d))))
    /\ Forall (fun n => (h <= n < snd (fst (install_all l h d)))%nat)
         (handles_forest (fst (fst (install_all l h d))))
    /\ document (snd (install_all l h d)) = document d
    /\ detached (snd (install_all l h d)) = detached d.
Proof.
  induction l as [|y l IHb]; intros h d.
  { cbn. split_and!; try done. apply NoDup_nil_2. }
  cbn [install_all]. pose proof (install_spec y h d) as Hy.
  destruct (install y h d) as [[t h'] d']. cbn [fst snd] in Hy.
  specialize (IHb h' d'). unfold install_all in IHb.
  destruct ((fix go (l : list html) (h : nid) (d : dom) {struct l} :
               list tree * nid * dom := _) l h' d') as [[ts h''] d''].
  cbn [fst snd] in *.
  destruct Hy as (Y1 & Y2 & Y3 & Y4 & Y5 & Y6).
  destruct IHb as (B1 & B2 & B3 & B4 & B5).
  rewrite handles_forest_cons. split_and!; try congruence; try lia.
  - apply NoDup_app. split_and!; try done.
    intros n Hn Hn'. rewrite Forall_forall in Y4, B3.
    specialize (Y4 _ Hn). specialize (B3 _ Hn'). lia.
  - apply Forall_app. split.
    + eapply Forall_impl; [exact Y4|]. cbn. intros; lia.
    + eapply Forall_impl; [exact B3|]. cbn. intros; lia.
Qed.

(** The trees and handles a parsed fragment gets do not depend on the page
    they are installed in. *)
Lemma install_indep (x : html) :
  forall (h : nid) (d d' : dom), fst (install x h d) = fst (install x h d').
Proof.
  revert x. fix IH 1. intros [tag hid body|text] h d d'; [|done].
  cbn [install].
  set (d2 := match hid with Some i => _ | None => _ end).
  set (d2' := match hid with Some i => _ | None => set_prop h "tagName" (PStr tag) d' end).
  clearbody d2 d2'.
  assert (Hgo : forall h d d', fst (install_all body h d) = fst (install_all body h d')).
  { clear h d d' d2 d2'. induction body as [|y body' IHb]; intros h d d'; [done|].
    cbn [install_all]. pose proof (IH y h d d') as Hy.
    destruct (install y h d) as [[t h1] d1]. destruct (install y h d') as [[t' h1'] d1'].
    cbn [fst] in Hy. injection Hy as <- <-.
    specialize (IHb h1 d1 d1'). unfold install_all in IHb.
    destruct ((fix go (l : list html) (h : nid) (d : dom) {struct l} :
                 list tree * nid * dom := _) body' h1 d1) as [[ts h2] d2].
    destruct ((fix go (l : list html) (h : nid) (d : dom) {struct l} :
                 list tree * nid * dom := _) body' h1 d1') as [[ts' h2'] d2'].
    cbn [fst] in *. by injection IHb as <- <-. }
  specialize (Hgo (S h) d2 d2'). unfold install_all in Hgo.
  destruct ((fix go (l : list html) (h : nid) (d : dom) {struct l} :
               list tree * nid * dom := _) body (S h) d2) as [[ks h1] d3].
  destruct ((fix go (l : list html) (h : nid) (d : dom) {struct l} :
               list tree * nid * dom := _) body (S h) d2') as [[ks' h1'] d3'].
  cbn [fst] in *. by injection Hgo as <- <-.
Qed.

Lemma install_all_indep (l : list html) :
  forall (h : nid) (d d' : dom), fst (install_all l h d) = fst (install_all l h d').
Proof.
  induction l as [|y l IHb]; intros h d d'; [done|].
  cbn [install_all]. pose proof (install_indep y h d d') as Hy.
  destruct (install y h d) as [[t h1] d1]. destruct (install y h d') as [[t' h1'] d1'].
  cbn [fst] in Hy. injection Hy as <- <-.
  specialize (IHb h1 d1 d1'). unfold install_all in IHb.
  destruct ((fix go (l : list html) (h : nid) (d : dom) {struct l} :
               list tree * nid * dom := _) l h1 d1) as [[ts h2] d2].
  destruct ((fix go (l : list html) (h : nid) (d : dom) {struct l} :
               list tree * nid * dom := _) l h1 d1') as [[ts' h2'] d2'].
  cbn [fst] in *. by injection IHb as <- <-.
Qed.

(** ** The replay of captured writes *)

Lemma elem_of_handles_forest (x : nid) (l : list tree) :
  x ∈ handles_forest l <-> exists t, t ∈ l /\ x ∈ handles t.
Proof.
  induction l as [|k l IH].
  - split; [by intros ?%elem_of_nil|]. intros (t & Ht & _). by apply elem_of_nil in Ht.
  - rewrite handles_forest_cons, elem_of_app, IH. split.
    + intros [H|(t & Ht & Hx)].
      * exists k. split; [apply list_elem_of_here|done].
      * exists t. split; [by apply list_elem_of_further|done].
    + intros (t & Ht & Hx). apply elem_of_cons in Ht as [->|Ht]; [by left|].
      right. by exists t.
Qed.

Lemma handles_forest_rev (x : nid) (l : list tree) :
  x ∈ handles_forest (reverse l) <-> x ∈ handles_forest l.
Proof.
  rewrite !elem_of_handles_forest. split; intros (t & Ht & Hx); exists t; split; try done.
  - by rewrite elem_of_reverse in Ht.
  - by rewrite elem_of_reverse.
Qed.

Lemma page_eta (s : state) (d : dom) :
  page s = d -> set_page d s = s.
Proof. intros <-. by destruct s. Qed.

Lemma set_page_twice (d d' : dom) (s : state) :
  set_page d (set_page d' s) = set_page d s.
Proof. done. Qed.

Lemma map_insert_after_notin (a : nid) (new : tree) (l : list tree) :
  a ∉ handles_forest l -> map (insert_after a new) l = l.
Proof.
  intros Hn. induction l as [|c l IH]; [done|].
  rewrite handles_forest_cons in Hn. apply not_elem_of_app in Hn as [? ?].
  cbn [map]. by rewrite insert_after_notin, IH.
Qed.

(** The loop of [handleScriptLoaded]: with [L] already moved and [R] still
    in the placeholder, the nodes of [R] go one by one to the place right
    after the script element, each in front of the one before it; the loop
    ends within its budget. *)
Lemma moveChildren_replays (sc div : nid) (T : tree) (b : nid) :
  sc <> div ->
  (sc < b)%nat ->
  div ∈ handles T ->
  Forall (fun h => (h < b)%nat) (handles T) ->
  (forall R', sc ∉ handles_forest R' -> parent_in sc (replace_kids div R' T) <> None) ->
  forall (R L : list tree) (D : list tree) (ps : gmap nid (gmap string prim)) (s : state),
    Forall (fun h => (h < b)%nat) (handles_forest D) ->
    sc ∉ handles_forest D ->
    NoDup (handles_forest (reverse L ++ R)) ->
    Forall (fun h => (b <= h)%nat) (handles_forest (reverse L ++ R)) ->
    moveChildren (length R) sc div
      (set_page {| document := insert_all_after sc L (replace_kids div R T);
                   detached := D; props := ps |} s)
    = Ok tt
        (set_page {| document := insert_all_after sc (reverse R ++ L) (replace_kids div [] T);
                     detached := D; props := ps |} s).
Proof.
  intros Hne Hsc Hdiv HT Hpar.
  assert (Hdb : (div < b)%nat).
  { rewrite Forall_forall in HT. by apply HT. }
  intros R. induction R as [|tk R IH]; intros L D ps s HD HscD Hnd Hge.
  - assert (HL : forall x, x ∈ handles_forest L -> (b <= x)%nat).
    { intros x Hx. rewrite Forall_forall in Hge. apply Hge.
      rewrite app_nil_r. by apply handles_forest_rev. }
    cbn [length moveChildren]. unfold bind, gets. cbn [page set_page].
    unfold firstChild.
    rewrite (subtree_dom_attached div _ (Node div [])); [done|].
    cbn [document]. apply subtree_insert_all.
    + intros Hin. apply HL in Hin. lia.
    + rewrite handles_Node. apply not_elem_of_cons. split; [done|apply not_elem_of_nil].
    + by apply subtree_replace_kids.
  - set (hk := root tk).
    rewrite handles_forest_app, handles_forest_cons in Hnd, Hge.
    assert (HL : forall x, x ∈ handles_forest L -> (b <= x)%nat).
    { intros x Hx. rewrite Forall_forall in Hge. apply Hge.
      apply elem_of_app. left. by apply handles_forest_rev. }
    assert (Hk : forall x, x ∈ handles tk -> (b <= x)%nat).
    { intros x Hx. rewrite Forall_forall in Hge. apply Hge.
      apply elem_of_app. right. apply elem_of_app. by left. }
    assert (HR : forall x, x ∈ handles_forest R -> (b <= x)%nat).
    { intros x Hx. rewrite Forall_forall in Hge. apply Hge.
      apply elem_of_app. right. apply elem_of_app. by right. }
    assert (Hhk : (b <= hk)%nat) by (apply Hk, root_in_handles).
    apply NoDup_app in Hnd as (Hnd1 & Hnd2 & Hnd3).
    apply NoDup_app in Hnd3 as (Hnd3 & Hnd4 & Hnd5).
    assert (HkL : hk ∉ handles_forest L).
    { intros Hin. apply handles_forest_rev in Hin. apply Hnd2 in Hin. apply Hin.
      apply elem_of_app. left. apply root_in_handles. }
    assert (HkR : hk ∉ handles_forest R).
    { apply Hnd4, root_in_handles. }
    assert (HkT : hk ∉ handles T).
    { intros Hin. rewrite Forall_forall in HT. apply HT in Hin. lia. }
    assert (HkD : hk ∉ handles_forest D).
    { intros Hin. rewrite Forall_forall in HD. apply HD in Hin. lia. }
    assert (HscL : sc ∉ handles_forest L).
    { intros Hin. apply HL in Hin. lia. }
    assert (Hsck : sc ∉ handles tk).
    { intros Hin. apply Hk in Hin. lia. }
    assert (HscR : sc ∉ handles_forest R).
    { intros Hin. apply HR in Hin. lia. }
    assert (HdivL : div ∉ handles_forest L).
    { intros Hin. apply HL in Hin. lia. }
    assert (Hsub : subtree div (insert_all_after sc L (replace_kids div (tk :: R) T))
                   = Some (Node div (tk :: R))).
    { apply subtree_insert_all; [done| |by apply subtree_replace_kids].
      rewrite handles_Node, handles_forest_cons.
      apply not_elem_of_cons. split; [done|]. by apply not_elem_of_app. }
    assert (Hsubk : subtree hk (insert_all_after sc L (replace_kids div (tk :: R) T))
                    = Some tk).
    { apply subtree_insert_all; [done|done|].
      rewrite subtree_replace_kids_new by done.
      rewrite subtree_forest_cons. unfold hk. by rewrite subtree_root. }
    assert (Hpr : prune hk (insert_all_after sc L (replace_kids div (tk :: R) T))
                  = insert_all_after sc L (replace_kids div R T)).
    { rewrite prune_insert_all; [|lia|done]. by rewrite prune_replace_head. }
    cbn [length moveChildren]. unfold bind at 1, gets. cbn [page set_page].
    unfold firstChild.
    rewrite (subtree_dom_attached div
               {| document := insert_all_after sc L (replace_kids div (tk :: R) T);
                  detached := D; props := ps |} _ Hsub).
    cbn [children].
    fold hk. unfold bind at 1, on_page, modify. cbn [page set_page].
    unfold removeChild.
    rewrite (take_out_attached hk
               {| document := insert_all_after sc L (replace_kids div (tk :: R) T);
                  detached := D; props := ps |} _ Hsubk) by done.
    unfold set_detached. cbn [document detached props]. rewrite Hpr.
    unfold bind at 1, appendNode, bind at 1, gets. cbn [page set_page].
    unfold parentNode. cbn [document].
    rewrite parent_insert_all by done.
    destruct (parent_in sc (replace_kids div R T)) as [p|] eqn:Ep;
      [|by destruct (Hpar R HscR)].
    unfold on_page, modify. cbn [page set_page].
    unfold insertAfter. rewrite take_out_last; try done.
    2:{ rewrite <- Hpr. apply notin_prune.
        rewrite root_insert_all_after, root_replace_kids. intros E.
        apply HkT. rewrite <- E. apply root_in_handles. }
    unfold map_trees, set_detached, set_document. cbn [document detached props].
    rewrite map_insert_after_notin by done.
    rewrite insert_after_insert_all.
    rewrite !set_page_twice.
    rewrite (IH (tk :: L) D ps s); try done.
    + rewrite reverse_cons, <- app_assoc. done.
    + rewrite reverse_cons, <- app_assoc. cbn [app].
      rewrite handles_forest_app, handles_forest_cons.
      apply NoDup_app. split_and!; [done|done|]. by apply NoDup_app.
    + rewrite reverse_cons, <- app_assoc. cbn [app].
      by rewrite handles_forest_app, handles_forest_cons.
Qed.

Lemma handles_children (t : tree) : handles t = root t :: handles_forest (children t).
Proof. by destruct t. Qed.

Lemma subtree_in (h : nid) (t : tree) :
  h ∈ handles t -> exists r, subtree h t = Some r /\ root r = h.
Proof.
  intros Hin. destruct (subtree h t) as [r|] eqn:E.
  - exists r. split; [done|]. by apply subtree_Some_root in E.
  - by apply subtree_None in E.
Qed.

Lemma document_removeChild (h : nid) (d : dom) :
  document (removeChild h d) = prune h (document d).
Proof. done. Qed.

(** X17: the replay of captured writes.  When a deferred load ends with
    fragments captured, with no [loaded] callback in the way, and the
    placeholder of the request is in the document, the fragments are parsed
    in the placeholder, each parsed node is moved to the place right after
    the script element, and the placeholder is removed: the nodes end up
    after the script element in the reverse of their order in the markup.
    The loop over the nodes ends, and [complete] is called last. *)
Theorem replay_reverses_nodes (parseHTML : string -> list html) (o : gmap string value)
    (sc div : nid) (l : list prim) (ks : list tree) (h' : nid) (s : state) :
  truthyV (prop o "loaded") = false ->
  writes s = Some l ->
  getElementById (toStringV (prop o "id")) (page s) = Some div ->
  well_formed (fresh s) (page s) ->
  parent_in sc (document (page s)) <> None ->
  sc ∉ handles (subtree_dom div (page s)) ->
  fst (install_all (parseHTML (join l)) (fresh s) (page s)) = (ks, h') ->
  exists s',
    handleScriptLoaded parseHTML o sc s
    = when (truthyV (prop o "complete"))
        (log (EvComplete o) >>
         do _ <- call_value (prop o "complete") (Some sc) CNone in ret tt) s'
    /\ document (page s')
       = insert_all_after sc (reverse ks) (prune div (document (page s)))
    /\ fresh s' = h'
    /\ trace s' = trace s
    /\ writes s' = Some l.
Proof.
  intros Hl Hw Hdiv [Hnd Hlt] Hpar Hsep Hin0.
  assert (Hin : exists d1,
            install_all (parseHTML (join l)) (fresh s)
              (set_prop div "style.display" (PStr "none") (page s)) = (ks, h', d1)).
  { pose proof (install_all_indep (parseHTML (join l)) (fresh s)
                  (set_prop div "style.display" (PStr "none") (page s)) (page s)) as Hi.
    rewrite Hin0 in Hi.
    destruct (install_all _ _ (set_prop _ _ _ _)) as [[ks' h''] d1].
    cbn [fst] in Hi. injection Hi as -> ->. by exists d1. }
  destruct Hin as [d1 Hin]. clear Hin0.
  set (T := document (page s)) in *. set (D := detached (page s)) in *.
  set (b := fresh s) in *.
  apply NoDup_app in Hnd as (HndT & Hdis & HndD).
  apply Forall_app in Hlt as [HltT HltD].
  (* where the placeholder and the script element are *)
  assert (HdivT : div ∈ handles_forest (children T)).
  { unfold getElementById in Hdiv. by apply find_forest_Some in Hdiv as [? _]. }
  assert (HdivT' : div ∈ handles T).
  { rewrite handles_children. by apply list_elem_of_further. }
  assert (Hroot : root T <> div).
  { rewrite handles_children in HndT. apply NoDup_cons in HndT as [Hr _].
    intros E. apply Hr. by rewrite E. }
  assert (HdivD : div ∉ handles_forest D) by by apply Hdis.
  assert (HscT : sc ∈ handles T) by by apply parent_in_handles.
  assert (HscD : sc ∉ handles_forest D) by by apply Hdis.
  assert (Hscb : (sc < b)%nat).
  { rewrite Forall_forall in HltT. by apply HltT. }
  destruct (subtree_in div T HdivT') as (Y & HY & HrY).
  assert (HsepY : sc ∉ handles Y).
  { unfold subtree_dom in Hsep. fold T in Hsep. by rewrite HY in Hsep. }
  assert (Hne : sc <> div).
  { intros ->. apply HsepY. rewrite <- HrY. apply root_in_handles. }
  set (old := children Y).
  assert (HoldY : forall x, x ∈ handles_forest old -> x ∈ handles Y).
  { intros x Hx. rewrite handles_children. by apply list_elem_of_further. }
  assert (Hold : Forall (fun h => (h < b)%nat) (handles_forest old)).
  { rewrite Forall_forall. intros x Hx. rewrite Forall_forall in HltT. apply HltT.
    apply (subtree_Some_handles div T Y); [done|by apply HoldY]. }
  assert (Hscold : sc ∉ handles_forest old).
  { intros Hx. by apply HsepY, HoldY. }
  (* what parsing gives *)
  pose proof (install_all_spec (parseHTML (join l)) b
                (set_prop div "style.display" (PStr "none") (page s))) as Hi.
  rewrite Hin in Hi. cbn [fst snd] in Hi.
  destruct Hi as (Hb & Hndk & Hgek & Hdoc1 & Hdet1).
  cbn [document detached set_prop set_props] in Hdoc1, Hdet1.
  fold T in Hdoc1. fold D in Hdet1.
  assert (Hgek' : Forall (fun h => (b <= h)%nat) (handles_forest ks)).
  { eapply Forall_impl; [exact Hgek|]. cbn. intros; lia. }
  assert (Hdivk : div ∉ handles_forest (reverse ks)).
  { intros Hx. apply (proj1 (handles_forest_rev _ _)) in Hx.
    rewrite Forall_forall in Hgek'.
    apply Hgek' in Hx. rewrite Forall_forall in HltT. apply HltT in HdivT'. lia. }
  assert (HparR : forall R', sc ∉ handles_forest R' ->
            parent_in sc (replace_kids div R' T) <> None).
  { intros R' HR'. rewrite parent_replace_kids; try done.
    intros r Hr. rewrite HY in Hr. by injection Hr as <-. }
  (* the run *)
  unfold handleScriptLoaded. rewrite Hl. unfold bind at 1, ret at 1.
  unfold bind at 1, gets at 1. rewrite Hdiv.
  unfold bind at 1, gets at 1. rewrite Hw.
  unfold bind at 1. unfold bind at 1, ret at 1.
  unfold bind at 1, on_page at 1, modify.
  unfold bind at 1, set_innerHTML. cbn [page fresh set_page]. fold b.
  rewrite Hin.
  assert (Hsd : subtree_dom div (set_prop div "style.display" (PStr "none") (page s)) = Y).
  { apply subtree_dom_attached. cbn [document set_prop set_props]. exact HY. }
  rewrite Hsd. fold old.
  assert (Hp2 : set_detached
                  (detached (map_trees (replace_kids div ks) d1) ++ old)
                  (map_trees (replace_kids div ks) d1)
                = {| document := insert_all_after sc [] (replace_kids div ks T);
                     detached := D ++ old; props := props d1 |}).
  { unfold map_trees, set_detached, set_document. cbn [document detached props].
    rewrite Hdoc1, Hdet1, insert_all_after_nil. by rewrite map_replace_kids_notin. }
  rewrite Hp2. clear Hp2.
  unfold bind at 1, gets at 1. cbn [page set_fresh set_page].
  rewrite (subtree_dom_attached div _ (Node div ks)).
  2:{ cbn [document]. rewrite insert_all_after_nil. by apply subtree_replace_kids. }
  cbn [children].
  unfold bind at 1.
  change (set_fresh h' (set_page ?d (set_page ?d' s)))
    with (set_page d (set_fresh h' s)).
  rewrite (moveChildren_replays sc div T b Hne Hscb HdivT' HltT HparR ks [] (D ++ old)).
  2:{ rewrite handles_forest_app. by apply Forall_app. }
  2:{ rewrite handles_forest_app. by apply not_elem_of_app. }
  2:{ done. }
  2:{ done. }
  rewrite app_nil_r. unfold ret at 1.
  unfold bind at 1, bind at 1, gets at 1. cbn [page set_page].
  unfold parentNode. cbn [document].
  rewrite parent_insert_all by done.
  rewrite parent_replace_kids_self by done.
  destruct (parent_in div T) as [p|] eqn:Ep; [|by destruct (parent_in_forest div T)].
  unfold on_page at 1, modify. cbn [page set_page].
  eexists. split; [reflexivity|].
  cbn [page fresh trace writes set_page set_fresh].
  rewrite document_removeChild. cbn [document].
  rewrite prune_insert_all by done. rewrite prune_replace_self by done.
  done.
Qed.

(** ** Nothing captured *)

(** X18: when a deferred load ends with nothing captured and no [loaded]
    callback in the way, the only change to the page is that the placeholder
    of the request, if the document has one, is removed from it (with what
    [loadingHTML] had put in it); [complete] is called after that. *)
Theorem placeholder_removed_without_writes (parseHTML : string -> list html)
    (o : gmap string value) (sc : nid) (s : state) :
  truthyV (prop o "loaded") = false ->
  writes s = None ->
  exists s',
    handleScriptLoaded parseHTML o sc s
    = when (truthyV (prop o "complete"))
        (log (EvComplete o) >>
         do _ <- call_value (prop o "complete") (Some sc) CNone in ret tt) s'
    /\ document (page s')
       = match getElementById (toStringV (prop o "id")) (page s) with
         | Some div => prune div (document (page s))
         | None => document (page s)
         end
    /\ props (page s') = props (page s)
    /\ fresh s' = fresh s
    /\ trace s' = trace s
    /\ writes s' = None.
Proof.
  intros Hl Hw. unfold handleScriptLoaded. rewrite Hl. unfold bind at 1, ret at 1.
  unfold bind at 1, gets at 1.
  unfold bind at 1, gets at 1. rewrite Hw.
  unfold bind at 1. unfold bind at 1, ret at 1.
  destruct (getElementById _ _) as [div|] eqn:Hdiv.
  - unfold bind at 1, gets at 1. unfold parentNode.
    assert (Hp : parent_in div (document (page s)) <> None).
    { apply parent_in_forest. unfold getElementById in Hdiv.
      by apply find_forest_Some in Hdiv as [? _]. }
    destruct (parent_in div (document (page s))) as [p|]; [|done].
    unfold on_page, modify. eexists. split; [reflexivity|].
    cbn [page fresh trace writes set_page]. by rewrite document_removeChild.
  - unfold ret at 1. by eexists.
Qed.

Lemma placeholder_removed_without_writes_witness :
  exists s',
    handleScriptLoaded parse_text
      {[ "id" := VPrim (PStr "_script-0") ]} 5%nat begin_a = Ok tt s'
    /\ document (page s')
       = Node 0%nat [Node 1%nat [Node 2%nat [Node 4%nat []]]].
Proof.
  destruct (placeholder_removed_without_writes parse_text
              {[ "id" := VPrim (PStr "_script-0") ]} 5%nat begin_a)
    as (s' & H1 & H2 & _); [reflexivity|reflexivity|].
  exists s'. split; [exact H1|]. rewrite H2. reflexivity.
Defined.

(** ** Where the script element goes *)

Lemma get_prop_other (h n : nid) (k k' : string) (v : prim) (d : dom) :
  h <> n -> get_prop h k (set_prop n k' v d) = get_prop h k d.
Proof.
  intros H. unfold get_prop, set_prop. cbn [props set_props].
  by rewrite lookup_insert_ne.
Qed.

Lemma appending_page (o : gmap string value) (endF : option endfn) (s : state) :
  document (page (appending o endF s)) = document (page s)
  /\ detached (page (appending o endF s)) = detached (page s) ++ [Node (fresh s) []]
  /\ (forall h k, h <> fresh s ->
        get_prop h k (page (appending o endF s)) = get_prop h k (page s)).
Proof.
  unfold appending. cbn [page set_handlers set_page].
  destruct (truthyV (prop o "type")); destruct (truthyV (prop o "charset"));
    split_and!; try done; intros h k Hh; unfold createElement;
    by rewrite !get_prop_other by done.
Qed.

Lemma find_forest_appending (o : gmap string value) (endF : option endfn) (s : state)
    (k : string) (v : prim) :
  fresh s ∉ handles (document (page s)) ->
  find_forest (fun h => prim_eqb (get_prop h k (page (appending o endF s))) v)
    (children (document (page (appending o endF s))))
  = find_forest (fun h => prim_eqb (get_prop h k (page s)) v)
      (children (document (page s))).
Proof.
  intros Hf. destruct (appending_page o endF s) as (-> & _ & Hp).
  apply find_forest_ext. intros h Hh. rewrite Hp; [done|].
  intros ->. apply Hf. rewrite handles_children. by apply list_elem_of_further.
Qed.

Lemma page_record (d : dom) :
  d = {| document := document d; detached := detached d; props := props d |}.
Proof. by destruct d. Qed.

(** The new element, detached last, is taken from the detached ones. *)
Lemma take_out_appending (o : gmap string value) (endF : option endfn) (s : state) :
  well_formed (fresh s) (page s) ->
  take_out (fresh s) (page (appending o endF s))
  = (Node (fresh s) [],
     {| document := document (page s); detached := detached (page s);
        props := props (page (appending o endF s)) |}).
Proof.
  intros [_ Hlt]. apply Forall_app in Hlt as [HT HD].
  destruct (appending_page o endF s) as (E1 & E2 & _).
  rewrite (page_record (page (appending o endF s))), E1, E2.
  apply take_out_last; try done.
  - intros Hin. rewrite Forall_forall in HT. apply HT in Hin. lia.
  - intros Hin. rewrite Forall_forall in HD. apply HD in Hin. lia.
Qed.


(** *** A node put after a child *)

Lemma replace_kids_inserted (b sc : nid) (R : list tree) (t : tree) :
  b ∉ handles t ->
  replace_kids b R (insert_after sc (Node b []) t)
  = insert_all_after sc [Node b R] t.
Proof.
  induction t as [q ks IH] using tree_ind'. rewrite handles_Node. intros Hn.
  apply not_elem_of_cons in Hn as [Hq Hn].
  rewrite insert_after_Node, insert_all_after_Node. cbn [replace_kids].
  destruct (Nat.eqb_spec q b) as [E|_]; [congruence|]. f_equal.
  induction IH as [|k ks IHk _ IHks]; [done|].
  rewrite handles_forest_cons in Hn. apply not_elem_of_app in Hn as [Hk Hks].
  rewrite insert_after_kids_cons, insert_all_after_kids_cons.
  destruct (Nat.eqb (root k) sc).
  - cbn [map app replace_kids]. rewrite Nat.eqb_refl.
    by rewrite replace_kids_notin, map_replace_kids_notin.
  - cbn [map]. by rewrite IHk, IHks.
Qed.

Lemma prune_inserted (b sc : nid) (t : tree) :
  b ∉ handles t -> prune b (insert_after sc (Node b []) t) = t.
Proof.
  induction t as [q ks IH] using tree_ind'. rewrite handles_Node. intros Hn.
  apply not_elem_of_cons in Hn as [Hq Hn].
  rewrite insert_after_Node, prune_Node. f_equal.
  induction IH as [|k ks IHk _ IHks]; [done|].
  rewrite handles_forest_cons in Hn. apply not_elem_of_app in Hn as [Hk Hks].
  assert (Hrk : root k <> b).
  { intros E. apply Hk. rewrite <- E. apply root_in_handles. }
  rewrite insert_after_kids_cons.
  destruct (Nat.eqb (root k) sc).
  - rewrite prune_kids_cons. destruct (Nat.eqb_spec (root k) b); [done|].
    rewrite prune_kids_cons. cbn [root]. rewrite Nat.eqb_refl.
    by rewrite prune_notin, prune_kids_notin.
  - rewrite prune_kids_cons, root_insert_after.
    destruct (Nat.eqb_spec (root k) b); [done|]. by rewrite IHk, IHks.
Qed.

Lemma handles_insert_after (a x : nid) (new t : tree) :
  x ∈ handles (insert_after a new t) -> x ∈ handles t \/ x ∈ handles new.
Proof.
  induction t as [q ks IH] using tree_ind'. rewrite insert_after_Node, !handles_Node.
  intros Hx. apply elem_of_cons in Hx as [->|Hx]; [left; apply list_elem_of_here|].
  cut (x ∈ handles_forest ks \/ x ∈ handles new).
  { intros [?|?]; [left; by apply list_elem_of_further|by right]. }
  induction IH as [|k ks IHk _ IHks]; [by left|].
  rewrite insert_after_kids_cons in Hx. rewrite handles_forest_cons.
  destruct (Nat.eqb (root k) a).
  - rewrite !handles_forest_cons in Hx.
    apply elem_of_app in Hx as [Hx|Hx]; [left; apply elem_of_app; by left|].
    apply elem_of_app in Hx as [Hx|Hx]; [by right|left; apply elem_of_app; by right].
  - rewrite handles_forest_cons in Hx. apply elem_of_app in Hx as [Hx|Hx].
    + destruct (IHk Hx) as [?|?]; [left; apply elem_of_app; by left|by right].
    + destruct (IHks Hx) as [?|?]; [left; apply elem_of_app; by right|by right].
Qed.

Lemma parent_of_inserted (a : nid) (new t : tree) :
  parent_in a t <> None -> parent_in (root new) (insert_after a new t) <> None.
Proof.
  induction t as [q ks IH] using tree_ind'. rewrite insert_after_Node, !parent_in_Node.
  destruct (existsb (fun k => Nat.eqb (root k) a) ks) eqn:He.
  - intros _.
    assert (H : existsb (fun k => Nat.eqb (root k) (root new)) (insert_after_kids a new ks)
                = true).
    { clear IH. induction ks as [|k ks IHks]; [done|].
      cbn [existsb] in He. rewrite insert_after_kids_cons.
      destruct (Nat.eqb (root k) a) eqn:E.
      - cbn [existsb]. rewrite Nat.eqb_refl. by rewrite orb_true_r.
      - cbn [existsb]. rewrite IHks by done. by rewrite orb_true_r. }
    by rewrite H.
  - intros Hp.
    destruct (existsb _ (insert_after_kids a new ks)); [done|].
    induction IH as [|k ks IHk _ IHks]; [done|].
    cbn [existsb] in He. apply orb_false_iff in He as [Hk He].
    rewrite insert_after_kids_cons, Hk, parent_forest_cons.
    rewrite parent_forest_cons in Hp.
    destruct (parent_in a k) eqn:E.
    + destruct (parent_in (root new) (insert_after a new k)) eqn:E'; [done|].
      by destruct IHk.
    + destruct (parent_in (root new) (insert_after a new k)); [done|].
      by apply IHks.
Qed.

(** ** The replay without a placeholder *)

Lemma insert_after_no_parent (a : nid) (new t : tree) :
  parent_in a t = None -> insert_after a new t = t.
Proof.
  induction t as [q ks IH] using tree_ind'. rewrite parent_in_Node, insert_after_Node.
  destruct (existsb (fun k => Nat.eqb (root k) a) ks) eqn:He; [done|].
  intros Hp. f_equal.
  induction IH as [|k ks IHk _ IHks]; [done|].
  cbn [existsb] in He. apply orb_false_iff in He as [Hk He].
  rewrite parent_forest_cons in Hp. rewrite insert_after_kids_cons, Hk.
  destruct (parent_in a k) eqn:E; [done|]. by rewrite IHk, IHks.
Qed.

(** The node put after a child is found where it was put. *)
Lemma subtree_inserted (a : nid) (new t : tree) :
  root new ∉ handles t -> parent_in a t <> None ->
  subtree (root new) (insert_after a new t) = Some new.
Proof.
  induction t as [q ks IH] using tree_ind'. rewrite handles_Node. intros Hn.
  apply not_elem_of_cons in Hn as [Hq Hn].
  rewrite parent_in_Node, insert_after_Node, subtree_Node.
  destruct (Nat.eqb_spec q (root new)) as [E|_]; [congruence|].
  intros Hp.
  assert (Hp' : existsb (fun k => Nat.eqb (root k) a) ks = true
                \/ parent_forest a ks <> None).
  { destruct (existsb _ ks); [by left|by right]. }
  clear Hp. induction IH as [|k ks IHk _ IHks]; [by destruct Hp' as [?|?]|].
  rewrite handles_forest_cons in Hn. apply not_elem_of_app in Hn as [Hk Hks].
  rewrite insert_after_kids_cons.
  destruct (Nat.eqb (root k) a) eqn:Eka.
  - rewrite subtree_forest_cons, subtree_notin by done.
    by rewrite subtree_forest_cons, subtree_root.
  - rewrite subtree_forest_cons.
    destruct (parent_in a k) eqn:Epk.
    + by rewrite IHk.
    + rewrite insert_after_no_parent, subtree_notin by done.
      apply IHks; [done|]. destruct Hp' as [Hp'|Hp'].
      * left. cbn [existsb] in Hp'. by rewrite Eka in Hp'.
      * right. by rewrite parent_forest_cons, Epk in Hp'.
Qed.

Lemma createElement_record (tag : string) (h : nid) (d : dom) :
  createElement tag h d
  = {| document := document d; detached := detached d ++ [Node h []];
       props := props (createElement tag h d) |}.
Proof. done. Qed.

(** X20: the replay of captured writes when the document has no placeholder
    for the request (a request made after the ready event): a [div] is
    created and put after the script element, the fragments are parsed in
    it, each parsed node is moved to the place right after the script
    element, and the [div] is removed again.  All that is left in the
    document are the parsed nodes, after the script element, in the reverse
    of their order in the markup. *)
Theorem replay_without_placeholder (parseHTML : string -> list html)
    (o : gmap string value) (sc : nid) (l : list prim) (ks : list tree) (h' : nid)
    (s : state) :
  truthyV (prop o "loaded") = false ->
  writes s = Some l ->
  getElementById (toStringV (prop o "id")) (page s) = None ->
  well_formed (fresh s) (page s) ->
  parent_in sc (document (page s)) <> None ->
  fst (install_all (parseHTML (join l)) (S (fresh s)) (page s)) = (ks, h') ->
  exists s',
    handleScriptLoaded parseHTML o sc s
    = when (truthyV (prop o "complete"))
        (log (EvComplete o) >>
         do _ <- call_value (prop o "complete") (Some sc) CNone in ret tt) s'
    /\ document (page s') = insert_all_after sc (reverse ks) (document (page s))
    /\ fresh s' = h'
    /\ trace s' = trace s
    /\ writes s' = Some l.
Proof.
  intros Hl Hw Hdiv [Hnd Hlt] Hpar Hin.
  set (T := document (page s)) in *. set (D := detached (page s)) in *.
  set (b := fresh s) in *.
  apply NoDup_app in Hnd as (HndT & Hdis & HndD).
  apply Forall_app in Hlt as [HltT HltD].
  assert (HscT : sc ∈ handles T) by by apply parent_in_handles.
  assert (HscD : sc ∉ handles_forest D) by by apply Hdis.
  assert (Hscb : (sc < b)%nat).
  { rewrite Forall_forall in HltT. by apply HltT. }
  assert (HbT : b ∉ handles T).
  { intros Hx. rewrite Forall_forall in HltT. apply HltT in Hx. lia. }
  assert (HbD : b ∉ handles_forest D).
  { intros Hx. rewrite Forall_forall in HltD. apply HltD in Hx. lia. }
  assert (Hne : sc <> b) by lia.
  set (T' := insert_after sc (Node b []) T).
  assert (Hsub : subtree b T' = Some (Node b [])).
  { by apply (subtree_inserted sc (Node b []) T). }
  assert (HbT' : b ∈ handles T').
  { destruct (decide (b ∈ handles T')) as [?|Hx]; [done|].
    apply subtree_notin in Hx. congruence. }
  assert (HltT' : Forall (fun h => (h < S b)%nat) (handles T')).
  { rewrite Forall_forall. intros x Hx. apply handles_insert_after in Hx as [Hx|Hx].
    - rewrite Forall_forall in HltT. apply HltT in Hx. lia.
    - rewrite handles_Node in Hx. apply elem_of_cons in Hx as [->|Hx]; [lia|].
      by apply elem_of_nil in Hx. }
  assert (HltD' : Forall (fun h => (h < S b)%nat) (handles_forest D)).
  { eapply Forall_impl; [exact HltD|]. cbn. intros; lia. }
  assert (Hroot : root T' <> b).
  { unfold T'. rewrite root_insert_after. intros E. apply HbT. rewrite <- E.
    apply root_in_handles. }
  assert (HparR : forall R', sc ∉ handles_forest R' ->
            parent_in sc (replace_kids b R' T') <> None).
  { intros R' HR'. unfold T'. rewrite replace_kids_inserted by done.
    rewrite parent_insert_all; [done|].
    rewrite handles_forest_cons, handles_Node. apply not_elem_of_app.
    split; [|apply not_elem_of_nil]. by apply not_elem_of_cons. }
  (* the run *)
  unfold handleScriptLoaded. rewrite Hl. unfold bind at 1, ret at 1.
  unfold bind at 1, gets at 1. rewrite Hdiv.
  unfold bind at 1, gets at 1. rewrite Hw.
  unfold bind at 1. unfold bind at 1. unfold bind at 1, new_element. fold b.
  unfold bind at 1, appendNode, bind at 1, gets at 1. cbn [page set_page set_fresh].
  unfold parentNode. cbn [document createElement set_prop set_props set_detached].
  fold T. destruct (parent_in sc T) as [p|] eqn:Ep; [|done].
  unfold on_page at 1, modify. cbn [page set_page set_fresh].
  unfold insertAfter. rewrite createElement_record. fold T D.
  rewrite (take_out_last b T D (Node b [])) by done.
  unfold map_trees, set_detached, set_document. cbn [document detached props].
  rewrite map_insert_after_notin by done. fold T'.
  unfold ret at 1.
  unfold bind at 1, on_page at 1, modify.
  unfold bind at 1, set_innerHTML. cbn [page fresh set_page set_fresh].
  set (pg := set_prop b "style.display" (PStr "none") _).
  assert (Hpg : document pg = T' /\ detached pg = D) by done.
  destruct Hpg as [Hpg1 Hpg2].
  rewrite (subtree_dom_attached b pg (Node b [])) by (by rewrite Hpg1).
  cbn [children].
  pose proof (install_all_spec (parseHTML (join l)) (S b) pg) as Hi.
  pose proof (install_all_indep (parseHTML (join l)) (S b) pg (page s)) as Hind.
  rewrite Hin in Hind.
  destruct (install_all (parseHTML (join l)) (S b) pg) as [[ks' h''] d1].
  cbn [fst snd] in Hi, Hind. injection Hind as -> ->.
  destruct Hi as (Hb & Hndk & Hgek & Hdoc1 & Hdet1).
  rewrite Hpg1 in Hdoc1. rewrite Hpg2 in Hdet1. clearbody pg.
  assert (Hgek' : Forall (fun h => (S b <= h)%nat) (handles_forest ks)).
  { eapply Forall_impl; [exact Hgek|]. cbn. intros; lia. }
  assert (Hbk : b ∉ handles_forest (reverse ks)).
  { intros Hx. apply (proj1 (handles_forest_rev _ _)) in Hx.
    rewrite Forall_forall in Hgek'. apply Hgek' in Hx. lia. }
  assert (Hp2 : set_detached
                  (detached (map_trees (replace_kids b ks) d1) ++ [])
                  (map_trees (replace_kids b ks) d1)
                = {| document := insert_all_after sc [] (replace_kids b ks T');
                     detached := D; props := props d1 |}).
  { unfold map_trees, set_detached, set_document. cbn [document detached props].
    rewrite Hdoc1, Hdet1, insert_all_after_nil, app_nil_r.
    by rewrite map_replace_kids_notin. }
  rewrite Hp2. clear Hp2.
  unfold bind at 1, gets at 1. cbn [page set_fresh set_page].
  rewrite (subtree_dom_attached b _ (Node b ks)).
  2:{ cbn [document]. rewrite insert_all_after_nil. by apply subtree_replace_kids. }
  cbn [children].
  unfold bind at 1.
  change (set_fresh h' (set_page ?d ?s0))
    with (set_page d (set_fresh h' s)).
  rewrite (moveChildren_replays sc b T' (S b) Hne ltac:(lia) HbT' HltT' HparR ks [] D);
    try done.
  rewrite app_nil_r. unfold ret at 1.
  unfold bind at 1, bind at 1, gets at 1. cbn [page set_page].
  unfold parentNode. cbn [document].
  rewrite parent_insert_all by done.
  rewrite parent_replace_kids_self by done.
  assert (Hpb : parent_in b T' <> None).
  { apply (parent_of_inserted sc (Node b []) T). by rewrite Ep. }
  destruct (parent_in b T') as [p'|] eqn:Ep'; [|done].
  unfold on_page at 1, modify. cbn [page set_page].
  eexists. split; [reflexivity|].
  cbn [page fresh trace writes set_page set_fresh].
  rewrite document_removeChild. cbn [document].
  rewrite prune_insert_all by done. rewrite prune_replace_self by done.
  unfold T'. by rewrite prune_inserted.
Qed.

(** ** Late requests go to the body *)

Lemma submit_late (s2i : string -> Z) (yn : M bool) (o : gmap string value) (s : state) :
  DOMContentLoaded s = false ->
  submit s2i yn o s
  = (overrideDocWrites >> loadScript yn (late_options o) (Some EndImmediate)) s.
Proof. intros H. unfold submit, bind at 1, gets. by rewrite H. Qed.

Lemma late_options_append (o : gmap string value) :
  truthyV (prop o "append") = false ->
  prop (late_options o) "append" = VFun appendToBody
  /\ truthyV (prop (late_options o) "defer") = true.
Proof.
  intros H. unfold late_options. rewrite prop_insert_ne by done. rewrite H. cbn [negb].
  rewrite prop_insert_eq. rewrite prop_insert_ne by done. by rewrite prop_insert_eq.
Qed.

(** X21: a request made after the ready event that names no [append] gets its
    script element appended to the first [body] element of the document, as
    its last child; when the document has no [body], the call ends in a
    [TypeError] with the document as it was. *)
Theorem late_request_appends_to_body (s2i : string -> Z) (yn : M bool)
    (a : argument) (o : gmap string value) (s s1 : state) :
  DOMContentLoaded s = false ->
  prepare a s = Ok o s1 ->
  truthyV (prop o "append") = false ->
  well_formed (fresh s) (page s) ->
  match firstByTagName "body" (page s) with
  | Some body =>
      exists s2,
        script s2i yn a s = Ok tt s2
        /\ document (page s2)
           = append_kid body (Node (fresh s) []) (document (page s))
        /\ get_prop (fresh s) "src" (page s2) = prim_of (prop o "src")
        /\ handlers s2 !! fresh s
           = Some (fresh_closure (late_options o) (Some EndImmediate))
  | None =>
      exists s2,
        script s2i yn a s = Err TypeError s2
        /\ document (page s2) = document (page s)
        /\ doc_write s2 = TempDocWrite
  end.
Proof.
  intros Hb Hp Ha Hwf.
  assert (H1 : DOMContentLoaded s1 = false /\ page s1 = page s /\ fresh s1 = fresh s).
  { by destruct (prepare_state _ _ _ _ Hp) as [->| ->]. }
  destruct H1 as (Hb1 & Hp1 & Hf1).
  destruct (late_options_append o Ha) as [Hap Hd].
  destruct (overridden s1)
    as (s0 & E0 & W1 & _ & _ & _ & _ & _ & Hf0 & _ & Hp0 & _).
  assert (Hrun : script s2i yn a s
                 = (do _ <- call_value (VFun appendToBody) None (CNode (fresh s0)) in ret tt)
                     (appending (late_options o) (Some EndImmediate) s0)).
  { unfold script, bind at 1. rewrite Hp, (submit_late _ _ _ _ Hb1).
    unfold bind at 1. rewrite E0.
    by rewrite (loadScript_appending _ _ _ _ Hd), Hap. }
  assert (Hwf0 : well_formed (fresh s0) (page s0)) by (by rewrite Hf0, Hf1, Hp0, Hp1).
  assert (Hf : fresh s0 ∉ handles (document (page s0))).
  { destruct Hwf0 as [_ Hlt]. apply Forall_app in Hlt as [HT _].
    intros Hin. rewrite Forall_forall in HT. apply HT in Hin. lia. }
  assert (Hfind : firstByTagName "body"
                    (page (appending (late_options o) (Some EndImmediate) s0))
                  = firstByTagName "body" (page s)).
  { unfold firstByTagName.
    rewrite (find_forest_appending (late_options o) (Some EndImmediate) s0
               "tagName" (PStr "body") Hf).
    by rewrite Hp0, Hp1. }
  rewrite Hrun. unfold bind, call_value, appendToBody. cbn [w_dom]. rewrite Hfind.
  destruct (firstByTagName "body" (page s)) as [body|] eqn:Ebody.
  - unfold keep, ret. cbn [w_dom w_writes]. eexists. split; [reflexivity|].
    cbn [page handlers set_page set_writes]. split_and!.
    + unfold appendChild. rewrite take_out_appending by done.
      unfold map_trees, set_detached, set_document. cbn [document].
      by rewrite Hf0, Hf1, Hp0, Hp1.
    + unfold appendChild. rewrite take_out_appending by done.
      unfold map_trees, set_detached, set_document, get_prop. cbn [props].
      change (get_prop (fresh s) "src"
                (page (appending (late_options o) (Some EndImmediate) s0))
              = prim_of (prop o "src")).
      rewrite <- Hf1, <- Hf0.
      unfold appending. cbn [page set_handlers set_page].
      destruct (truthyV (prop (late_options o) "type"));
        destruct (truthyV (prop (late_options o) "charset"));
        rewrite ?get_set_prop_ne by done; rewrite get_set_prop;
        unfold late_options; rewrite prop_insert_ne by done; rewrite Ha; cbn [negb];
        by rewrite !prop_insert_ne by done.
    + rewrite <- Hf1, <- Hf0. apply appending_fields.
  - eexists. split; [reflexivity|].
    cbn [page doc_write set_page set_writes w_dom]. split.
    + destruct (appending_page (late_options o) (Some EndImmediate) s0) as (-> & _).
      by rewrite Hp0, Hp1.
    + exact W1.
Qed.

(** ** An [append] given as an id *)

Lemma prepare_append (a : argument) (o : gmap string value) (s s1 : state) :
  prepare a s = Ok o s1 ->
  prop o "append"
  = match prop (given a ∪ defaults s) "append" with
    | VPrim (PStr x) => VFun (appendById x)
    | VNode p => VFun (appendTo p)
    | v => v
    end.
Proof.
  intros Hp. destruct (prepare_inv _ _ _ _ Hp) as (a' & o1 & Hc & Hs).
  destruct (checkArgs_given _ _ _ _ Hc) as [-> _].
  assert (H1 : prop o1 "append" = prop (given a ∪ defaults s) "append").
  { by apply (completeSrc_other _ _ _ _ _ Hs). }
  revert Hp. unfold prepare, bind, gets. rewrite Hc. cbv beta iota. rewrite Hs.
  set (o2 := defaultDefer (normalizeOnload (given a) o1)).
  assert (H2 : prop o2 "append" = prop (given a ∪ defaults s) "append").
  { unfold o2. by rewrite defaultDefer_other, normalizeOnload_other. }
  destruct (truthyV (prop o2 "id")) eqn:Hid.
  - intros [= <- <-]. unfold normalizeAppend. rewrite H2.
    destruct (prop (given a ∪ defaults s) "append") as [[]| |] eqn:E;
      rewrite ?prop_insert_eq; try done; by rewrite H2.
  - unfold _generateId, bind, gets, modify, ret. intros [= <- <-].
    unfold normalizeAppend. rewrite prop_insert_ne by done. rewrite H2.
    destruct (prop (given a ∪ defaults s) "append") as [[]| |] eqn:E;
      rewrite ?prop_insert_eq; try done; rewrite prop_insert_ne by done; by rewrite H2.
Qed.

(** X22: an [append] option that is a string is taken as the id of an element:
    when such a request is loaded, its script element becomes the last child
    of the first element of the document with that id; when there is none,
    the load ends in a [TypeError] with the document as it was. *)
Theorem append_by_id (yn : M bool) (a : argument) (x : string)
    (o0 o : gmap string value) (endF : option endfn) (s0 s0' s : state) :
  prepare a s0 = Ok o0 s0' ->
  prop (given a ∪ defaults s0) "append" = VPrim (PStr x) ->
  prop o "append" = prop o0 "append" ->
  truthyV (prop o "defer") = true ->
  well_formed (fresh s) (page s) ->
  match getElementById x (page s) with
  | Some p =>
      exists s1,
        loadScript yn o endF s = Ok tt s1
        /\ document (page s1) = append_kid p (Node (fresh s) []) (document (page s))
  | None =>
      exists s1,
        loadScript yn o endF s = Err TypeError s1
        /\ document (page s1) = document (page s)
  end.
Proof.
  intros Hp Hx Ho Hd Hwf.
  assert (Ha : prop o "append" = VFun (appendById x)).
  { by rewrite Ho, (prepare_append _ _ _ _ Hp), Hx. }
  assert (Hf : fresh s ∉ handles (document (page s))).
  { destruct Hwf as [_ Hlt]. apply Forall_app in Hlt as [HT _].
    intros Hin. rewrite Forall_forall in HT. apply HT in Hin. lia. }
  assert (Hfind : getElementById x (page (appending o endF s)) = getElementById x (page s)).
  { unfold getElementById. by apply find_forest_appending. }
  rewrite (loadScript_appending _ _ _ _ Hd), Ha.
  unfold bind, call_value, appendById. cbn [w_dom]. rewrite Hfind.
  destruct (getElementById x (page s)) as [p|].
  - unfold keep, ret. cbn [w_dom w_writes]. eexists. split; [reflexivity|].
    cbn [page set_page set_writes]. unfold appendChild.
    by rewrite take_out_appending.
  - eexists. split; [reflexivity|]. cbn [page set_page set_writes w_dom].
    by destruct (appending_page o endF s) as (-> & _).
Qed.

Lemma append_by_id_witness :
  exists s1,
    loadScript (ret false) (fst (prepared (ArgObj request_into) begin_a))
      (Some EndDrain) begin_a
    = Ok tt s1
    /\ document (page s1)
       = Node 0%nat [Node 1%nat [Node 2%nat [Node 3%nat []; Node 4%nat [Node 5%nat []]]]].
Proof.
  pose proof (append_by_id (ret false) (ArgObj request_into) "_script-1"
                (fst (prepared (ArgObj request_into) begin_a))
                (fst (prepared (ArgObj request_into) begin_a))
                (Some EndDrain) begin_a
                (snd (prepared (ArgObj request_into) begin_a)) begin_a) as H.
  assert (Hb : getElementById "_script-1" (page begin_a) = Some 4%nat) by by vm_compute.
  rewrite Hb in H. destruct H as (s1 & H1 & H2).
  - by vm_compute.
  - by vm_compute.
  - reflexivity.
  - by vm_compute.
  - split; apply (bool_decide_unpack _); by vm_compute.
  - exists s1. split; [exact H1|]. rewrite H2. by vm_compute.
Defined.

(** ** A worklist of synchronous requests *)

Lemma callbacks_none (o : gmap string value) (el : option nid) (s : state) :
  truthyV (prop o "loaded") = false ->
  truthyV (prop o "complete") = false ->
  callbacks o el s = Ok tt s.
Proof. intros H1 H2. unfold callbacks. by rewrite H1, H2. Qed.

(** X23: the scheduler works off synchronous requests without waiting: when
    the requests left in the worklist are all in synchronous mode, with no
    callbacks, and their elements are in the document, one call of
    [yieldNext] loads every one of them, in order, each ended before the
    next begins; it returns, and the write entry points are the page's own
    again. *)
Theorem synchronous_worklist_runs_through (l : list (gmap string value)) :
  forall (fuel : nat) (s : state),
    drop (next s) (_scripts s) = l ->
    Forall plain l ->
    lined_up l (page s) ->
    docWrite s = None ->
    docWriteln s = None ->
    (length l < fuel)%nat ->
    exists s',
      yieldNext fuel s = Ok (negb (bool_decide (l = []))) s'
      /\ trace s' = trace s ++ in_turn l
      /\ next s' = S (next s + length l)
      /\ bindings s' = bindings s
      /\ _scripts s' = _scripts s.
Proof.
  induction l as [|o l IH]; intros fuel s Hdrop Hpl Hup H1 H2 Hfuel.
  - destruct fuel as [|fuel]; [lia|]. rewrite yieldNext_S.
    assert (Hn : _scripts s !! next s = None).
    { apply lookup_ge_None. apply drop_nil_inv in Hdrop. lia. }
    rewrite Hn. eexists. split; [reflexivity|].
    cbn [trace next _scripts set_next in_turn flat_map length].
    rewrite app_nil_r. split_and!; try done; lia.
  - destruct fuel as [|fuel]; [lia|]. rewrite yieldNext_S.
    assert (Hn : _scripts s !! next s = Some o).
    { rewrite <- (Nat.add_0_r (next s)), <- lookup_drop, Hdrop. done. }
    assert (Hdrop' : drop (S (next s)) (_scripts s) = l).
    { rewrite (drop_S _ _ _ Hn) in Hdrop. by injection Hdrop. }
    rewrite Hn. inversion Hpl as [|? ? (P1 & P2 & P3) Hpl']; subst.
    destruct Hup as (n & Hel & Hup).
    unfold bind at 1, loadAndYieldNext, bind at 1. rewrite overrideDocWrites_ok.
    set (s1 := final (overrideDocWrites (set_next (S (next s)) s))).
    assert (Hs1 : page s1 = page s /\ trace s1 = trace s /\ _scripts s1 = _scripts s
                  /\ next s1 = S (next s)).
    { unfold s1. clear -H1 H2. destruct s. cbn in H1, H2. by subst. }
    destruct Hs1 as (Hp1 & Ht1 & Ha1 & Hn1).
    rewrite (loadScript_sync _ _ _ _ P1), Hp1, Hel. unfold try_finally.
    rewrite (callbacks_none _ _ _ P2 P3), cleanup_found, endFunction_eq.
    unfold bind at 1.
    set (s2 := restored _).
    assert (Hs2 : page s2 = set_prop n "id" PNull (page s)
                  /\ trace s2 = trace s ++ [EvLoadScript o (Some EndDrain); EvEnd o EndDrain]
                  /\ _scripts s2 = _scripts s /\ next s2 = S (next s)
                  /\ bindings s2 = bindings s
                  /\ docWrite s2 = None /\ docWriteln s2 = None).
    { unfold s2, s1. clear -H1 H2. destruct s. cbn in H1, H2. subst.
      unfold restored, restoreDocWrites, overrideDocWrites, modify, bindings.
      cbn -[set_prop]. by rewrite <- app_assoc. }
    clearbody s2. destruct Hs2 as (Hp2 & Ht2 & Ha2 & Hn2 & Hb2 & Hw2 & Hwl2).
    destruct (IH fuel s2) as (s' & Hy & Ht' & Hn' & Hb' & Ha'); try done.
    + by rewrite Hn2, Ha2.
    + by rewrite Hp2.
    + cbn [length] in Hfuel. lia.
    + rewrite Hy. unfold ret. exists s'. split; [done|].
      rewrite Ht', Ht2, Hn', Hn2, Hb', Hb2, Ha', Ha2. cbn [length in_turn flat_map].
      rewrite <- !app_assoc. split_and!; try done; lia.
Qed.

Lemma lined_upb_ok (l : list (gmap string value)) (d : dom) :
  lined_upb l d = true -> lined_up l d.
Proof.
  revert d. induction l as [|o l IH]; intros d H; [done|].
  cbn [lined_upb] in H. cbn [lined_up].
  destruct (getElementById (toStringV (prop o "id")) d) as [n|]; [|done].
  exists n. split; [done|]. by apply IH.
Qed.

Lemma synchronous_worklist_runs_through_witness :
  exists s',
    yieldNext 3 taken_state = Ok true s'
    /\ map src_of (trace s') = ["a.js"; "a.js"; "b.js"; "b.js"]
    /\ next s' = 3%nat.
Proof.
  destruct (synchronous_worklist_runs_through (_scripts taken_state) 3 taken_state)
    as (s' & H1 & H2 & H3 & _).
  - reflexivity.
  - repeat constructor.
  - apply lined_upb_ok. by vm_compute.
  - reflexivity.
  - reflexivity.
  - vm_compute. lia.
  - exists s'. split; [|split].
    + rewrite H1. f_equal.
    + rewrite H2. by vm_compute.
    + rewrite H3. by vm_compute.
Defined.

(** ** Loads that overlap *)

(** X24: requests made after the ready event are not taken in turn.  When two
    of them are being loaded, the end of one gives the write entry points
    back to the page and clears the capture buffer, although the load
    handler of the other is still waiting: what the other script writes from
    then on is not captured. *)
Theorem overlapping_loads_share_interception (parseHTML : string -> list html)
    (yn : M bool) (n m : nid) (c c' : closure) (readyState : prim) (s : state)
    (w wl : writer) :
  handlers s !! n = Some c ->
  c_done c = false ->
  c_end c = Some EndImmediate ->
  ready readyState = true ->
  saved s = (Some w, Some wl) ->
  m <> n ->
  handlers s !! m = Some c' ->
  c_done c' = false ->
  (forall sg, handleScriptLoaded parseHTML (c_opts c) n (entered n c s) <> Gas sg) ->
  doc_write (final (loadHandler parseHTML yn n readyState s)) = w
  /\ doc_writeln (final (loadHandler parseHTML yn n readyState s)) = wl
  /\ writes (final (loadHandler parseHTML yn n readyState s)) = None
  /\ handlers (final (loadHandler parseHTML yn n readyState s)) !! m = Some c'.
Proof.
  intros Hl Hd He Hr Hs Hmn Hm Hd' Hgas.
  destruct (handler_restores parseHTML yn n c EndImmediate readyState s w wl
              Hl Hd He Hr Hs) as [Hsv ->].
  pose proof (final_framed _ (entered n c s)
                (framed_handleScriptLoaded parseHTML (c_opts c) n)) as Ha.
  assert (H : forall s1, agree (entered n c s) s1 ->
            saved (set_trace (trace s1 ++ [EvEnd (c_opts c) EndImmediate]) s1)
            = (Some w, Some wl) ->
            let s2 := restored (set_trace (trace s1 ++ [EvEnd (c_opts c) EndImmediate]) s1) in
            doc_write s2 = w /\ doc_writeln s2 = wl /\ writes s2 = None
            /\ handlers s2 !! m = Some c').
  { intros s1 [_ _ _ Hh _ _] Hsv1 s2.
    destruct (restored_originals _ w wl Hsv1) as (R1 & R2 & R3 & _).
    split_and!; try done.
    unfold s2. destruct (agree_restored
      (set_trace (trace s1 ++ [EvEnd (c_opts c) EndImmediate]) s1)) as [_ _ _ -> _ _].
    cbn [handlers set_trace]. rewrite Hh. cbn [handlers entered set_trace set_handlers].
    by rewrite lookup_insert_ne. }
  destruct (handleScriptLoaded parseHTML (c_opts c) n (entered n c s)) as [[] s1|e s1|s1].
  - cbn [resume ret final]. by apply H.
  - cbn [resume ret after_throw final]. by apply H.
  - by destruct (Hgas s1).
Qed.

Lemma overlapping_loads_share_interception_witness :
  doc_write (final (loadHandler parse_text (ret false) 3%nat PUndef overlapping_state))
  = Native false
  /\ doc_writeln (final (loadHandler parse_text (ret false) 3%nat PUndef overlapping_state))
     = Native true
  /\ writes (final (loadHandler parse_text (ret false) 3%nat PUndef overlapping_state))
     = None
  /\ handlers (final (loadHandler parse_text (ret false) 3%nat PUndef overlapping_state))
       !! 4%nat = Some (overlapping_closure 4).
Proof.
  apply (overlapping_loads_share_interception parse_text (ret false) 3%nat 4%nat
           (overlapping_closure 3) (overlapping_closure 4) PUndef overlapping_state
           (Native false) (Native true)).
  - by vm_compute.
  - reflexivity.
  - reflexivity.
  - reflexivity.
  - reflexivity.
  - lia.
  - by vm_compute.
  - reflexivity.
  - intros sg. by vm_compute.
Defined.

(** ** Further properties at concrete pages *)

Lemma unready_signal_ignored_witness :
  dispatch parse_text integer_zero (Signal 3%nat OnReadyStateChange (PStr "loading"))
    veto_state
  = Ok tt veto_state.
Proof.
  apply (unready_signal_ignored parse_text integer_zero 3%nat OnReadyStateChange
           (PStr "loading") veto_state); [reflexivity|discriminate|discriminate].
Defined.


Lemma replay_reverses_nodes_witness :
  exists s',
    handleScriptLoaded parse_pair written_options 5%nat written_state = Ok tt s'
    /\ document (page s')
       = Node 0%nat [Node 1%nat [Node 2%nat
           [Node 5%nat []; Node 7%nat []; Node 6%nat []; Node 4%nat []]]].
Proof.
  destruct (replay_reverses_nodes parse_pair written_options 5%nat 3%nat
              [PStr "<b></b>"; PStr "<i></i>"] [Node 6%nat []; Node 7%nat []] 8%nat
              written_state)
    as (s' & H1 & H2 & _).
  - by vm_compute.
  - by vm_compute.
  - by vm_compute.
  - split; apply (bool_decide_unpack _); by vm_compute.
  - by vm_compute.
  - apply (bool_decide_unpack _). by vm_compute.
  - by vm_compute.
  - exists s'. split; [exact H1|]. rewrite H2. by vm_compute.
Defined.

Lemma replay_without_placeholder_witness :
  exists s',
    handleScriptLoaded parse_pair late_written_options 3%nat late_written_state = Ok tt s'
    /\ document (page s')
       = Node 0%nat [Node 1%nat [Node 2%nat [Node 3%nat []; Node 6%nat []; Node 5%nat []]]].
Proof.
  destruct (replay_without_placeholder parse_pair late_written_options 3%nat
              [PStr "<b></b>"; PStr "<i></i>"] [Node 5%nat []; Node 6%nat []] 7%nat
              late_written_state)
    as (s' & H1 & H2 & _).
  - by vm_compute.
  - by vm_compute.
  - by vm_compute.
  - split; apply (bool_decide_unpack _); by vm_compute.
  - by vm_compute.
  - by vm_compute.
  - exists s'. split; [exact H1|]. rewrite H2. by vm_compute.
Defined.

Lemma late_request_appends_to_body_witness :
  exists s2,
    script integer_zero (ret false) (ArgPrim (PStr "d.js")) ready_page = Ok tt s2
    /\ document (page s2) = Node 0%nat [Node 1%nat [Node 2%nat [Node 3%nat []]]]
    /\ get_prop 3%nat "src" (page s2) = PStr "d.js".
Proof.
  pose proof (late_request_appends_to_body integer_zero (ret false)
                (ArgPrim (PStr "d.js"))
                (fst (prepared (ArgPrim (PStr "d.js")) ready_page)) ready_page
                (snd (prepared (ArgPrim (PStr "d.js")) ready_page))) as H.
  assert (Hb : firstByTagName "body" (page ready_page) = Some 2%nat) by by vm_compute.
  rewrite Hb in H.
  destruct H as (s2 & H1 & H2 & H3 & _).
  - reflexivity.
  - by vm_compute.
  - by vm_compute.
  - split; apply (bool_decide_unpack _); by vm_compute.
  - exists s2. split; [exact H1|]. split; [rewrite H2; by vm_compute|].
    etrans; [exact H3|by vm_compute].
Defined.
